(** * Neon Puck: a shallow embedding of [src/main.js]

    The game is a single JavaScript module working on module-level state:
    a list of pucks, a [Map] of active drag sessions keyed by pointer
    identifier, the match state with its debounce timestamp, and the
    score counters.  This file embeds that module as functions over an
    explicit [game] record and proves properties of the physics step, of
    the drag state machine, of the win condition and of the markup of the
    score display.  Drawing writes to the canvas only and is left out.

    Numbers.  JavaScript numbers are IEEE doubles.  Here they are
    idealised as real numbers: rounding is not modelled, except for the
    launch of [handleEnd], whose cap holds up to rounding only: there
    the rounding of every operation is written out ([shootFl]), and the
    same lines are run on binary64 numbers ([Doubles.shoot]).  The one
    operation of the game that leaves the reals is a division by zero
    (giving [NaN] or an infinity), so every division whose divisor is
    not a non-zero literal goes through [jsdiv], which reports
    [NonFinite]; reading a field of [undefined] reports [TypeError].
    Functions that can meet either live in the [result] monad, and an
    execution is followed as long as its numbers stay finite.

    Clock and chance.  [Date.now()] is an integer number of
    milliseconds; all its readings within one frame are taken to be the
    same instant [now].  The draws of [Math.random()] made by a
    [startGame] are given by a function [rnd]. *)

From Stdlib Require Import Reals Lra Lia ZArith QArith.
From Stdlib Require Floats.
From stdpp Require Import base decidable option list gmap strings.

Local Open Scope R_scope.

(** ** Deciding comparisons of numbers *)

#[global] Instance Rlt_decision (a b : R) : Decision (a < b) := Rlt_dec a b.
#[global] Instance Rle_decision (a b : R) : Decision (a <= b) := Rle_dec a b.
#[global] Instance Rgt_decision (a b : R) : Decision (a > b) := Rgt_dec a b.
#[global] Instance Rge_decision (a b : R) : Decision (a >= b) := Rge_dec a b.
#[global] Instance Req_decision : EqDecision R := Req_dec_T.

(** ** Results of operations that may fail *)

Inductive error : Type :=
| NonFinite   (* a NaN or an infinity was produced *)
| TypeError.  (* a property of [undefined] was read or written *)

Inductive result (A : Type) : Type :=
| Ok (a : A)
| Err (e : error).
Arguments Ok {A} a.
Arguments Err {A} e.

#[global] Instance result_ret : MRet result := fun A a => Ok a.

#[global] Instance result_bind : MBind result :=
  fun A B k r =>
    match r with
    | Ok a => k a
    | Err e => Err e
    end.

(** [foldM f l a] runs [f] over [l] from left to right, threading [a]:
    the shape of [l.forEach(e => ...)] mutating one object. *)
Fixpoint foldM {A B : Type} (f : A -> B -> result A) (l : list B) (a : A)
  : result A :=
  match l with
  | [] => Ok a
  | b :: l' => a' ← f a b ; foldM f l' a'
  end.

(** [x / y] in JavaScript, for a divisor that may be zero. *)
Definition jsdiv (x y : R) : result R :=
  if decide (y = 0) then Err NonFinite else Ok (x / y).

(** [Math.atan2(y, x)] on the reals (signed zeros are not modelled). *)
Definition atan2 (y x : R) : R :=
  if decide (x > 0) then atan (y / x)
  else if decide (x < 0) then
         (if decide (y >= 0) then atan (y / x) + PI else atan (y / x) - PI)
  else if decide (y > 0) then PI / 2
  else if decide (y < 0) then - (PI / 2)
  else 0.

(** ** Game constants *)

Definition PUCK_RADIUS : R := 15.
Definition HOLE_WIDTH : R := 100.
Definition WALL_THICKNESS : R := 20.
Definition FRICTION : R := 0.995.
Definition BOUNCE_DAMPING : R := 0.9.
Definition MAX_SPEED : R := 50.
Definition DRAG_FORCE : R := 0.30.

(** [GAP_OFFSET] is computed once, when the module is loaded, from the
    width of the document. *)
Definition GAP_OFFSET (clientWidth : R) : R := Rmin 200 (clientWidth / 4).

(** ** Data model *)

Inductive Side : Type := SideTop | SideBottom.

#[global] Instance Side_eq_dec : EqDecision Side.
Proof. solve_decision. Defined.

Inductive GameState : Type := Start | Playing | Won.

#[global] Instance GameState_eq_dec : EqDecision GameState.
Proof. solve_decision. Defined.

Record puck : Type := mkPuck {
  puck_id : nat;
  puck_x : R;
  puck_y : R;
  puck_vx : R;
  puck_vy : R;
  puck_color : string
}.

Record point : Type := mkPoint { pt_x : R; pt_y : R }.

(** A drag session, the value type of [activeTouches]. *)
Record touch : Type := mkTouch {
  puckIndex : nat;
  startX : R;
  startY : R;
  currentX : R;
  currentY : R;
  anchor : option point;
  side : Side
}.

(** Pointer identifiers: the string ['mouse'] or a touch identifier. *)
Inductive touchId : Type := MouseId | TouchId (n : Z).

#[global] Instance touchId_eq_dec : EqDecision touchId.
Proof. solve_decision. Defined.

#[global] Instance touchId_countable : Countable touchId.
Proof.
  refine (inj_countable'
            (fun i => match i with MouseId => None | TouchId n => Some n end)
            (fun o => match o with None => MouseId | Some n => TouchId n end) _).
  by intros [].
Qed.

Record segment : Type := mkSegment { seg_start : R; seg_end : R }.

Record obstacle : Type := mkObstacle { obs_x : R; obs_y : R; obs_radius : R }.

(** The module-level state of [main.js]. *)
Record game : Type := mkGame {
  gameState : GameState;
  winner : option Side;
  pucks : list puck;
  activeTouches : gmap touchId touch;
  winTimestamp : option Z;
  width : R;
  height : R;
  topWins : nat;
  bottomWins : nat;
  currentLevel : nat;
  clientWidth : R
}.

(** Field updates. *)

Definition puck_set_pos (p : puck) (nx ny : R) : puck :=
  mkPuck (puck_id p) nx ny (puck_vx p) (puck_vy p) (puck_color p).

Definition puck_set_x (p : puck) (nx : R) : puck :=
  puck_set_pos p nx (puck_y p).

Definition puck_set_y (p : puck) (ny : R) : puck :=
  puck_set_pos p (puck_x p) ny.

Definition puck_set_vel (p : puck) (nvx nvy : R) : puck :=
  mkPuck (puck_id p) (puck_x p) (puck_y p) nvx nvy (puck_color p).

Definition puck_set_vx (p : puck) (nvx : R) : puck :=
  puck_set_vel p nvx (puck_vy p).

Definition puck_set_vy (p : puck) (nvy : R) : puck :=
  puck_set_vel p (puck_vx p) nvy.

Definition game_set_pucks (g : game) (ps : list puck) : game :=
  mkGame (gameState g) (winner g) ps (activeTouches g) (winTimestamp g)
         (width g) (height g) (topWins g) (bottomWins g) (currentLevel g)
         (clientWidth g).

Definition game_set_touches (g : game) (m : gmap touchId touch) : game :=
  mkGame (gameState g) (winner g) (pucks g) m (winTimestamp g)
         (width g) (height g) (topWins g) (bottomWins g) (currentLevel g)
         (clientWidth g).

Definition game_set_winTimestamp (g : game) (ts : option Z) : game :=
  mkGame (gameState g) (winner g) (pucks g) (activeTouches g) ts
         (width g) (height g) (topWins g) (bottomWins g) (currentLevel g)
         (clientWidth g).

(** Kinetic energy of a puck of mass 1, up to the factor 1/2. *)
Definition speed2 (p : puck) : R :=
  puck_vx p * puck_vx p + puck_vy p * puck_vy p.

(** ** [checkCapCollision] *)

(** [const safeDist = dist > 1e-6 ? dist : 1e-6] *)
Definition safeDist (dist : R) : R :=
  if decide (dist > 1e-6) then dist else 1e-6.

Definition checkCapCollision (p : puck) (capX capY halfWallThick : R)
  : result puck :=
  let dx := puck_x p - capX in
  let dy := puck_y p - capY in
  let dist := sqrt (dx * dx + dy * dy) in
  let radiusSum := halfWallThick + PUCK_RADIUS in
  if decide (dist < radiusSum) then
    nx ← jsdiv dx (safeDist dist) ;
    ny ← jsdiv dy (safeDist dist) ;
    let overlap := radiusSum - dist in
    let p := puck_set_pos p (puck_x p + nx * overlap) (puck_y p + ny * overlap) in
    let dp := puck_vx p * nx + puck_vy p * ny in
    let p := puck_set_vel p (puck_vx p - 2 * dp * nx) (puck_vy p - 2 * dp * ny) in
    let p := puck_set_vel p (puck_vx p * BOUNCE_DAMPING)
                            (puck_vy p * BOUNCE_DAMPING) in
    Ok p
  else Ok p.

(** ** Arena geometry: [getWallSegments] and [getObstacles] *)

(** The helper [getOffset] of [getWallSegments]; [now] is [Date.now()]. *)
Definition getOffset (now : Z) (w speedFactor rangeFactor phase : R)
  : result R :=
  q ← jsdiv 375 w ;
  let speed := 0.0015 * q * speedFactor in
  let range := w * rangeFactor in
  Ok (sin (IZR now * speed + phase) * range).

(** [[h1, h2].sort((a, b) => a - b)] *)
Definition sort2 (h1 h2 : R) : R * R :=
  if decide (h1 - h2 > 0) then (h2, h1) else (h1, h2).

Definition getWallSegments (now : Z) (g : game) : result (list segment) :=
  let level := (currentLevel g + 1)%nat in
  let center := width g / 2 in
  let halfHole := HOLE_WIDTH / 2 in
  if decide (level = 1%nat) then
    Ok [ mkSegment 0 (center - halfHole);
         mkSegment (center + halfHole) (width g) ]
  else if decide (level = 2%nat \/ level = 5%nat) then
    offset ← getOffset now (width g) 1.0 0.22 0 ;
    Ok [ mkSegment 0 (center + offset - halfHole);
         mkSegment (center + offset + halfHole) (width g) ]
  else if decide (level = 3%nat) then
    let hole1Center := center - GAP_OFFSET (clientWidth g) in
    let hole2Center := center + GAP_OFFSET (clientWidth g) in
    Ok [ mkSegment 0 (hole1Center - halfHole);
         mkSegment (hole1Center + halfHole) (hole2Center - halfHole);
         mkSegment (hole2Center + halfHole) (width g) ]
  else if decide (level = 4%nat \/ (6 <= level)%nat) then
    offset1 ← getOffset now (width g) 0.35 0.35 0 ;
    let h1 := center + offset1 in
    offset2 ← getOffset now (width g) 0.65 0.35 PI ;
    let h2 := center + offset2 in
    let holes := sort2 h1 h2 in
    let leftHole := holes.1 in
    let rightHole := holes.2 in
    Ok [ mkSegment 0 (leftHole - halfHole);
         mkSegment (leftHole + halfHole) (rightHole - halfHole);
         mkSegment (rightHole + halfHole) (width g) ]
  else
    Ok [ mkSegment 0 (center - halfHole);
         mkSegment (center + halfHole) (width g) ].

Definition getObstacles (g : game) : list obstacle :=
  let level := (currentLevel g + 1)%nat in
  let radius := (WALL_THICKNESS / 2) * 1.3 in
  let center := width g / 2 in
  let topObsY := (height g / 2 + height g * 0.15) / 2 in
  let bottomObsY := (height g / 2 + height g * 0.85) / 2 in
  if decide (level = 5%nat \/ (6 <= level)%nat) then
    [ mkObstacle center topObsY radius; mkObstacle center bottomObsY radius ]
  else [].

(** ** The physics of one frame *)

(** [for (const touch of activeTouches.values())
       if (touch.puckIndex === index) ...] *)
Definition isDragged (touches : gmap touchId touch) (index : nat) : bool :=
  bool_decide (map_Exists (fun _ t => puckIndex t = index) touches).

Definition steps : R := 5.

(** The four arena edges, in the order of the source. *)
Definition boundaryCollisions (w h : R) (p : puck) : puck :=
  let p := if decide (puck_x p - PUCK_RADIUS < 0)
           then puck_set_vx (puck_set_x p PUCK_RADIUS)
                            (puck_vx p * - BOUNCE_DAMPING)
           else p in
  let p := if decide (puck_x p + PUCK_RADIUS > w)
           then puck_set_vx (puck_set_x p (w - PUCK_RADIUS))
                            (puck_vx p * - BOUNCE_DAMPING)
           else p in
  let p := if decide (puck_y p - PUCK_RADIUS < 0)
           then puck_set_vy (puck_set_y p PUCK_RADIUS)
                            (puck_vy p * - BOUNCE_DAMPING)
           else p in
  let p := if decide (puck_y p + PUCK_RADIUS > h)
           then puck_set_vy (puck_set_y p (h - PUCK_RADIUS))
                            (puck_vy p * - BOUNCE_DAMPING)
           else p in
  p.

(** The rectangular part of one wall segment. *)
Definition wallRectCollision (wallY halfWallThick : R) (p : puck) (s : segment)
  : puck :=
  let wallLeft := seg_start s in
  let wallRight := seg_end s in
  if decide (puck_y p + PUCK_RADIUS >= wallY - halfWallThick /\
             puck_y p - PUCK_RADIUS <= wallY + halfWallThick) then
    if decide (puck_x p >= wallLeft /\ puck_x p <= wallRight) then
      let p := if decide (puck_y p < wallY)
               then puck_set_y p (wallY - halfWallThick - PUCK_RADIUS - 1)
               else puck_set_y p (wallY + halfWallThick + PUCK_RADIUS + 1) in
      puck_set_vy p (puck_vy p * - BOUNCE_DAMPING)
    else p
  else p.

(** The body of [walls.forEach(segment => ...)]. *)
Definition wallCollision (w wallY halfWallThick : R) (p : puck) (s : segment)
  : result puck :=
  let wallLeft := seg_start s in
  let wallRight := seg_end s in
  let p := wallRectCollision wallY halfWallThick p s in
  p ← (if decide (wallLeft > 0)
       then checkCapCollision p wallLeft wallY halfWallThick else Ok p) ;
  if decide (wallRight < w)
  then checkCapCollision p wallRight wallY halfWallThick else Ok p.

(** The body of the ball-to-ball loop once [dist < minDist] is known to
    be tested: positions are pushed apart, velocities exchanged along the
    line of centres and damped. *)
Definition collidePucks (p other : puck) : result (puck * puck) :=
  let dx := puck_x other - puck_x p in
  let dy := puck_y other - puck_y p in
  let dist := sqrt (dx * dx + dy * dy) in
  let minDist := PUCK_RADIUS * 2 in
  if decide (dist < minDist) then
    let overlap := minDist - dist in
    let angle := atan2 dy dx in
    let moveX := (cos angle * overlap) / 2 in
    let moveY := (sin angle * overlap) / 2 in
    let p := puck_set_pos p (puck_x p - moveX) (puck_y p - moveY) in
    let other := puck_set_pos other (puck_x other + moveX)
                                    (puck_y other + moveY) in
    nx ← jsdiv dx dist ;
    ny ← jsdiv dy dist ;
    let tx := - ny in
    let ty := nx in
    let dpTan1 := puck_vx p * tx + puck_vy p * ty in
    let dpTan2 := puck_vx other * tx + puck_vy other * ty in
    let dpNorm1 := puck_vx p * nx + puck_vy p * ny in
    let dpNorm2 := puck_vx other * nx + puck_vy other * ny in
    let m1 := 1 in
    let m2 := 1 in
    let mom1 := (dpNorm1 * (m1 - m2) + 2 * m2 * dpNorm2) / (m1 + m2) in
    let mom2 := (dpNorm2 * (m2 - m1) + 2 * m1 * dpNorm1) / (m1 + m2) in
    let p := puck_set_vel p (tx * dpTan1 + nx * mom1)
                            (ty * dpTan1 + ny * mom1) in
    let other := puck_set_vel other (tx * dpTan2 + nx * mom2)
                                    (ty * dpTan2 + ny * mom2) in
    let p := puck_set_vel p (puck_vx p * BOUNCE_DAMPING)
                            (puck_vy p * BOUNCE_DAMPING) in
    let other := puck_set_vel other (puck_vx other * BOUNCE_DAMPING)
                                    (puck_vy other * BOUNCE_DAMPING) in
    Ok (p, other)
  else Ok (p, other).

(** [for (let j = index + 1; j < pucks.length; j++)]: [js] lists the
    values of [j] still to visit; both pucks are read from, and written
    back to, the shared array. *)
Fixpoint ballToBall (touches : gmap touchId touch) (index : nat)
    (js : list nat) (ps : list puck) : result (list puck) :=
  match js with
  | [] => Ok ps
  | j :: js' =>
    match ps !! index, ps !! j with
    | Some p, Some other =>
      if isDragged touches j then ballToBall touches index js' ps
      else
        r ← collidePucks p other ;
        ballToBall touches index js' (<[j := r.2]> (<[index := r.1]> ps))
    | _, _ => Err TypeError
    end
  end.

(** The callback of [pucks.forEach((puck, index) => ...)] in a sub-step. *)
Definition stepPuck (now : Z) (g : game) (ps : list puck) (index : nat)
  : result (list puck) :=
  match ps !! index with
  | None => Err TypeError
  | Some p =>
    if isDragged (activeTouches g) index then Ok ps
    else
      let p := puck_set_x p (puck_x p + puck_vx p / steps) in
      let p := puck_set_y p (puck_y p + puck_vy p / steps) in
      let p := boundaryCollisions (width g) (height g) p in
      let wallY := height g / 2 in
      let halfWallThick := WALL_THICKNESS / 2 in
      walls ← getWallSegments now g ;
      p ← foldM (wallCollision (width g) wallY halfWallThick) walls p ;
      let obstacles := getObstacles g in
      p ← foldM (fun p obs =>
                   checkCapCollision p (obs_x obs) (obs_y obs) (obs_radius obs))
                obstacles p ;
      ballToBall (activeTouches g) index
                 (seq (S index) (length ps - S index)) (<[index := p]> ps)
  end.

Definition subStep (now : Z) (g : game) (ps : list puck) : result (list puck) :=
  foldM (stepPuck now g) (seq 0 (length ps)) ps.

(** [for (let s = 0; s < steps; s++)] *)
Definition physicsSteps (now : Z) (g : game) (ps : list puck)
  : result (list puck) :=
  foldM (fun ps (_ : nat) => subStep now g ps) (seq 0 5) ps.

(** Friction, once per frame, for the pucks that are not dragged. *)
Definition applyFriction (touches : gmap touchId touch) (ps : list puck)
  : list puck :=
  imap (fun index p =>
          if isDragged touches index then p
          else puck_set_vel p (puck_vx p * FRICTION) (puck_vy p * FRICTION))
       ps.

(** [topCount] and [bottomCount]. *)
Definition countSides (h : R) (ps : list puck) : nat * nat :=
  foldl (fun c p => if decide (puck_y p < h / 2)
                    then (S c.1, c.2) else (c.1, S c.2))
        (0%nat, 0%nat) ps.

(** ** The win condition *)

(** [!winTimestamp]: [null] and [0] are falsy. *)
Definition falsy (ts : option Z) : bool :=
  match ts with
  | None => true
  | Some t => bool_decide (t = 0%Z)
  end.

Definition declareWinner (s : Side) (g : game) : game :=
  mkGame Won (Some s) (pucks g) (activeTouches g) (winTimestamp g)
         (width g) (height g)
         (if s is SideTop then S (topWins g) else topWins g)
         (if s is SideBottom then S (bottomWins g) else bottomWins g)
         (currentLevel g) (clientWidth g).

(** One arm of the win condition: start the timer, or win once the
    clock has passed it. *)
Definition pendingWin (now : Z) (s : Side) (g : game) : game :=
  if falsy (winTimestamp g) then game_set_winTimestamp g (Some (now + 800)%Z)
  else if decide (now > default 0%Z (winTimestamp g))%Z then declareWinner s g
  else g.

Definition winCondition (now : Z) (topCount bottomCount : nat) (g : game)
  : game :=
  if decide (topCount = 0%nat) then pendingWin now SideTop g
  else if decide (bottomCount = 0%nat) then pendingWin now SideBottom g
  else game_set_winTimestamp g None.

(** ** [update]: one frame *)

(** [updateScoreUI()] only writes the score to the page. *)
Definition update (now : Z) (g : game) : result game :=
  if decide (gameState g <> Playing) then Ok g
  else
    ps ← physicsSteps now g (pucks g) ;
    let ps := applyFriction (activeTouches g) ps in
    let counts := countSides (height g) ps in
    Ok (winCondition now counts.1 counts.2 (game_set_pucks g ps)).

(** ** Starting a match *)

(** [rnd k] is the value of the [k]-th call of [Math.random()] made by
    this [startGame]: two calls per puck, for [x] and then for [y]. *)
Definition spawnPuck (g : game) (rnd : nat -> R) (yFactor : R) (base i : nat)
  : puck :=
  mkPuck (i + base)
         (width g / 2 + (rnd (2 * (i + base))%nat * 200 - 100))
         (height g * yFactor + (rnd (2 * (i + base) + 1)%nat * 100 - 50))
         0 0 "#00ff00".

Definition startGame (rnd : nat -> R) (g : game) : game :=
  let topPucks := map (spawnPuck g rnd 0.25 0) (seq 0 5) in
  let bottomPucks := map (spawnPuck g rnd 0.75 5) (seq 0 5) in
  mkGame Playing None (topPucks ++ bottomPucks) ∅ None
         (width g) (height g) (topWins g) (bottomWins g)
         (topWins g + bottomWins g)%nat (clientWidth g).

(** ** Input handling *)

(** [Array.prototype.findIndex]; [None] stands for [-1]. *)
Fixpoint findIndexFrom {A : Type} (f : nat -> A -> bool) (l : list A) (i : nat)
  : option nat :=
  match l with
  | [] => None
  | a :: l' => if f i a then Some i else findIndexFrom f l' (S i)
  end.

Definition findIndex {A : Type} (f : nat -> A -> bool) (l : list A)
  : option nat :=
  findIndexFrom f l 0.

(** The predicate of the hit test in [handleStart]. *)
Definition hitTest (touches : gmap touchId touch) (x y : R)
    (index : nat) (p : puck) : bool :=
  if isDragged touches index then false
  else
    let dx := puck_x p - x in
    let dy := puck_y p - y in
    bool_decide (sqrt (dx * dx + dy * dy) < PUCK_RADIUS * 3).

Definition handleStart (rnd : nat -> R) (x y : R) (id : touchId) (g : game)
  : result game :=
  if decide (gameState g <> Playing) then
    if decide (gameState g = Start \/ gameState g = Won)
    then Ok (startGame rnd g) else Ok g
  else if decide (is_Some (activeTouches g !! id)) then Ok g
  else
    match findIndex (hitTest (activeTouches g) x y) (pucks g) with
    | None => Ok g
    | Some clickedIndex =>
      match pucks g !! clickedIndex with
      | None => Err TypeError
      | Some p =>
        let isClickTop := bool_decide (y < height g / 2) in
        let isPuckTop := bool_decide (puck_y p < height g / 2) in
        if decide (isClickTop = isPuckTop) then
          let side := if isClickTop then SideTop else SideBottom in
          let touches :=
            <[id := mkTouch clickedIndex x y x y None side]> (activeTouches g) in
          Ok (game_set_pucks (game_set_touches g touches)
                (<[clickedIndex := puck_set_vel p 0 0]> (pucks g)))
        else Ok g
      end
    end.

Definition touch_set_current (t : touch) (x y : R) : touch :=
  mkTouch (puckIndex t) (startX t) (startY t) x y (anchor t) (side t).

Definition touch_set_anchor (t : touch) (a : option point) : touch :=
  mkTouch (puckIndex t) (startX t) (startY t) (currentX t) (currentY t) a
          (side t).

(** The engagement test of [handleMove]: [engaged] tells whether the puck
    is beyond the band line [bandY] of its side. *)
Definition engage (engaged : bool) (bandY : R) (p : puck) (t : touch) : touch :=
  if engaged then
    match anchor t with
    | None => touch_set_anchor t (Some (mkPoint (puck_x p) bandY))
    | Some _ => t
    end
  else touch_set_anchor t None.

Definition handleMove (x y : R) (id : touchId) (g : game) : result game :=
  match activeTouches g !! id with
  | None => Ok g
  | Some t =>
    match pucks g !! puckIndex t with
    | None => Err TypeError
    | Some p =>
      let topBandY := height g * 0.15 in
      let bottomBandY := height g * 0.85 in
      let p := puck_set_pos p x y in
      let t := touch_set_current t x y in
      let p := if decide (side t = SideTop)
               then puck_set_y p (Rmin (puck_y p)
                                       (height g / 2 - PUCK_RADIUS - 10))
               else puck_set_y p (Rmax (puck_y p)
                                       (height g / 2 + PUCK_RADIUS + 10)) in
      let t := if decide (side t = SideTop)
               then engage (bool_decide (puck_y p < topBandY)) topBandY p t
               else engage (bool_decide (puck_y p > bottomBandY)) bottomBandY p t in
      Ok (game_set_pucks (game_set_touches g (<[id := t]> (activeTouches g)))
            (<[puckIndex t := p]> (pucks g)))
    end
  end.

(** The launch of [handleEnd], for a session whose anchor is [a]. *)
Definition shoot (a : point) (p : puck) : result puck :=
  let vx := (pt_x a - puck_x p) * DRAG_FORCE in
  let vy := (pt_y a - puck_y p) * DRAG_FORCE in
  let p := puck_set_vel p vx vy in
  let speed := sqrt (puck_vx p * puck_vx p + puck_vy p * puck_vy p) in
  if decide (speed > MAX_SPEED) then
    ratio ← jsdiv MAX_SPEED speed ;
    Ok (puck_set_vel p (puck_vx p * ratio) (puck_vy p * ratio))
  else Ok p.

Definition handleEnd (id : touchId) (g : game) : result game :=
  match activeTouches g !! id with
  | None => Ok g
  | Some t =>
    match pucks g !! puckIndex t with
    | None =>
      (* [puck] is [undefined]: reading [puck.x] throws, but only when
         there is an anchor *)
      match anchor t with
      | Some _ => Err TypeError
      | None => Ok (game_set_touches g (delete id (activeTouches g)))
      end
    | Some p =>
      p ← (match anchor t with
           | Some a => shoot a p
           | None => Ok p
           end) ;
      Ok (game_set_pucks (game_set_touches g (delete id (activeTouches g)))
            (<[puckIndex t := p]> (pucks g)))
    end
  end.

(** ** The launch in double arithmetic *)

(** [shoot] computes in the real numbers.  The code computes in doubles:
    every operation returns its exact result rounded to a double.
    [shootFl fl] is the launch with each rounding written out, [fl]
    being the rounding of a real number to a double.  The operands are
    doubles already: the coordinates, [MAX_SPEED] (50), and the double
    that the literal [0.30] denotes, [fl DRAG_FORCE].  With the identity
    for [fl] this is [shoot]. *)
Definition shootFl (fl : R -> R) (a : point) (p : puck) : result puck :=
  let vx := fl (fl (pt_x a - puck_x p) * fl DRAG_FORCE) in
  let vy := fl (fl (pt_y a - puck_y p) * fl DRAG_FORCE) in
  let p := puck_set_vel p vx vy in
  let speed := fl (sqrt (fl (fl (puck_vx p * puck_vx p)
                             + fl (puck_vy p * puck_vy p)))) in
  if decide (speed > MAX_SPEED) then
    ratio ← jsdiv MAX_SPEED speed ;
    let ratio := fl ratio in
    Ok (puck_set_vel p (fl (puck_vx p * ratio)) (fl (puck_vy p * ratio)))
  else Ok p.

(** [handleEnd] with the launch in double arithmetic. *)
Definition handleEndFl (fl : R -> R) (id : touchId) (g : game) : result game :=
  match activeTouches g !! id with
  | None => Ok g
  | Some t =>
    match pucks g !! puckIndex t with
    | None =>
      (* as in [handleEnd]: reading [puck.x] of [undefined] throws *)
      match anchor t with
      | Some _ => Err TypeError
      | None => Ok (game_set_touches g (delete id (activeTouches g)))
      end
    | Some p =>
      p ← (match anchor t with
           | Some a => shootFl fl a p
           | None => Ok p
           end) ;
      Ok (game_set_pucks (game_set_touches g (delete id (activeTouches g)))
            (<[puckIndex t := p]> (pucks g)))
    end
  end.

(** The unit roundoff of binary64: rounding to nearest changes a number
    by at most this fraction of itself. *)
Definition unit_roundoff : R := / 2 ^ 53.

(** *** The launch on binary64 numbers *)

(** The same lines of [handleEnd] on the binary64 numbers of the kernel,
    whose operations are those of IEEE 754, as the numbers of
    JavaScript are: the velocity written to the puck for the anchor
    [(ax, ay)] and the puck at [(px, py)]. *)
Module Doubles.

Import PrimFloat FloatOps SpecFloat.

Definition MAX_SPEED : float := 50%float.

(** The double nearest to 0.30. *)
Definition DRAG_FORCE : float := 0x1.3333333333333p-2%float.

Definition shoot (ax ay px py : float) : float * float :=
  let vx := ((ax - px) * DRAG_FORCE)%float in
  let vy := ((ay - py) * DRAG_FORCE)%float in
  let speed := PrimFloat.sqrt (vx * vx + vy * vy)%float in
  if (MAX_SPEED <? speed)%float then
    let ratio := (MAX_SPEED / speed)%float in
    ((vx * ratio)%float, (vy * ratio)%float)
  else (vx, vy).

(** The length of a velocity, as the code computes it. *)
Definition speed (v : float * float) : float :=
  PrimFloat.sqrt (v.1 * v.1 + v.2 * v.2)%float.

(** The rational number that a finite double stands for. *)
Definition exact (x : float) : Q :=
  match Prim2SF x with
  | S754_finite s m e =>
      (inject_Z (if s then Z.neg m else Z.pos m) * Qpower 2 e)%Q
  | _ => 0%Q
  end.

(** The square of the exact length of a velocity. *)
Definition exactSpeed2 (v : float * float) : Q :=
  (exact v.1 * exact v.1 + exact v.2 * exact v.2)%Q.

(** The launch of a session anchored at (0, 120) whose puck is at
    (138, 7), and the velocity it gives: about
    (-38.685372052961533, 31.677152478149662). *)
Definition skew_launch : float * float := shoot 0 120 138 7.

Definition skew_velocity : float * float :=
  (-0x1.357ba457c87f5p+5, 0x1.fad59dd640ee3p+4)%float.

End Doubles.

(** [handleResize] *)
Definition handleResize (w h : R) (g : game) : game :=
  mkGame (gameState g) (winner g) (pucks g) (activeTouches g) (winTimestamp g)
         w h (topWins g) (bottomWins g) (currentLevel g) (clientWidth g).

(** The state in which [init] leaves the module, for a container of
    size [w] by [h] in a document of width [cw]. *)
Definition initial (w h cw : R) : game :=
  mkGame Start None [] ∅ None w h 0 0 0 cw.

(** ** Executions *)

(** What can happen: a pointer event, a frame at clock reading [now], or
    a resize.  A cancelled touch is handled by [handleEnd], like a
    release ([onTouchCancel] calls it as [onTouchEnd] does); a press
    carries the random draws a restart would use. *)
Inductive event : Type :=
| EStart (rnd : nat -> R) (x y : R) (id : touchId)
| EMove (x y : R) (id : touchId)
| EEnd (id : touchId)
| EFrame (now : Z)
| EResize (w h : R).

Definition handle (e : event) (g : game) : result game :=
  match e with
  | EStart rnd x y id => handleStart rnd x y id g
  | EMove x y id => handleMove x y id g
  | EEnd id => handleEnd id g
  | EFrame now => update now g
  | EResize w h => Ok (handleResize w h g)
  end.

(** [run evs g]: the events of [evs], in order, from [g]. *)
Definition run (evs : list event) (g : game) : result game :=
  foldM (fun g e => handle e g) evs g.

Definition step (g g' : game) : Prop := exists e, handle e g = Ok g'.

Definition reachable (g : game) : Prop :=
  exists w h cw, rtc step (initial w h cw) g.

(** ** The score display *)

(** The double quote. *)
Definition dq : string := String (Ascii.ascii_of_nat 34) EmptyString.

(** [<div class="cls">] *)
Definition divOpen (cls : string) : string :=
  "<div class=" +:+ dq +:+ cls +:+ dq +:+ ">".

Definition divClose : string := "</div>".

(** The pieces of markup that [renderTallyHTML] appends: a stroke, the
    slash across four strokes, and a full block of five. *)
Definition markHTML : string := divOpen "mark" +:+ divClose.
Definition slashHTML : string := divOpen "slash" +:+ divClose.
Definition blockHTML : string :=
  divOpen "tally-block" +:+ markHTML +:+ markHTML +:+ markHTML +:+ markHTML
    +:+ slashHTML +:+ divClose.

(** [for (let i = 0; i < n; i++) html += piece] *)
Fixpoint appendTimes (n : nat) (piece html : string) : string :=
  match n with
  | O => html
  | S n' => appendTimes n' piece (html +:+ piece)
  end.

Definition renderTallyHTML (count : nat) : string :=
  let html := EmptyString in
  let blocks := (count / 5)%nat in
  let remainder := (count mod 5)%nat in
  let html := appendTimes blocks blockHTML html in
  if decide (0 < remainder)%nat then
    let html := html +:+ divOpen "tally-block" in
    let html := appendTimes remainder markHTML html in
    html +:+ divClose
  else html.

(** [updateScoreUI]: what is written to [score-top] and to
    [score-bottom]. *)
Definition updateScoreUI (g : game) : string * string :=
  (renderTallyHTML (topWins g), renderTallyHTML (bottomWins g)).

(** ** Event wrappers *)

(** A [Touch] of the [changedTouches] of a touch event. *)
Record touchPoint : Type := mkTouchPoint {
  clientX : R;
  clientY : R;
  identifier : Z
}.

Definition onMouseDown (rnd : nat -> R) (x y : R) (g : game) : result game :=
  handleStart rnd x y MouseId g.

Definition onMouseMove (x y : R) (g : game) : result game :=
  handleMove x y MouseId g.

Definition onMouseUp (g : game) : result game := handleEnd MouseId g.

(** The wrappers of the touch events run their handler on every changed
    touch, in order; an exception ends the loop.  At most one of the
    presses of an event can start a match (the state is [Playing]
    afterwards), so one sequence of draws serves them all. *)
Definition onTouchStart (rnd : nat -> R) (changedTouches : list touchPoint)
    (g : game) : result game :=
  foldM (fun g t =>
           handleStart rnd (clientX t) (clientY t) (TouchId (identifier t)) g)
        changedTouches g.

Definition onTouchMove (changedTouches : list touchPoint) (g : game)
  : result game :=
  foldM (fun g t => handleMove (clientX t) (clientY t) (TouchId (identifier t)) g)
        changedTouches g.

Definition onTouchEnd (changedTouches : list touchPoint) (g : game)
  : result game :=
  foldM (fun g t => handleEnd (TouchId (identifier t)) g) changedTouches g.

Definition onTouchCancel (changedTouches : list touchPoint) (g : game)
  : result game :=
  foldM (fun g t => handleEnd (TouchId (identifier t)) g) changedTouches g.

(** ** The variant with level transitions *)

(** A sibling of [main.js] in the repository eases from one level to the
    next.  It keeps the current gap positions in [currentParamState],
    computed by its [loop], and its [getWallSegments] filters the three
    segments before returning them. *)
Module Transitions.

Record holeState : Type := mkHole { baseOffset : R; offsetVal : R }.

(** [holes] is an array of two. *)
Record paramState : Type := mkParams {
  holes : holeState * holeState;
  obsScale : R
}.

Definition getWallSegments (w : R) (currentParamState : option paramState)
  : list segment :=
  match currentParamState with
  | None => []
  | Some st =>
    let center := w / 2 in
    let halfHole := HOLE_WIDTH / 2 in
    let pos1 := center + baseOffset (holes st).1 + offsetVal (holes st).1 in
    let pos2 := center + baseOffset (holes st).2 + offsetVal (holes st).2 in
    let sorted := sort2 pos1 pos2 in
    let leftHole := sorted.1 in
    let rightHole := sorted.2 in
    let segments :=
      [ mkSegment 0 (leftHole - halfHole);
        mkSegment (leftHole + halfHole) (rightHole - halfHole);
        mkSegment (rightHole + halfHole) w ] in
    filter (fun s => seg_end s > seg_start s) segments
  end.

(** *** Level configurations and their interpolation *)

(** A hole of a level configuration, and of the interpolated
    parameters. *)
Record holeParams : Type := mkHoleParams {
  hp_baseOffset : R;
  speedFactor : R;
  rangeFactor : R;
  phase : R
}.

(** [holes] is an array of two. *)
Record levelConfig : Type := mkLevelConfig {
  lc_holes : holeParams * holeParams;
  hasObstacles : bool
}.

(** [GAP_OFFSET] is a variable here, set by [handleResize]. *)
Definition getLevelConfig (GAP_OFFSET : R) (wins : nat) : levelConfig :=
  let levelIndex := (wins + 1)%nat in
  if decide (levelIndex = 1%nat) then
    mkLevelConfig (mkHoleParams 0 0 0 0, mkHoleParams 0 0 0 0) false
  else if decide (levelIndex = 2%nat) then
    mkLevelConfig (mkHoleParams 0 1.0 0.22 0, mkHoleParams 0 1.0 0.22 0) false
  else if decide (levelIndex = 3%nat) then
    mkLevelConfig (mkHoleParams (- GAP_OFFSET) 0 0 0,
                   mkHoleParams GAP_OFFSET 0 0 0) false
  else if decide (levelIndex = 4%nat) then
    mkLevelConfig (mkHoleParams (- GAP_OFFSET) 0.35 0.35 0,
                   mkHoleParams GAP_OFFSET 0.65 0.35 PI) false
  else if decide (levelIndex = 5%nat) then
    mkLevelConfig (mkHoleParams 0 1.0 0.22 0, mkHoleParams 0 1.0 0.22 0) true
  else if decide (6 <= levelIndex)%nat then
    mkLevelConfig (mkHoleParams (- GAP_OFFSET) 0.35 0.35 0,
                   mkHoleParams GAP_OFFSET 0.65 0.35 PI) true
  else
    mkLevelConfig (mkHoleParams 0 0 0 0, mkHoleParams 0 0 0 0) false.

Definition lerp (start end_ t : R) : R := start + (end_ - start) * t.

Definition easeOutQuad (t : R) : R := t * (2 - t).

(** Set to 2000 and never written again. *)
Definition transitionDuration : R := 2000.

(** What [getInterpolatedParams] returns. *)
Record interpolated : Type := mkInterpolated {
  ip_holes : holeParams * holeParams;
  ip_obsScale : R
}.

Definition lerpHole (hStart hEnd : holeParams) (t : R) : holeParams :=
  mkHoleParams (lerp (hp_baseOffset hStart) (hp_baseOffset hEnd) t)
               (lerp (speedFactor hStart) (speedFactor hEnd) t)
               (lerp (rangeFactor hStart) (rangeFactor hEnd) t)
               (lerp (phase hStart) (phase hEnd) t).

(** [time] is [Date.now()]. *)
Definition getInterpolatedParams (time transitionStartTime : Z)
    (GAP_OFFSET : R) (previousLevel currentLevel : nat) : interpolated :=
  let t := (IZR time - IZR transitionStartTime) / transitionDuration in
  let t := if decide (t > 1) then 1 else t in
  let t := if decide (t < 0) then 0 else t in
  let t := easeOutQuad t in
  let startConfig := getLevelConfig GAP_OFFSET previousLevel in
  let endConfig := getLevelConfig GAP_OFFSET currentLevel in
  let holes :=
    (lerpHole (lc_holes startConfig).1 (lc_holes endConfig).1 t,
     lerpHole (lc_holes startConfig).2 (lc_holes endConfig).2 t) in
  let obsStart := if hasObstacles startConfig then 1.0 else 0.0 in
  let obsEnd := if hasObstacles endConfig then 1.0 else 0.0 in
  let obsScale := lerp obsStart obsEnd t in
  mkInterpolated holes obsScale.

(** *** Obstacles and the frame loop *)

Definition getObstacles (w h : R) (currentParamState : option paramState)
  : list obstacle :=
  match currentParamState with
  | None => []
  | Some st =>
    if decide (obsScale st <= 0.01) then []
    else
      let targetRadius := (WALL_THICKNESS / 2) * 1.3 in
      let currentRadius := targetRadius * obsScale st in
      let center := w / 2 in
      let topObsY := (h / 2 + h * 0.15) / 2 in
      let bottomObsY := (h / 2 + h * 0.85) / 2 in
      [ mkObstacle center topObsY currentRadius;
        mkObstacle center bottomObsY currentRadius ]
  end.

(** The phase accumulators and the time of the last frame. *)
Record phaseState : Type := mkPhaseState {
  lastFrameTime : R;
  holePhases : R * R
}.

(** What [loop] computes before it calls [update] and [render]: the
    accumulators and [currentParamState].  [now] is
    [performance.now()], [time] is [Date.now()]. *)
Definition loop (now : R) (time transitionStartTime : Z) (w GAP_OFFSET : R)
    (previousLevel currentLevel : nat) (ps : phaseState)
  : result (phaseState * paramState) :=
  let dt := now - lastFrameTime ps in
  let params :=
    getInterpolatedParams time transitionStartTime GAP_OFFSET
                          previousLevel currentLevel in
  q ← jsdiv 375 w ;
  let baseSpeedConst := 0.0015 * q in
  let s1 := speedFactor (ip_holes params).1 * baseSpeedConst in
  let phase0 := (holePhases ps).1 + s1 * dt in
  let s2 := speedFactor (ip_holes params).2 * baseSpeedConst in
  let phase1 := (holePhases ps).2 + s2 * dt in
  let h1 := (ip_holes params).1 in
  let h2 := (ip_holes params).2 in
  let off1 := sin (phase0 + phase h1) * (w * rangeFactor h1) in
  let off2 := sin (phase1 + phase h2) * (w * rangeFactor h2) in
  Ok (mkPhaseState now (phase0, phase1),
      mkParams (mkHole (hp_baseOffset h1) off1, mkHole (hp_baseOffset h2) off2)
               (ip_obsScale params)).

(** The parameters of a level that is not in transition. *)
Definition settledParams (c : levelConfig) : interpolated :=
  mkInterpolated (lc_holes c) (if hasObstacles c then 1 else 0).

End Transitions.

(** * Vocabulary of the properties *)

(** ** Frames *)

(** The pucks at the end of the physics and friction of a frame. *)
Definition framePucks (now : Z) (g : game) : result (list puck) :=
  ps ← physicsSteps now g (pucks g) ;
  Ok (applyFriction (activeTouches g) ps).

(** [unchanged touches ps ps']: going from [ps] to [ps'] kept the length
    of the array and every puck held by a drag session. *)
Definition unchanged (touches : gmap touchId touch) (ps ps' : list puck) : Prop :=
  length ps' = length ps /\
  forall k, isDragged touches k = true -> ps' !! k = ps !! k.

(** A puck is [clear] when it has no velocity and touches neither an
    edge of the arena, nor the wall, nor an obstacle. *)
Definition clear (now : Z) (g : game) (p : puck) : Prop :=
  puck_vx p = 0 /\ puck_vy p = 0 /\
  boundaryCollisions (width g) (height g) p = p /\
  (exists walls,
     getWallSegments now g = Ok walls /\
     Forall (fun s => wallCollision (width g) (height g / 2)
                        (WALL_THICKNESS / 2) p s = Ok p) walls) /\
  Forall (fun obs => checkCapCollision p (obs_x obs) (obs_y obs)
                       (obs_radius obs) = Ok p) (getObstacles g).

(** It is [settled] when, besides, it touches no later puck that is not
    dragged. *)
Definition settled (now : Z) (g : game) (ps : list puck) (index : nat)
    (p : puck) : Prop :=
  clear now g p /\
  forall j q, (index < j)%nat -> ps !! j = Some q ->
              isDragged (activeTouches g) j = false ->
              collidePucks p q = Ok (p, q).

(** Every puck that is not dragged is settled. *)
Definition quiescent (now : Z) (g : game) : Prop :=
  forall index p, pucks g !! index = Some p ->
                  isDragged (activeTouches g) index = false ->
                  settled now g (pucks g) index p.

(** A segment whose end is not beyond its start stands for no wall. *)
Definition degenerate (s : segment) : Prop := seg_end s <= seg_start s.

(** ** Drag sessions *)

(** The session map is well formed: every session holds a puck of the
    array, no two sessions hold the same puck, and a held puck has no
    velocity. *)
Record sessionsOk (g : game) : Prop := mkSessionsOk {
  sess_range : forall id t,
    activeTouches g !! id = Some t -> is_Some (pucks g !! puckIndex t);
  sess_unique : forall id1 id2 t1 t2,
    activeTouches g !! id1 = Some t1 -> activeTouches g !! id2 = Some t2 ->
    puckIndex t1 = puckIndex t2 -> id1 = id2;
  sess_rest : forall id t p,
    activeTouches g !! id = Some t -> pucks g !! puckIndex t = Some p ->
    puck_vx p = 0 /\ puck_vy p = 0
}.

(** The state after a press that claims puck [i] for pointer [id]. *)
Definition claim (g : game) (x y : R) (id : touchId) (i : nat) (p : puck)
  : game :=
  game_set_pucks
    (game_set_touches g
       (<[id := mkTouch i x y x y None
                  (if bool_decide (y < height g / 2) then SideTop else SideBottom)]>
          (activeTouches g)))
    (<[i := puck_set_vel p 0 0]> (pucks g)).

(** The words of the specification of a press: puck [i] is a candidate
    when it lies within the pick radius of the press point and no active
    session holds it. *)
Definition candidate (g : game) (x y : R) (i : nat) (p : puck) : Prop :=
  pucks g !! i = Some p /\
  (forall id t, activeTouches g !! id = Some t -> puckIndex t <> i) /\
  sqrt ((puck_x p - x) * (puck_x p - x) + (puck_y p - y) * (puck_y p - y))
    < 3 * PUCK_RADIUS.

(** The press point and the puck lie on the same side of the midline. *)
Definition sameSide (g : game) (y : R) (p : puck) : Prop :=
  y < height g / 2 <-> puck_y p < height g / 2.

(** The first candidate of the array, whatever its side. *)
Definition firstCandidate (g : game) (x y : R) (i : nat) (p : puck) : Prop :=
  candidate g x y i p /\
  forall j q, (j < i)%nat -> ~ candidate g x y j q.

(** The first candidate among those on the side of the press. *)
Definition firstCandidateOnSide (g : game) (x y : R) (i : nat) (p : puck)
  : Prop :=
  (candidate g x y i p /\ sameSide g y p) /\
  forall j q, (j < i)%nat -> ~ (candidate g x y j q /\ sameSide g y q).

(** The session map of [g] is exclusive, and [handleStart] keeps it so. *)
Definition exclusiveSessions (g : game) : Prop :=
  (* at most one session references a given puck index *)
  (forall id1 id2 t1 t2,
     activeTouches g !! id1 = Some t1 -> activeTouches g !! id2 = Some t2 ->
     puckIndex t1 = puckIndex t2 -> id1 = id2) /\
  (* a pointer identifier maps to at most one session *)
  (forall id t1 t2,
     activeTouches g !! id = Some t1 -> activeTouches g !! id = Some t2 ->
     t1 = t2) /\
  (* a second start for an active identifier changes nothing *)
  (forall rnd x y id,
     gameState g = Playing -> is_Some (activeTouches g !! id) ->
     handleStart rnd x y id g = Ok g) /\
  (* a session created by a press is on a puck that no session held *)
  (forall rnd x y id g' t,
     gameState g = Playing -> activeTouches g !! id = None ->
     handleStart rnd x y id g = Ok g' -> activeTouches g' !! id = Some t ->
     forall id' t', activeTouches g !! id' = Some t' ->
                    puckIndex t' <> puckIndex t) /\
  (* a press that only reaches claimed pucks changes nothing *)
  (forall rnd x y id,
     gameState g = Playing ->
     (forall i p, pucks g !! i = Some p ->
        sqrt ((puck_x p - x) * (puck_x p - x) + (puck_y p - y) * (puck_y p - y))
          < PUCK_RADIUS * 3 ->
        exists id' t', activeTouches g !! id' = Some t' /\ puckIndex t' = i) ->
     handleStart rnd x y id g = Ok g).

(** ** The debounce timer *)

(** Frames of an execution that are not played before [T0]. *)
Definition notBefore (T0 : Z) (e : event) : Prop :=
  match e with
  | EFrame now => (T0 <= now)%Z
  | _ => True
  end.

(** Frames played within the debounce delay that starts at [T0]. *)
Definition withinDelay (T0 : Z) (e : event) : Prop :=
  match e with
  | EFrame now => (T0 <= now <= T0 + 800)%Z
  | _ => True
  end.

(** A timer that is set was started at [T0] or later. *)
Definition timerFrom (T0 : Z) (g : game) : Prop :=
  forall t, winTimestamp g = Some t -> t <> 0%Z -> (T0 + 800 <= t)%Z.

(** ** The puck array *)

(** What the game never writes in a puck: its number and its colour. *)
Definition identity (p : puck) : nat * string := (puck_id p, puck_color p).

(** The ten pucks of a match, in the order in which [startGame] pushes
    them. *)
Definition lineUp : list (nat * string) :=
  (fun i => (i, "#00ff00")) <$> seq 0 10.

(** The kinetic energy of all pucks, up to the factor 1/2. *)
Definition energy (ps : list puck) : R := foldr Rplus 0 (speed2 <$> ps).

(** ** Score and level *)

(** What holds of the score in each state of the match. *)
Definition scoreOk (g : game) : Prop :=
  match gameState g with
  | Start =>
      winner g = None /\ topWins g = 0%nat /\ bottomWins g = 0%nat /\
      currentLevel g = 0%nat
  | Playing =>
      winner g = None /\ currentLevel g = (topWins g + bottomWins g)%nat
  | Won =>
      is_Some (winner g) /\ S (currentLevel g) = (topWins g + bottomWins g)%nat
  end.

(** ** Rubber bands *)

(** The band line of a side, [topBandY] or [bottomBandY] in
    [handleMove]. *)
Definition bandY (h : R) (s : Side) : R :=
  match s with SideTop => h * 0.15 | SideBottom => h * 0.85 end.

(** A puck at height [y] is beyond the band line of side [s]: it
    stretches the band. *)
Definition beyondBand (h : R) (s : Side) (y : R) : Prop :=
  match s with SideTop => y < h * 0.15 | SideBottom => y > h * 0.85 end.

#[global] Instance beyondBand_decision h s y : Decision (beyondBand h s y).
Proof. destruct s; apply _. Defined.

(** How far a puck held on side [s] can be taken towards the wall. *)
Definition dragLimit (h : R) (s : Side) (y : R) : R :=
  match s with
  | SideTop => Rmin y (h / 2 - PUCK_RADIUS - 10)
  | SideBottom => Rmax y (h / 2 + PUCK_RADIUS + 10)
  end.

(** Every anchor lies on the band line of its session's side, and the
    puck of an anchored session is beyond that line. *)
Definition anchorsOk (g : game) : Prop :=
  forall id t a p,
    activeTouches g !! id = Some t -> anchor t = Some a ->
    pucks g !! puckIndex t = Some p ->
    pt_y a = bandY (height g) (side t) /\
    beyondBand (height g) (side t) (puck_y p).

(** Events that leave the height of the canvas at [h]. *)
Definition keepsHeight (h : R) (e : event) : Prop :=
  match e with
  | EResize _ h' => h' = h
  | _ => True
  end.

(** ** Movement *)

(** The position of a puck after the movement of a sub-step. *)
Definition moved (p : puck) : puck :=
  let p := puck_set_x p (puck_x p + puck_vx p / steps) in
  puck_set_y p (puck_y p + puck_vy p / steps).

(** ** Reading the score display *)

(** [s] starts with [pat]. *)
Fixpoint startsWith (pat s : string) : bool :=
  match pat, s with
  | EmptyString, _ => true
  | String _ _, EmptyString => false
  | String a pat', String b s' => Ascii.eqb a b && startsWith pat' s'
  end.

(** The number of places of [s] at which [pat] starts. *)
Fixpoint occurrences (pat s : string) : nat :=
  match s with
  | EmptyString => 0%nat
  | String _ s' =>
      ((if startsWith pat s then 1 else 0) + occurrences pat s')%nat
  end.

(** Reading a tally: its strokes, slashes included. *)
Definition readTally (html : string) : nat :=
  (occurrences markHTML html + occurrences slashHTML html)%nat.

(** [piece], [n] times. *)
Fixpoint times (n : nat) (piece : string) : string :=
  match n with
  | O => EmptyString
  | S n' => piece +:+ times n' piece
  end.

(** ** Transitions *)

(** The eased progress of the transition at [time]. *)
Definition progress (time transitionStartTime : Z) : R :=
  let t := (IZR time - IZR transitionStartTime) / Transitions.transitionDuration in
  let t := if decide (t > 1) then 1 else t in
  let t := if decide (t < 0) then 0 else t in
  Transitions.easeOutQuad t.

(** * Scenarios *)

(** ** A match on a 400 by 800 canvas *)

(** Random draws that spawn the pucks in two rows, 40 pixels apart. *)
Definition grid : nat -> R :=
  fun k => nth k [ 0.05; 0.5; 0.25; 0.5; 0.45; 0.5; 0.65; 0.5; 0.85; 0.5;
                   0.05; 0.5; 0.25; 0.5; 0.45; 0.5; 0.65; 0.5; 0.85; 0.5 ] 0.5.

(** The two rows, with the pucks 5 and 6 at given places. *)
Definition grid_pucks (x5 y5 x6 y6 : R) : list puck :=
  [ mkPuck 0 110 200 0 0 "#00ff00"; mkPuck 1 150 200 0 0 "#00ff00";
    mkPuck 2 190 200 0 0 "#00ff00"; mkPuck 3 230 200 0 0 "#00ff00";
    mkPuck 4 270 200 0 0 "#00ff00"; mkPuck 5 x5 y5 0 0 "#00ff00";
    mkPuck 6 x6 y6 0 0 "#00ff00"; mkPuck 7 190 600 0 0 "#00ff00";
    mkPuck 8 230 600 0 0 "#00ff00"; mkPuck 9 270 600 0 0 "#00ff00" ].

Definition grid_game (x5 y5 x6 y6 : R) (touches : gmap touchId touch) : game :=
  mkGame Playing None (grid_pucks x5 y5 x6 y6) touches None 400 800 0 0 0 400.

(** The match as [startGame] leaves it with these draws. *)
Definition fresh_game : game := grid_game 110 600 150 600 ∅.

(** ** A first press *)

(** The mouse comes down on the first top puck. *)
Definition pressed_game : game :=
  grid_game 110 600 150 600
    {[MouseId := mkTouch 0 110 200 110 200 None SideTop]}.

(** ** A second press on the same spot *)

(** While the mouse holds the first top puck, a finger comes down on the
    very same point, the centre of that puck.  The finger gets a
    session, on the second puck, 40 pixels away. *)
Definition second_touch : touch := mkTouch 1 110 200 110 200 None SideTop.

Definition two_pressed_game : game :=
  grid_game 110 600 150 600
    (<[TouchId 3 := second_touch]>
       {[MouseId := mkTouch 0 110 200 110 200 None SideTop]}).

(** ** Two releases on the same spot *)

(** The mouse takes the first bottom puck to (200, 500) and lets it go,
    and does the same with the second one. *)
Definition same_spot_events : list event :=
  [ EStart grid 0 0 MouseId;
    EStart grid 110 600 MouseId; EMove 200 500 MouseId; EEnd MouseId;
    EStart grid 150 600 MouseId; EMove 200 500 MouseId; EEnd MouseId ].

Definition same_spot_game : game := grid_game 200 500 200 500 ∅.

(** ** A skew launch *)

(** On the canvas of 400 by 800 the mouse has dragged the first top puck
    to (138, 7); the session was anchored on the band line at (0, 120). *)
Definition skew_puck : puck := mkPuck 0 138 7 0 0 "#00ff00".

Definition skew_touch : touch :=
  mkTouch 0 110 200 138 7 (Some (mkPoint 0 120)) SideTop.

Definition skew_game : game :=
  mkGame Playing None (skew_puck :: tail (grid_pucks 110 600 150 600))
         {[MouseId := skew_touch]} None 400 800 0 0 0 400.

(** A rounding that errs upwards by the whole unit roundoff. *)
Definition round_up (x : R) : R := x * (1 + unit_roundoff).

(** ** A press between two pucks *)

(** Two pucks in the gap, one on each side of the midline, the bottom
    one first in the array; a finger comes down between them, on the top
    side. *)
Definition gap_pucks : list puck :=
  [ mkPuck 0 200 410 0 0 "#00ff00"; mkPuck 1 200 380 3 4 "#00ff00";
    mkPuck 2 60 100 0 0 "#00ff00"; mkPuck 3 120 100 0 0 "#00ff00";
    mkPuck 4 300 100 0 0 "#00ff00"; mkPuck 5 60 700 0 0 "#00ff00";
    mkPuck 6 120 700 0 0 "#00ff00"; mkPuck 7 200 700 0 0 "#00ff00";
    mkPuck 8 280 700 0 0 "#00ff00"; mkPuck 9 340 700 0 0 "#00ff00" ].

Definition gap_game : game :=
  mkGame Playing None gap_pucks ∅ None 400 800 0 0 0 400.

(** ** An end of match *)

(** Ten resting pucks in two rows, at heights 250 and 330. *)
Definition endgame_pucks : list puck :=
  [ mkPuck 0 40 250 0 0 "#00ff00"; mkPuck 1 110 250 0 0 "#00ff00";
    mkPuck 2 180 250 0 0 "#00ff00"; mkPuck 3 250 250 0 0 "#00ff00";
    mkPuck 4 320 250 0 0 "#00ff00"; mkPuck 5 40 330 0 0 "#00ff00";
    mkPuck 6 110 330 0 0 "#00ff00"; mkPuck 7 180 330 0 0 "#00ff00";
    mkPuck 8 250 330 0 0 "#00ff00"; mkPuck 9 320 330 0 0 "#00ff00" ].

(** The first match, on a canvas of [w] by [h], with timer [ts].  On a
    canvas 400 high all ten pucks are below the midline; on a canvas 800
    high they are all above it. *)
Definition endgame (w h : R) (ts : option Z) : game :=
  mkGame Playing None endgame_pucks ∅ ts w h 0 0 0 400.

(** ** Overlapping gaps *)

(** Level 4 on a canvas 375 wide; at clock reading 0 both gaps are at
    the centre. *)
Definition overlap_game : game :=
  mkGame Playing None endgame_pucks ∅ None 375 667 2 1 3 375.

(** A puck at rest in the merged gap, level with the wall. *)
Definition gap_puck : puck := mkPuck 0 225 333.5 0 0 "#00ff00".

(** ** A match won by a rotation *)

(** The fresh match of the grid after the canvas has become 1700 high:
    the ten pucks are at rest above the new midline. *)
Definition tall_game (ts : option Z) : game :=
  mkGame Playing None (grid_pucks 110 600 150 600) ∅ ts 400 1700 0 0 0 400.

(** The same once the debounce delay has passed. *)
Definition tall_won : game := declareWinner SideBottom (tall_game (Some 1800%Z)).

(** ** A held puck, and level 5 *)

(** A finger holds the first top puck of the fresh match. *)
Definition touched_game : game :=
  grid_game 110 600 150 600
    {[TouchId 7 := mkTouch 0 110 200 110 200 None SideTop]}.

(** Level 5 on a canvas of 400 by 800. *)
Definition level5_game : game :=
  mkGame Playing None endgame_pucks ∅ None 400 800 2 2 4 400.

(** ** A puck in flight *)

(** The first puck flies towards the right edge of the canvas of 400 by
    800 at [MAX_SPEED], 20 pixels from the edge, while a finger holds
    the second puck; the other pucks are at rest where the match put
    them. *)
Definition flight_rest : list puck := tail (grid_pucks 110 600 150 600).

Definition flight_game : game :=
  mkGame Playing None (mkPuck 0 380 100 50 0 "#00ff00" :: flight_rest)
         {[TouchId 7 := mkTouch 1 150 200 150 200 None SideTop]}
         None 400 800 0 0 0 400.

(** The pucks one frame later: the first one has bounced off the edge in
    the first sub-step, flown back for four more and been slowed by the
    friction. *)
Definition flight_landed : list puck :=
  mkPuck 0 349 100 (-44.775) 0 "#00ff00" :: flight_rest.

Definition flight_after : game :=
  mkGame Playing None flight_landed
         {[TouchId 7 := mkTouch 1 150 200 150 200 None SideTop]}
         None 400 800 0 0 0 400.

(** * Proof tools *)

(** Case analysis on the index of a lookup in a list given in full. *)
Ltac list_cases :=
  repeat match goal with
         | H : (_ :: _) !! ?j = Some _ |- _ =>
             destruct j as [|j]; [injection H as <- | cbn in H]
         | H : [] !! _ = Some _ |- _ => discriminate H
         end.

(** * Properties *)

(** ** Numbers and results *)

Lemma jsdiv_ok (x y : R) : y <> 0 -> jsdiv x y = Ok (x / y).
Proof. intros Hy. unfold jsdiv. by rewrite decide_False. Qed.

Lemma jsdiv_zero (x : R) : jsdiv x 0 = Err NonFinite.
Proof. unfold jsdiv. by rewrite decide_True. Qed.

Lemma bind_ok {A B : Type} (a : A) (k : A -> result B) :
  (Ok a ≫= k) = k a.
Proof. reflexivity. Qed.

Lemma bind_err {A B : Type} (e : error) (k : A -> result B) :
  (Err e ≫= k) = Err e.
Proof. reflexivity. Qed.

Lemma bind_ok_inv {A B : Type} (r : result A) (k : A -> result B) (b : B) :
  (r ≫= k) = Ok b -> exists a, r = Ok a /\ k a = Ok b.
Proof. destruct r as [a|e]; [eauto | discriminate]. Qed.

Lemma sqrt_sum_squares (a b : R) :
  0 <= sqrt (a * a + b * b) /\
  sqrt (a * a + b * b) * sqrt (a * a + b * b) = a * a + b * b.
Proof.
  split; [apply sqrt_pos |].
  apply sqrt_sqrt. nra.
Qed.

Lemma sqrt_sum_squares_zero (a b : R) :
  sqrt (a * a + b * b) = 0 -> a = 0 /\ b = 0.
Proof.
  intros H. destruct (sqrt_sum_squares a b) as [_ Hs].
  rewrite H in Hs. nra.
Qed.

(** ** The cap collision *)

Lemma safeDist_lower (d : R) : 1e-6 <= safeDist d.
Proof. unfold safeDist. case_decide; lra. Qed.

Lemma safeDist_upper (d : R) : d <= safeDist d.
Proof. unfold safeDist. case_decide; lra. Qed.

Lemma safeDist_nonzero (d : R) : safeDist d <> 0.
Proof. pose proof (safeDist_lower d). lra. Qed.

(** The collision normal has length at most 1: exactly 1 in the regular
    case, less when the safe distance replaces a tiny one. *)
Lemma cap_normal_bound (dx dy : R) :
  let sd := safeDist (sqrt (dx * dx + dy * dy)) in
  (dx / sd) * (dx / sd) + (dy / sd) * (dy / sd) <= 1.
Proof.
  intros sd.
  destruct (sqrt_sum_squares dx dy) as [Hpos Hsq].
  pose proof (safeDist_lower (sqrt (dx * dx + dy * dy))) as Hlo.
  pose proof (safeDist_upper (sqrt (dx * dx + dy * dy))) as Hup.
  fold sd in Hlo, Hup.
  assert (Hsd : 0 < sd) by lra.
  set (q := dx / sd * (dx / sd) + dy / sd * (dy / sd)).
  assert (Hq : q * (sd * sd) = dx * dx + dy * dy) by (unfold q; field; lra).
  assert (Hle : dx * dx + dy * dy <= sd * sd) by (rewrite <- Hsq; nra).
  assert (Hss : 0 < sd * sd) by nra.
  destruct (Rle_dec q 1) as [|Hgt]; [done |].
  assert (0 < (q - 1) * (sd * sd)) by (apply Rmult_lt_0_compat; lra).
  lra.
Qed.

(** The value [checkCapCollision] computes when the puck overlaps the cap. *)
Lemma checkCapCollision_near (p : puck) (capX capY h : R) :
  let dx := puck_x p - capX in
  let dy := puck_y p - capY in
  let dist := sqrt (dx * dx + dy * dy) in
  let nx := dx / safeDist dist in
  let ny := dy / safeDist dist in
  let dp := puck_vx p * nx + puck_vy p * ny in
  dist < h + PUCK_RADIUS ->
  checkCapCollision p capX capY h =
    Ok (mkPuck (puck_id p)
               (puck_x p + nx * (h + PUCK_RADIUS - dist))
               (puck_y p + ny * (h + PUCK_RADIUS - dist))
               ((puck_vx p - 2 * dp * nx) * BOUNCE_DAMPING)
               ((puck_vy p - 2 * dp * ny) * BOUNCE_DAMPING)
               (puck_color p)).
Proof.
  intros dx dy dist nx ny dp Hnear.
  unfold checkCapCollision. fold dx dy dist.
  rewrite decide_True by done.
  rewrite !jsdiv_ok by apply safeDist_nonzero.
  reflexivity.
Qed.

Lemma checkCapCollision_far (p : puck) (capX capY h : R) :
  let dx := puck_x p - capX in
  let dy := puck_y p - capY in
  h + PUCK_RADIUS <= sqrt (dx * dx + dy * dy) ->
  checkCapCollision p capX capY h = Ok p.
Proof.
  intros dx dy Hfar. unfold checkCapCollision. fold dx dy.
  rewrite decide_False by lra. reflexivity.
Qed.

Lemma checkCapCollision_total (p : puck) (capX capY h : R) :
  exists p', checkCapCollision p capX capY h = Ok p'.
Proof.
  destruct (decide (sqrt ((puck_x p - capX) * (puck_x p - capX) +
                          (puck_y p - capY) * (puck_y p - capY))
                    < h + PUCK_RADIUS)) as [Hnear|Hfar].
  - rewrite checkCapCollision_near by done. eauto.
  - rewrite checkCapCollision_far by lra. eauto.
Qed.

(** Reflecting a velocity about a normal of length at most 1 and damping
    it does not lengthen it. *)
Lemma reflect_damp_energy (vx vy nx ny d : R) :
  nx * nx + ny * ny <= 1 ->
  0 <= d * d <= 1 ->
  let dp := vx * nx + vy * ny in
  ((vx - 2 * dp * nx) * d) * ((vx - 2 * dp * nx) * d) +
  ((vy - 2 * dp * ny) * d) * ((vy - 2 * dp * ny) * d)
  <= vx * vx + vy * vy.
Proof.
  intros Hn Hd dp.
  assert (Hid : ((vx - 2 * dp * nx) * d) * ((vx - 2 * dp * nx) * d) +
                ((vy - 2 * dp * ny) * d) * ((vy - 2 * dp * ny) * d)
                = (d * d) * (vx * vx + vy * vy
                             - 4 * (dp * dp) * (1 - (nx * nx + ny * ny))))
    by (unfold dp; ring).
  rewrite Hid. clearbody dp.
  assert (0 <= dp * dp) by nra.
  assert (0 <= 4 * (dp * dp) * (1 - (nx * nx + ny * ny))) by nra.
  assert (0 <= vx * vx + vy * vy) by nra.
  nra.
Qed.

Lemma checkCapCollision_energy (p p' : puck) (capX capY h : R) :
  checkCapCollision p capX capY h = Ok p' -> speed2 p' <= speed2 p.
Proof.
  destruct (decide (sqrt ((puck_x p - capX) * (puck_x p - capX) +
                          (puck_y p - capY) * (puck_y p - capY))
                    < h + PUCK_RADIUS)) as [Hnear|Hfar].
  - rewrite checkCapCollision_near by done. intros [= <-].
    unfold speed2. cbn [puck_vx puck_vy].
    apply reflect_damp_energy.
    + apply cap_normal_bound.
    + unfold BOUNCE_DAMPING. lra.
  - rewrite checkCapCollision_far by lra. intros [= <-]. lra.
Qed.

(** ** Energy in the other collisions *)

Lemma damping_square : 0 <= BOUNCE_DAMPING * BOUNCE_DAMPING <= 1.
Proof. unfold BOUNCE_DAMPING. lra. Qed.

Lemma bounce_component (v : R) :
  (v * - BOUNCE_DAMPING) * (v * - BOUNCE_DAMPING) <= v * v.
Proof.
  pose proof damping_square as Hd.
  replace (v * - BOUNCE_DAMPING * (v * - BOUNCE_DAMPING))
    with (BOUNCE_DAMPING * BOUNCE_DAMPING * (v * v)) by ring.
  assert (0 <= v * v) by nra. nra.
Qed.

Lemma boundaryCollisions_energy (w h : R) (p : puck) :
  speed2 (boundaryCollisions w h p) <= speed2 p.
Proof.
  pose proof (bounce_component (puck_vx p)) as Hx.
  pose proof (bounce_component (puck_vx p * - BOUNCE_DAMPING)) as Hxx.
  pose proof (bounce_component (puck_vy p)) as Hy.
  pose proof (bounce_component (puck_vy p * - BOUNCE_DAMPING)) as Hyy.
  unfold boundaryCollisions, speed2.
  repeat case_decide; cbn [puck_vx puck_vy puck_set_vx puck_set_vy puck_set_x
    puck_set_y puck_set_vel puck_set_pos]; lra.
Qed.

Lemma wallRectCollision_energy (wallY hw : R) (p : puck) (s : segment) :
  speed2 (wallRectCollision wallY hw p s) <= speed2 p.
Proof.
  pose proof (bounce_component (puck_vy p)) as Hy.
  unfold wallRectCollision, speed2.
  repeat case_decide; cbn [puck_vx puck_vy puck_set_vx puck_set_vy puck_set_x
    puck_set_y puck_set_vel puck_set_pos]; lra.
Qed.

Lemma wallCollision_energy (w wallY hw : R) (p p' : puck) (s : segment) :
  wallCollision w wallY hw p s = Ok p' -> speed2 p' <= speed2 p.
Proof.
  unfold wallCollision. cbv zeta. intros H.
  apply bind_ok_inv in H as (p1 & H1 & H2).
  pose proof (wallRectCollision_energy wallY hw p s) as H0.
  assert (speed2 p1 <= speed2 (wallRectCollision wallY hw p s)).
  { destruct (decide (seg_start s > 0)).
    - by eapply checkCapCollision_energy.
    - injection H1 as <-. lra. }
  assert (speed2 p' <= speed2 p1).
  { destruct (decide (seg_end s < w)).
    - by eapply checkCapCollision_energy.
    - injection H2 as <-. lra. }
  lra.
Qed.

(** Exchanging the normal components of two velocities along a unit
    normal keeps the sum of their squares; damping then shrinks it. *)
Lemma elastic_damp_energy (v1x v1y v2x v2y nx ny d : R) :
  nx * nx + ny * ny = 1 ->
  0 <= d * d <= 1 ->
  let tx := - ny in
  let ty := nx in
  let dpTan1 := v1x * tx + v1y * ty in
  let dpTan2 := v2x * tx + v2y * ty in
  let dpNorm1 := v1x * nx + v1y * ny in
  let dpNorm2 := v2x * nx + v2y * ny in
  let mom1 := (dpNorm1 * (1 - 1) + 2 * 1 * dpNorm2) / (1 + 1) in
  let mom2 := (dpNorm2 * (1 - 1) + 2 * 1 * dpNorm1) / (1 + 1) in
  ((tx * dpTan1 + nx * mom1) * d) * ((tx * dpTan1 + nx * mom1) * d) +
  ((ty * dpTan1 + ny * mom1) * d) * ((ty * dpTan1 + ny * mom1) * d) +
  (((tx * dpTan2 + nx * mom2) * d) * ((tx * dpTan2 + nx * mom2) * d) +
   ((ty * dpTan2 + ny * mom2) * d) * ((ty * dpTan2 + ny * mom2) * d))
  <= v1x * v1x + v1y * v1y + (v2x * v2x + v2y * v2y).
Proof.
  intros Hn Hd tx ty dpTan1 dpTan2 dpNorm1 dpNorm2 mom1 mom2.
  set (E := v1x * v1x + v1y * v1y + (v2x * v2x + v2y * v2y)).
  set (nn := nx * nx + ny * ny) in *.
  assert (Hid :
    ((tx * dpTan1 + nx * mom1) * d) * ((tx * dpTan1 + nx * mom1) * d) +
    ((ty * dpTan1 + ny * mom1) * d) * ((ty * dpTan1 + ny * mom1) * d) +
    (((tx * dpTan2 + nx * mom2) * d) * ((tx * dpTan2 + nx * mom2) * d) +
     ((ty * dpTan2 + ny * mom2) * d) * ((ty * dpTan2 + ny * mom2) * d))
    = (d * d) * (nn * nn * E)).
  { unfold mom1, mom2, dpTan1, dpTan2, dpNorm1, dpNorm2, tx, ty, nn, E. field. }
  rewrite Hid, Hn.
  assert (0 <= E) by (unfold E; nra).
  nra.
Qed.

(** Two pucks whose centres coincide: the normal is [0 / 0]. *)
Lemma collidePucks_coincident (p other : puck) :
  puck_x other = puck_x p -> puck_y other = puck_y p ->
  collidePucks p other = Err NonFinite.
Proof.
  intros Hx Hy. unfold collidePucks. rewrite Hx, Hy.
  replace ((puck_x p - puck_x p) * (puck_x p - puck_x p) +
           (puck_y p - puck_y p) * (puck_y p - puck_y p)) with 0 by ring.
  rewrite sqrt_0.
  rewrite decide_True by (unfold PUCK_RADIUS; lra).
  rewrite !jsdiv_zero. reflexivity.
Qed.

Lemma collidePucks_energy (p other p' other' : puck) :
  collidePucks p other = Ok (p', other') ->
  speed2 p' + speed2 other' <= speed2 p + speed2 other.
Proof.
  unfold collidePucks. cbv zeta.
  set (dx := puck_x other - puck_x p). set (dy := puck_y other - puck_y p).
  set (dist := sqrt (dx * dx + dy * dy)).
  case_decide as Hnear; [| intros [= <- <-]; lra].
  destruct (decide (dist = 0)) as [H0|H0].
  { rewrite H0, !jsdiv_zero, bind_err. discriminate. }
  rewrite !jsdiv_ok by done. rewrite !bind_ok.
  intros [= <- <-]. unfold speed2.
  cbn [puck_vx puck_vy puck_set_vel puck_set_pos].
  apply elastic_damp_energy; [| apply damping_square].
  destruct (sqrt_sum_squares dx dy) as [_ Hsq]. fold dist in Hsq.
  replace (dx / dist * (dx / dist) + dy / dist * (dy / dist))
    with ((dx * dx + dy * dy) / (dist * dist)) by (field; done).
  rewrite <- Hsq. field. done.
Qed.

Lemma sqrt_ge_of_square (a b : R) : 0 <= a -> a * a <= b -> a <= sqrt b.
Proof.
  intros Ha Hab. rewrite <- (sqrt_square a) by done.
  by apply sqrt_le_1_alt.
Qed.

Lemma sqrt_lt_of_square (a b : R) : 0 < a -> 0 <= b -> b < a * a -> sqrt b < a.
Proof.
  intros Ha Hb Hab. rewrite <- (sqrt_square a) by lra.
  apply sqrt_lt_1_alt. lra.
Qed.

(** A puck sitting exactly on the centre of a cap: the normal is the zero
    vector, the position is kept and the velocity is only damped. *)
Lemma checkCapCollision_coincident (p : puck) (h : R) :
  0 < h + PUCK_RADIUS ->
  checkCapCollision p (puck_x p) (puck_y p) h =
    Ok (puck_set_vel p (puck_vx p * BOUNCE_DAMPING) (puck_vy p * BOUNCE_DAMPING)).
Proof.
  intros Hr.
  assert (H0 : sqrt ((puck_x p - puck_x p) * (puck_x p - puck_x p) +
                     (puck_y p - puck_y p) * (puck_y p - puck_y p)) = 0).
  { replace ((puck_x p - puck_x p) * (puck_x p - puck_x p) +
             (puck_y p - puck_y p) * (puck_y p - puck_y p)) with 0 by ring.
    apply sqrt_0. }
  rewrite checkCapCollision_near by (rewrite H0; done).
  rewrite H0. destruct p as [i x y vx vy c]. unfold puck_set_vel.
  cbn [puck_id puck_x puck_y puck_vx puck_vy puck_color].
  f_equal. f_equal; unfold Rdiv; ring.
Qed.

(** C6. [checkCapCollision] never divides by zero and never produces a
    NaN or an infinite component, for every puck and every cap or
    obstacle circle: the divisor of the collision normal is [safeDist],
    which is never below [1e-6] and is [1e-6] when the distance is zero,
    and the call returns a puck with real components. *)
Theorem checkCapCollision_finite (p : puck) (capX capY halfWallThick : R) :
  (forall dist, 1e-6 <= safeDist dist) /\
  safeDist 0 = 1e-6 /\
  exists p', checkCapCollision p capX capY halfWallThick = Ok p'.
Proof.
  split; [apply safeDist_lower |]. split.
  - unfold safeDist. rewrite decide_False by lra. reflexivity.
  - apply checkCapCollision_total.
Qed.

(** C10. [checkCapCollision] changes nothing but the position and the
    velocity of the puck it is given (identity and colour are kept, and
    no other puck is in its reach), and when the distance between the
    puck centre and the cap centre is at least the cap radius plus
    [PUCK_RADIUS] it returns that puck unchanged. *)
Theorem checkCapCollision_frame (p : puck) (capX capY halfWallThick : R) :
  let dx := puck_x p - capX in
  let dy := puck_y p - capY in
  (exists p', checkCapCollision p capX capY halfWallThick = Ok p' /\
              puck_id p' = puck_id p /\ puck_color p' = puck_color p) /\
  (halfWallThick + PUCK_RADIUS <= sqrt (dx * dx + dy * dy) ->
   checkCapCollision p capX capY halfWallThick = Ok p).
Proof.
  intros dx dy. split.
  - destruct (decide (sqrt (dx * dx + dy * dy) < halfWallThick + PUCK_RADIUS))
      as [Hnear|Hfar].
    + unfold dx, dy in Hnear. rewrite checkCapCollision_near by done. eauto.
    + unfold dx, dy in Hfar. rewrite checkCapCollision_far by lra. eauto.
  - apply checkCapCollision_far.
Qed.

(** A puck 100 pixels away from a cap of radius 10 is left alone. *)
Lemma checkCapCollision_frame_witness :
  let p := mkPuck 0 0 0 3 4 "#00ff00" in
  checkCapCollision p 100 0 10 = Ok p.
Proof.
  intros p. apply (proj2 (checkCapCollision_frame p 100 0 10)).
  apply sqrt_ge_of_square; unfold PUCK_RADIUS, p; cbn [puck_x puck_y]; lra.
Defined.

(** ** Dragged pucks and the physics of a frame *)

Lemma isDragged_true (touches : gmap touchId touch) (index : nat) :
  isDragged touches index = true <->
  exists id t, touches !! id = Some t /\ puckIndex t = index.
Proof.
  unfold isDragged. rewrite bool_decide_eq_true. reflexivity.
Qed.

Lemma isDragged_false (touches : gmap touchId touch) (index : nat) :
  isDragged touches index = false <->
  forall id t, touches !! id = Some t -> puckIndex t <> index.
Proof.
  rewrite <- not_true_iff_false, isDragged_true. split.
  - intros Hno id t Hid Heq. apply Hno. eauto.
  - intros Hall (id & t & Hid & Heq). by eapply Hall.
Qed.

Lemma isDragged_empty (index : nat) : isDragged ∅ index = false.
Proof. apply isDragged_false. intros id t. by rewrite lookup_empty. Qed.

Lemma unchanged_refl touches ps : unchanged touches ps ps.
Proof. by split. Qed.

Lemma unchanged_trans touches ps1 ps2 ps3 :
  unchanged touches ps1 ps2 -> unchanged touches ps2 ps3 ->
  unchanged touches ps1 ps3.
Proof.
  intros [Hl1 Hk1] [Hl2 Hk2]. split; [congruence |].
  intros k Hk. rewrite Hk2, Hk1; done.
Qed.

Lemma unchanged_insert touches ps k p :
  isDragged touches k = false -> unchanged touches ps (<[k := p]> ps).
Proof.
  intros Hk. split; [apply length_insert |].
  intros j Hj. apply list_lookup_insert_ne. congruence.
Qed.

Lemma foldM_unchanged {B : Type} touches
    (f : list puck -> B -> result (list puck)) (l : list B) :
  (forall ps b ps', f ps b = Ok ps' -> unchanged touches ps ps') ->
  forall ps ps', foldM f l ps = Ok ps' -> unchanged touches ps ps'.
Proof.
  intros Hf. induction l as [|b l IH]; intros ps ps' H; cbn in H.
  - injection H as <-. apply unchanged_refl.
  - apply bind_ok_inv in H as (ps1 & H1 & H2).
    eapply unchanged_trans; eauto.
Qed.

Lemma ballToBall_unchanged touches index js ps ps' :
  isDragged touches index = false ->
  ballToBall touches index js ps = Ok ps' -> unchanged touches ps ps'.
Proof.
  intros Hi. revert ps. induction js as [|j js IH]; intros ps H; cbn in H.
  - injection H as <-. apply unchanged_refl.
  - destruct (ps !! index) as [p|]; [| discriminate].
    destruct (ps !! j) as [other|]; [| discriminate].
    destruct (isDragged touches j) eqn:Hj; [by apply IH |].
    apply bind_ok_inv in H as ([p1 o1] & _ & H).
    eapply unchanged_trans; [| by apply IH].
    eapply unchanged_trans; by apply unchanged_insert.
Qed.

Lemma stepPuck_unchanged now g ps index ps' :
  stepPuck now g ps index = Ok ps' -> unchanged (activeTouches g) ps ps'.
Proof.
  unfold stepPuck. destruct (ps !! index) as [p|]; [| discriminate].
  destruct (isDragged (activeTouches g) index) eqn:Hi.
  { intros [= <-]. apply unchanged_refl. }
  cbv zeta. intros H.
  apply bind_ok_inv in H as (walls & _ & H).
  apply bind_ok_inv in H as (p1 & _ & H).
  apply bind_ok_inv in H as (p2 & _ & H).
  eapply unchanged_trans; [by apply unchanged_insert |].
  by eapply ballToBall_unchanged.
Qed.

Lemma physicsSteps_unchanged now g ps ps' :
  physicsSteps now g ps = Ok ps' -> unchanged (activeTouches g) ps ps'.
Proof.
  apply foldM_unchanged. intros ps1 _ ps2.
  apply foldM_unchanged. intros ps3 index ps4. apply stepPuck_unchanged.
Qed.

Lemma applyFriction_unchanged touches ps :
  unchanged touches ps (applyFriction touches ps).
Proof.
  split; [apply length_imap |].
  intros k Hk. unfold applyFriction. rewrite list_lookup_imap.
  destruct (ps !! k) as [p|]; [| done]. cbn. by rewrite Hk.
Qed.

(** What the win condition leaves alone. *)
Lemma pendingWin_fields now s g :
  pucks (pendingWin now s g) = pucks g /\
  activeTouches (pendingWin now s g) = activeTouches g /\
  width (pendingWin now s g) = width g /\
  height (pendingWin now s g) = height g.
Proof. unfold pendingWin. destruct (falsy _); [done |]. by case_decide. Qed.

Lemma winCondition_fields now t b g :
  pucks (winCondition now t b g) = pucks g /\
  activeTouches (winCondition now t b g) = activeTouches g /\
  width (winCondition now t b g) = width g /\
  height (winCondition now t b g) = height g.
Proof.
  unfold winCondition. repeat case_decide; try apply pendingWin_fields; done.
Qed.

(** A frame never touches the session map nor a dragged puck. *)
Lemma update_unchanged now g g' :
  update now g = Ok g' ->
  activeTouches g' = activeTouches g /\
  unchanged (activeTouches g) (pucks g) (pucks g').
Proof.
  unfold update. case_decide as Hst.
  { intros [= <-]. split; [done | apply unchanged_refl]. }
  intros H. apply bind_ok_inv in H as (ps & Hps & H). injection H as <-.
  destruct (winCondition_fields now
    (countSides (height g) (applyFriction (activeTouches g) ps)).1
    (countSides (height g) (applyFriction (activeTouches g) ps)).2
    (game_set_pucks g (applyFriction (activeTouches g) ps)))
    as (Hp & Ht & _).
  rewrite Hp, Ht. split; [done |]. cbn.
  eapply unchanged_trans; [by eapply physicsSteps_unchanged |].
  apply applyFriction_unchanged.
Qed.

(** ** The hit test *)

Lemma findIndexFrom_Some {A : Type} (f : nat -> A -> bool) (l : list A)
    (k i : nat) :
  findIndexFrom f l k = Some i ->
  exists j a, i = (k + j)%nat /\ l !! j = Some a /\ f i a = true /\
    forall j' b, (j' < j)%nat -> l !! j' = Some b -> f (k + j')%nat b = false.
Proof.
  revert k. induction l as [|a l IH]; intros k H; cbn in H; [discriminate |].
  destruct (f k a) eqn:Hf.
  - injection H as <-. exists 0%nat, a.
    split; [lia |]. split; [done |]. split; [done |]. intros; lia.
  - apply IH in H as (j & b & -> & Hj & Hfi & Hbefore).
    exists (S j), b. split; [lia |]. split; [done |].
    split; [by replace (k + S j)%nat with (S k + j)%nat by lia |].
    intros [|j'] c Hlt Hc.
    + injection Hc as <-. by rewrite Nat.add_0_r.
    + replace (k + S j')%nat with (S k + j')%nat by lia.
      apply Hbefore; [lia | done].
Qed.

Lemma findIndexFrom_None {A : Type} (f : nat -> A -> bool) (l : list A)
    (k : nat) :
  findIndexFrom f l k = None ->
  forall j b, l !! j = Some b -> f (k + j)%nat b = false.
Proof.
  revert k. induction l as [|a l IH]; intros k H j b Hj; [done |].
  cbn in H. destruct (f k a) eqn:Hf; [discriminate |].
  destruct j as [|j].
  - injection Hj as <-. by rewrite Nat.add_0_r.
  - replace (k + S j)%nat with (S k + j)%nat by lia. by apply IH.
Qed.

(** [findIndex] returns the least index whose element passes the test. *)
Lemma findIndex_Some {A : Type} (f : nat -> A -> bool) (l : list A) (i : nat) :
  findIndex f l = Some i <->
  exists a, l !! i = Some a /\ f i a = true /\
    forall j b, (j < i)%nat -> l !! j = Some b -> f j b = false.
Proof.
  split.
  - intros H. apply findIndexFrom_Some in H as (j & a & -> & Hj & Hf & Hb).
    exists a. cbn in *. eauto.
  - intros (a & Hi & Hf & Hb). unfold findIndex.
    destruct (findIndexFrom f l 0) as [i'|] eqn:H.
    + apply findIndexFrom_Some in H as (j & a' & -> & Hj & Hf' & Hb').
      cbn in *. f_equal.
      destruct (Nat.lt_trichotomy j i) as [Hlt|[->|Hgt]]; [| done |].
      * rewrite (Hb j a' Hlt Hj) in Hf'. discriminate.
      * rewrite (Hb' i a Hgt Hi) in Hf. discriminate.
    + pose proof (findIndexFrom_None f l 0 H i a Hi) as Hno.
      cbn in Hno. congruence.
Qed.

Lemma findIndex_None {A : Type} (f : nat -> A -> bool) (l : list A) :
  findIndex f l = None <-> forall j b, l !! j = Some b -> f j b = false.
Proof.
  split.
  - intros H j b Hj. by apply (findIndexFrom_None f l 0 H j b).
  - intros Hall. destruct (findIndex f l) as [i|] eqn:H; [| done].
    apply findIndex_Some in H as (a & Hi & Hf & _).
    rewrite (Hall i a Hi) in Hf. discriminate.
Qed.

Lemma hitTest_true touches x y index p :
  hitTest touches x y index p = true <->
  isDragged touches index = false /\
  sqrt ((puck_x p - x) * (puck_x p - x) + (puck_y p - y) * (puck_y p - y))
    < PUCK_RADIUS * 3.
Proof.
  unfold hitTest. destruct (isDragged touches index).
  - split; [discriminate | intros [? _]; discriminate].
  - cbv zeta. rewrite bool_decide_eq_true. tauto.
Qed.

(** ** Well-formed session maps *)

Lemma sessionsOk_no_touches (g : game) : activeTouches g = ∅ -> sessionsOk g.
Proof.
  intros He. split; intros *; rewrite He, lookup_empty; discriminate.
Qed.

Lemma engage_puckIndex b bandY p t : puckIndex (engage b bandY p t) = puckIndex t.
Proof. unfold engage. destruct b; [| done]. by destruct (anchor t). Qed.

Lemma insert_is_Some (ps : list puck) (i k : nat) (p : puck) :
  is_Some (ps !! k) -> is_Some (<[i := p]> ps !! k).
Proof.
  rewrite !lookup_lt_is_Some, length_insert. done.
Qed.

Lemma handleStart_sessionsOk rnd x y id g g' :
  sessionsOk g -> handleStart rnd x y id g = Ok g' -> sessionsOk g'.
Proof.
  intros [Hrange Huniq Hrest]. unfold handleStart.
  case_decide as Hst.
  { case_decide; intros [= <-]; [by apply sessionsOk_no_touches | by split]. }
  case_decide as Hact; [intros [= <-]; by split |].
  destruct (findIndex _ _) as [i|] eqn:Hfind; [| intros [= <-]; by split].
  apply findIndex_Some in Hfind as (p & Hi & Hhit & _).
  apply hitTest_true in Hhit as [Hfree _].
  rewrite Hi. cbv zeta. case_decide; [| intros [= <-]; by split].
  intros [= <-]. rewrite isDragged_false in Hfree.
  assert (Hlen : (i < length (pucks g))%nat) by by eapply lookup_lt_Some.
  split; cbn.
  - intros id' t. rewrite lookup_insert. case_decide as Hid.
    + intros [= <-]. cbn. rewrite list_lookup_insert_eq by done. eauto.
    + intros Ht. apply insert_is_Some. by eapply Hrange.
  - intros id1 id2 t1 t2. rewrite !lookup_insert.
    repeat case_decide; subst; try done.
    + intros [= <-] H2 Heq. cbn in Heq. by destruct (Hfree _ _ H2).
    + intros H1 [= <-] Heq. cbn in Heq. by destruct (Hfree _ _ H1).
    + apply Huniq.
  - intros id' t q. rewrite lookup_insert. case_decide as Hid.
    + intros [= <-]. cbn. rewrite list_lookup_insert_eq by done.
      by intros [= <-].
    + intros Ht. rewrite list_lookup_insert_ne by (symmetry; by eapply Hfree).
      by eapply Hrest.
Qed.

(** Replacing a session by one on the same puck, and moving that puck
    without changing its velocity, keeps the session map well formed. *)
Lemma move_sessionsOk g id t t' p p' :
  sessionsOk g ->
  activeTouches g !! id = Some t -> pucks g !! puckIndex t = Some p ->
  puckIndex t' = puckIndex t ->
  puck_vx p' = puck_vx p -> puck_vy p' = puck_vy p ->
  sessionsOk (game_set_pucks
                (game_set_touches g (<[id := t']> (activeTouches g)))
                (<[puckIndex t' := p']> (pucks g))).
Proof.
  intros [Hrange Huniq Hrest] Ht Hp Hidx Hvx Hvy.
  assert (Hlen : (puckIndex t < length (pucks g))%nat) by by eapply lookup_lt_Some.
  assert (Hold : forall id1 t1,
    <[id := t']> (activeTouches g) !! id1 = Some t1 ->
    exists t0, activeTouches g !! id1 = Some t0 /\ puckIndex t0 = puckIndex t1).
  { intros id1 t1. rewrite lookup_insert. case_decide as Hid.
    - subst id1. intros [= <-]. eauto.
    - eauto. }
  rewrite Hidx. split; cbn.
  - intros id1 t1 H1. apply Hold in H1 as (t0 & H0 & <-).
    apply insert_is_Some. by eapply Hrange.
  - intros id1 id2 t1 t2 H1 H2 Heq.
    apply Hold in H1 as (t0 & H0 & Hi1). apply Hold in H2 as (t0' & H0' & Hi2).
    eapply Huniq; [done | done | congruence].
  - intros id1 t1 q H1 Hq. apply Hold in H1 as (t0 & H0 & Hi1).
    destruct (decide (puckIndex t1 = puckIndex t)) as [Heq|Hne].
    + rewrite Heq, list_lookup_insert_eq in Hq by done. injection Hq as <-.
      rewrite Hvx, Hvy. exact (Hrest _ _ _ Ht Hp).
    + rewrite list_lookup_insert_ne in Hq by done.
      rewrite <- Hi1 in Hq. by eapply Hrest.
Qed.

Lemma handleMove_sessionsOk x y id g g' :
  sessionsOk g -> handleMove x y id g = Ok g' -> sessionsOk g'.
Proof.
  intros Hok. unfold handleMove.
  destruct (activeTouches g !! id) as [t|] eqn:Ht; [| by intros [= <-]].
  destruct (pucks g !! puckIndex t) as [p|] eqn:Hp; [| discriminate].
  cbv zeta.
  destruct (decide (side (touch_set_current t x y) = SideTop));
    intros [= <-];
    (eapply move_sessionsOk; [done | done | done | | done | done]);
    by rewrite engage_puckIndex.
Qed.

Lemma handleEnd_sessionsOk id g g' :
  sessionsOk g -> handleEnd id g = Ok g' -> sessionsOk g'.
Proof.
  intros [Hrange Huniq Hrest]. unfold handleEnd.
  destruct (activeTouches g !! id) as [t|] eqn:Ht; [| intros [= <-]; by split].
  assert (Hother : forall id1 t1,
    delete id (activeTouches g) !! id1 = Some t1 ->
    activeTouches g !! id1 = Some t1 /\ puckIndex t1 <> puckIndex t).
  { intros id1 t1. rewrite lookup_delete. case_decide as Hid; [done |].
    intros H1. split; [done |]. intros Heq. apply Hid.
    symmetry. by eapply Huniq. }
  destruct (pucks g !! puckIndex t) as [p|] eqn:Hp.
  - intros H. apply bind_ok_inv in H as (p' & _ & H). injection H as <-.
    split; cbn.
    + intros id1 t1 H1. apply Hother in H1 as [H1 _].
      apply insert_is_Some. by eapply Hrange.
    + intros id1 id2 t1 t2 H1 H2.
      apply Hother in H1 as [H1 _]. apply Hother in H2 as [H2 _].
      by eapply Huniq.
    + intros id1 t1 q H1. apply Hother in H1 as [H1 Hne].
      rewrite list_lookup_insert_ne by done. by eapply Hrest.
  - destruct (anchor t); [discriminate |]. intros [= <-].
    split; cbn.
    + intros id1 t1 H1. apply Hother in H1 as [H1 _]. by eapply Hrange.
    + intros id1 id2 t1 t2 H1 H2.
      apply Hother in H1 as [H1 _]. apply Hother in H2 as [H2 _].
      by eapply Huniq.
    + intros id1 t1 q H1. apply Hother in H1 as [H1 Hne]. by eapply Hrest.
Qed.

Lemma update_sessionsOk now g g' :
  sessionsOk g -> update now g = Ok g' -> sessionsOk g'.
Proof.
  intros [Hrange Huniq Hrest] H.
  apply update_unchanged in H as [Ht [Hlen Hkeep]].
  assert (Hsame : forall id t,
    activeTouches g !! id = Some t ->
    pucks g' !! puckIndex t = pucks g !! puckIndex t).
  { intros id t Hid. apply Hkeep. apply isDragged_true. eauto. }
  split; rewrite Ht.
  - intros id t Hid. rewrite (Hsame id t Hid). by eapply Hrange.
  - apply Huniq.
  - intros id t p Hid. rewrite (Hsame id t Hid). by eapply Hrest.
Qed.

Lemma step_sessionsOk g g' : sessionsOk g -> step g g' -> sessionsOk g'.
Proof.
  intros Hok [e He]. destruct e; cbn in He.
  - by eapply handleStart_sessionsOk.
  - by eapply handleMove_sessionsOk.
  - by eapply handleEnd_sessionsOk.
  - by eapply update_sessionsOk.
  - injection He as <-. destruct Hok. by split.
Qed.

Lemma run_app evs1 evs2 g :
  run (evs1 ++ evs2) g = (g1 ← run evs1 g ; run evs2 g1).
Proof.
  unfold run. revert g. induction evs1 as [|e evs1 IH]; intros g; [done |].
  cbn. destruct (handle e g); [apply IH | done].
Qed.

Lemma run_rtc evs g g' : run evs g = Ok g' -> rtc step g g'.
Proof.
  unfold run. revert g. induction evs as [|e evs IH]; intros g H; cbn in H.
  - injection H as <-. done.
  - apply bind_ok_inv in H as (g1 & H1 & H2).
    eapply rtc_l; [by exists e | by apply IH].
Qed.

Lemma run_reachable evs g g' : reachable g -> run evs g = Ok g' -> reachable g'.
Proof.
  intros (w & h & cw & Hg) Hrun. exists w, h, cw.
  etrans; [done | by eapply run_rtc].
Qed.

Lemma reachable_sessionsOk g : reachable g -> sessionsOk g.
Proof.
  intros (w & h & cw & Hrtc). revert g Hrtc. apply rtc_ind_r.
  - by apply sessionsOk_no_touches.
  - intros g1 g2 _ Hstep Hok. by eapply step_sessionsOk.
Qed.

(** ** Releasing a puck *)

Lemma shoot_spec (a : point) (p : puck) :
  let vx0 := (pt_x a - puck_x p) * DRAG_FORCE in
  let vy0 := (pt_y a - puck_y p) * DRAG_FORCE in
  let speed := sqrt (vx0 * vx0 + vy0 * vy0) in
  exists p',
    shoot a p = Ok p' /\
    puck_x p' = puck_x p /\ puck_y p' = puck_y p /\
    (speed <= MAX_SPEED -> puck_vx p' = vx0 /\ puck_vy p' = vy0) /\
    (speed > MAX_SPEED ->
       sqrt (speed2 p') = MAX_SPEED /\
       exists k, 0 < k /\ puck_vx p' = k * vx0 /\ puck_vy p' = k * vy0).
Proof.
  intros vx0 vy0 speed. unfold shoot. cbv zeta.
  cbn [puck_vx puck_vy puck_set_vel]. fold vx0 vy0 speed.
  destruct (decide (speed > MAX_SPEED)) as [Hfast|Hslow].
  - assert (Hpos : 0 < speed) by (unfold MAX_SPEED in Hfast; lra).
    rewrite jsdiv_ok by lra. rewrite bind_ok.
    eexists. split; [reflexivity |]. cbn. split; [done |]. split; [done |].
    split; [lra |]. intros _. split.
    + unfold speed2. cbn.
      destruct (sqrt_sum_squares vx0 vy0) as [_ Hsq]. fold speed in Hsq.
      replace (vx0 * (MAX_SPEED / speed) * (vx0 * (MAX_SPEED / speed)) +
               vy0 * (MAX_SPEED / speed) * (vy0 * (MAX_SPEED / speed)))
        with ((vx0 * vx0 + vy0 * vy0) * (MAX_SPEED * MAX_SPEED)
              / (speed * speed)) by (field; lra).
      rewrite <- Hsq.
      replace (speed * speed * (MAX_SPEED * MAX_SPEED) / (speed * speed))
        with (MAX_SPEED * MAX_SPEED) by (field; lra).
      apply sqrt_square. unfold MAX_SPEED. lra.
    + exists (MAX_SPEED / speed). split.
      * apply Rdiv_lt_0_compat; [unfold MAX_SPEED |]; lra.
      * split; ring.
  - eexists. split; [reflexivity |]. cbn. split; [done |]. split; [done |].
    split; [done |]. intros Hfast. done.
Qed.

(** *** The launch in double arithmetic *)

Lemma shootFl_exact (a : point) (p : puck) : shootFl (fun x => x) a p = shoot a p.
Proof. reflexivity. Qed.

Lemma handleEndFl_exact (id : touchId) (g : game) :
  handleEndFl (fun x => x) id g = handleEnd id g.
Proof. reflexivity. Qed.

Lemma sqrt_le_of_square (a b : R) : 0 <= b -> a <= b * b -> sqrt a <= b.
Proof.
  intros Hb Hab. destruct (Rle_dec 0 a) as [Ha | Ha].
  - rewrite <- (sqrt_square b) by done. by apply sqrt_le_1_alt.
  - rewrite sqrt_neg_0 by lra. done.
Qed.

Lemma Rabs_le_inv (x y : R) : Rabs x <= y -> - y <= x <= y.
Proof. unfold Rabs. destruct (Rcase_abs x); lra. Qed.

Lemma unit_roundoff_small : 0 < unit_roundoff <= 1 / 16.
Proof.
  unfold unit_roundoff. split.
  - apply Rinv_0_lt_compat, pow_lt. lra.
  - replace (1 / 16) with (/ 2 ^ 4) by (simpl; lra).
    apply Rinv_le_contravar; [apply pow_lt; lra |].
    apply Rle_pow; [lra | lia].
Qed.

Section Rounding.

(** [fl] rounds with a relative error of at most [u]: the standard model
    of floating-point arithmetic, which binary64 meets with
    [u = unit_roundoff] as long as no operation overflows or
    underflows. *)
Variable fl : R -> R.
Variable u : R.
Hypothesis u_small : 0 <= u <= 1 / 16.
Hypothesis fl_error : forall x, Rabs (fl x - x) <= u * Rabs x.

Lemma fl_nonneg (x : R) : 0 <= x -> x * (1 - u) <= fl x <= x * (1 + u).
Proof.
  intros Hx. pose proof (fl_error x) as H. rewrite (Rabs_pos_eq x) in H by done.
  apply Rabs_le_inv in H. split; lra.
Qed.

Lemma fl_factor (x : R) : exists d, Rabs d <= u /\ fl x = x * (1 + d).
Proof.
  destruct (Req_dec x 0) as [-> | Hx].
  - exists 0. pose proof (fl_error 0) as H.
    rewrite Rabs_R0, Rmult_0_r, Rminus_0_r in H.
    assert (fl 0 = 0).
    { pose proof (Rabs_pos (fl 0)). apply Rabs_le_inv in H. lra. }
    rewrite Rabs_R0. split; lra.
  - exists ((fl x - x) / x). split; [| field; done].
    unfold Rdiv. rewrite Rabs_mult, Rabs_inv.
    apply (Rmult_le_reg_r (Rabs x)); [by apply Rabs_pos_lt |].
    rewrite Rmult_assoc, Rinv_l, Rmult_1_r by (by apply Rabs_no_R0).
    apply fl_error.
Qed.

Lemma factor_square (d : R) :
  Rabs d <= u -> (1 - u) * (1 - u) <= (1 + d) * (1 + d) <= (1 + u) * (1 + u).
Proof. intros H%Rabs_le_inv. split; nra. Qed.

(** The capped speed, squared, for the launch velocity [(vx0, vy0)]. *)
Lemma cap_bounds (vx0 vy0 : R) :
  let speed := fl (sqrt (fl (fl (vx0 * vx0) + fl (vy0 * vy0)))) in
  let ratio := fl (MAX_SPEED / speed) in
  speed > MAX_SPEED ->
  0 < ratio /\
  (MAX_SPEED * (1 - 4 * u)) * (MAX_SPEED * (1 - 4 * u))
    <= fl (vx0 * ratio) * fl (vx0 * ratio) + fl (vy0 * ratio) * fl (vy0 * ratio)
    <= (MAX_SPEED * (1 + 5 * u)) * (MAX_SPEED * (1 + 5 * u)).
Proof.
  intros speed ratio Hfast. unfold MAX_SPEED in *.
  set (a := 1 - u). set (b := 1 + u).
  assert (Ha : 15 / 16 <= a <= 1) by (unfold a; lra).
  assert (Hb : 1 <= b <= 17 / 16) by (unfold b; lra).
  set (s2 := vx0 * vx0 + vy0 * vy0).
  assert (Hs2 : 0 <= s2) by (unfold s2; nra).
  (* the sum of the squares *)
  set (S := fl (fl (vx0 * vx0) + fl (vy0 * vy0))) in *.
  assert (HS : s2 * (a * a) <= S <= s2 * (b * b)).
  { destruct (fl_nonneg (vx0 * vx0)) as [H1 H2]; [nra |].
    destruct (fl_nonneg (vy0 * vy0)) as [H3 H4]; [nra |].
    fold a b in H1, H2, H3, H4.
    assert (H0 : 0 <= fl (vx0 * vx0) + fl (vy0 * vy0)) by nra.
    destruct (fl_nonneg _ H0) as [H5 H6]. fold S a b in H5, H6.
    unfold s2. split; nra. }
  assert (HS0 : 0 <= S) by nra.
  (* its root *)
  set (r := sqrt S) in *.
  assert (Hr0 : 0 <= r) by apply sqrt_pos.
  assert (Hr : r * r = S) by (by apply sqrt_sqrt).
  destruct (fl_nonneg r Hr0) as [Hsp1 Hsp2]. fold speed a b in Hsp1, Hsp2.
  assert (Hsp0 : 0 < speed) by lra.
  assert (Hr1 : 0 < r) by nra.
  assert (Hsq : s2 * (a * a * (a * a)) <= speed * speed <= s2 * (b * b * (b * b))).
  { assert (r * a * (r * a) <= speed * speed) by (apply Rmult_le_compat; nra).
    assert (speed * speed <= r * b * (r * b)) by (apply Rmult_le_compat; nra).
    split.
    - apply Rle_trans with (r * a * (r * a)); [| done].
      replace (r * a * (r * a)) with (S * (a * a)) by (rewrite <- Hr; ring).
      replace (s2 * (a * a * (a * a))) with (s2 * (a * a) * (a * a)) by ring.
      apply Rmult_le_compat_r; [nra | lra].
    - apply Rle_trans with (r * b * (r * b)); [done |].
      replace (r * b * (r * b)) with (S * (b * b)) by (rewrite <- Hr; ring).
      replace (s2 * (b * b * (b * b))) with (s2 * (b * b) * (b * b)) by ring.
      apply Rmult_le_compat_r; [nra | lra]. }
  (* the ratio *)
  set (q := 50 / speed) in *.
  assert (Hq0 : 0 < q) by (apply Rdiv_lt_0_compat; lra).
  assert (Hq : q * speed = 50) by (unfold q; field; lra).
  destruct (fl_nonneg q) as [Hra1 Hra2]; [lra |]. fold ratio a b in Hra1, Hra2.
  assert (Hratio : 0 < ratio) by nra.
  split; [done |].
  assert (Hrr : q * q * (a * a) <= ratio * ratio <= q * q * (b * b)).
  { assert (q * a * (q * a) <= ratio * ratio) by (apply Rmult_le_compat; nra).
    assert (ratio * ratio <= q * b * (q * b)) by (apply Rmult_le_compat; nra).
    split; nra. }
  (* the capped velocity *)
  destruct (fl_factor (vx0 * ratio)) as (d1 & Hd1 & ->).
  destruct (fl_factor (vy0 * ratio)) as (d2 & Hd2 & ->).
  apply factor_square in Hd1, Hd2. fold a b in Hd1, Hd2.
  set (e1 := (1 + d1) * (1 + d1)) in *. set (e2 := (1 + d2) * (1 + d2)) in *.
  set (N2 := vx0 * ratio * (1 + d1) * (vx0 * ratio * (1 + d1)) +
             vy0 * ratio * (1 + d2) * (vy0 * ratio * (1 + d2))).
  assert (HN : ratio * ratio * s2 * (a * a) <= N2 <= ratio * ratio * s2 * (b * b)).
  { replace N2 with (ratio * ratio * (vx0 * vx0 * e1 + vy0 * vy0 * e2))
      by (unfold N2, e1, e2; ring).
    assert (Hx : 0 <= vx0 * vx0) by nra. assert (Hy : 0 <= vy0 * vy0) by nra.
    assert (H1 : s2 * (a * a) <= vx0 * vx0 * e1 + vy0 * vy0 * e2)
      by (unfold s2; nra).
    assert (H2 : vx0 * vx0 * e1 + vy0 * vy0 * e2 <= s2 * (b * b))
      by (unfold s2; nra).
    assert (Hr2 : 0 <= ratio * ratio) by nra.
    split; [replace (ratio * ratio * s2 * (a * a))
              with (ratio * ratio * (s2 * (a * a))) by ring
           | replace (ratio * ratio * s2 * (b * b))
              with (ratio * ratio * (s2 * (b * b))) by ring];
      by apply Rmult_le_compat_l. }
  assert (Hqq : q * q * (speed * speed) = 2500) by nra.
  set (a4 := a * a * (a * a)) in *. set (b4 := b * b * (b * b)) in *.
  assert (Haa : 0 < a * a) by (clear -Ha; nra).
  assert (Hbb : 0 < b * b) by (clear -Hb; nra).
  assert (Ha4 : 0 < a4) by (by apply Rmult_lt_0_compat).
  assert (Hb4 : 0 < b4) by (by apply Rmult_lt_0_compat).
  (* q * q * s2 lies between 2500 / b4 and 2500 / a4 *)
  assert (Hlow : 2500 <= q * q * s2 * b4).
  { rewrite <- Hqq. replace (q * q * s2 * b4) with (q * q * (s2 * b4)) by ring.
    apply Rmult_le_compat_l; [nra | lra]. }
  assert (Hhigh : q * q * s2 * a4 <= 2500).
  { rewrite <- Hqq. replace (q * q * s2 * a4) with (q * q * (s2 * a4)) by ring.
    apply Rmult_le_compat_l; [nra | lra]. }
  assert (Hqs : 0 <= q * q * s2) by nra.
  split.
  - (* N2 >= q^2 s2 a^4 >= 2500 a^4 / b^4 >= 2500 (1 - 4u)^2 *)
    apply Rle_trans with (ratio * ratio * s2 * (a * a)); [| lra].
    apply Rle_trans with (q * q * s2 * a4).
    + apply (Rmult_le_reg_r b4); [done |].
      apply Rle_trans with (2500 * a4).
      * assert (Hk : (1 - 4 * u) * (1 - 4 * u) * b4 <= a4).
        { unfold a4, b4, a, b. 
          assert (0 <= (1 - 4 * u) * (1 + u) * (1 + u) <= (1 - u) * (1 - u)) by nra.
          replace ((1 - 4 * u) * (1 - 4 * u) * ((1 + u) * (1 + u) * ((1 + u) * (1 + u))))
            with (((1 - 4 * u) * (1 + u) * (1 + u)) * ((1 - 4 * u) * (1 + u) * (1 + u))) by ring.
          apply Rmult_le_compat; lra. }
        nra.
      * replace (q * q * s2 * a4 * b4) with (q * q * s2 * b4 * a4) by ring.
        apply Rmult_le_compat_r; lra.
    + replace (q * q * s2 * a4) with (q * q * (a * a) * (s2 * (a * a)))
        by (unfold a4; ring).
      replace (ratio * ratio * s2 * (a * a)) with (ratio * ratio * (s2 * (a * a)))
        by ring.
      apply Rmult_le_compat_r; [nra | lra].
  - apply Rle_trans with (ratio * ratio * s2 * (b * b)); [lra |].
    apply Rle_trans with (q * q * s2 * b4).
    + replace (q * q * s2 * b4) with (q * q * (b * b) * (s2 * (b * b)))
        by (unfold b4; ring).
      replace (ratio * ratio * s2 * (b * b)) with (ratio * ratio * (s2 * (b * b)))
        by ring.
      apply Rmult_le_compat_r; [nra | lra].
    + apply (Rmult_le_reg_r a4); [done |].
      apply Rle_trans with (2500 * b4).
      * replace (q * q * s2 * b4 * a4) with (q * q * s2 * a4 * b4) by ring.
        apply Rmult_le_compat_r; lra.
      * assert (Hk : b4 <= (1 + 5 * u) * (1 + 5 * u) * a4).
        { unfold a4, b4, a, b.
          assert (0 <= (1 + u) * (1 + u) <= (1 + 5 * u) * (1 - u) * (1 - u)) by nra.
          replace ((1 + 5 * u) * (1 + 5 * u) * ((1 - u) * (1 - u) * ((1 - u) * (1 - u))))
            with (((1 + 5 * u) * (1 - u) * (1 - u)) * ((1 + 5 * u) * (1 - u) * (1 - u))) by ring.
          apply Rmult_le_compat; lra. }
        nra.
Qed.

End Rounding.

(** C3.  For a session whose anchor is [(ax, ay)] and whose puck is at
    [(px, py)] at release, [handleEnd] sets the velocity of the puck to
    [((ax - px) * DRAG_FORCE, (ay - py) * DRAG_FORCE)], computed in
    doubles; when the length of that vector, as computed, exceeds
    [MAX_SPEED], both components are multiplied by the double
    [MAX_SPEED / speed].  That keeps the direction, and brings the
    length to [MAX_SPEED] up to rounding: with operations that round
    with a relative error of at most [u], the length of the capped
    velocity is between [MAX_SPEED * (1 - 4 * u)] and
    [MAX_SPEED * (1 + 5 * u)], and it is exactly [MAX_SPEED] in exact
    arithmetic ([u = 0], where [handleEndFl] is [handleEnd]).  The
    position is kept and the session is removed. *)
Theorem handleEnd_launch_rounded (fl : R -> R) (u : R) (g : game)
    (id : touchId) (t : touch) (ax ay : R) (p : puck) :
  0 <= u <= 1 / 16 ->
  (forall x, Rabs (fl x - x) <= u * Rabs x) ->
  activeTouches g !! id = Some t ->
  anchor t = Some (mkPoint ax ay) ->
  pucks g !! puckIndex t = Some p ->
  let vx0 := fl (fl (ax - puck_x p) * fl DRAG_FORCE) in
  let vy0 := fl (fl (ay - puck_y p) * fl DRAG_FORCE) in
  let speed := fl (sqrt (fl (fl (vx0 * vx0) + fl (vy0 * vy0)))) in
  exists g' p',
    handleEndFl fl id g = Ok g' /\
    activeTouches g' !! id = None /\
    pucks g' !! puckIndex t = Some p' /\
    puck_x p' = puck_x p /\ puck_y p' = puck_y p /\
    (speed <= MAX_SPEED -> puck_vx p' = vx0 /\ puck_vy p' = vy0) /\
    (speed > MAX_SPEED ->
       MAX_SPEED * (1 - 4 * u)
         <= sqrt (puck_vx p' * puck_vx p' + puck_vy p' * puck_vy p')
         <= MAX_SPEED * (1 + 5 * u) /\
       exists k d1 d2,
         0 < k /\ Rabs d1 <= u /\ Rabs d2 <= u /\
         puck_vx p' = k * (1 + d1) * vx0 /\ puck_vy p' = k * (1 + d2) * vy0).
Proof.
  intros Hu Hfl Ht Ha Hp vx0 vy0 speed.
  unfold handleEndFl. rewrite Ht, Hp, Ha. unfold shootFl. cbv zeta.
  cbn [pt_x pt_y puck_vx puck_vy puck_set_vel]. fold vx0 vy0. fold speed.
  assert (Hidx : (puckIndex t < length (pucks g))%nat) by (by eapply lookup_lt_Some).
  destruct (decide (speed > MAX_SPEED)) as [Hfast | Hslow].
  - assert (Hpos : speed <> 0) by (unfold MAX_SPEED in Hfast; lra).
    rewrite jsdiv_ok by done. rewrite !bind_ok.
    eexists _, _. split; [reflexivity |].
    cbn [activeTouches pucks game_set_pucks game_set_touches].
    split; [apply lookup_delete_eq |].
    split; [by apply list_lookup_insert_eq |].
    cbn [puck_x puck_y puck_vx puck_vy puck_set_vel].
    split; [done |]. split; [done |]. split; [lra |]. intros _.
    destruct (cap_bounds fl u Hu Hfl vx0 vy0 Hfast) as (Hk & Hlow & Hhigh).
    fold speed in Hk, Hlow, Hhigh.
    split; [split |].
    + apply sqrt_ge_of_square; [unfold MAX_SPEED; lra | exact Hlow].
    + apply sqrt_le_of_square; [unfold MAX_SPEED; lra | exact Hhigh].
    + destruct (fl_factor fl u Hu Hfl (vx0 * fl (MAX_SPEED / speed)))
        as (d1 & Hd1 & H1).
      destruct (fl_factor fl u Hu Hfl (vy0 * fl (MAX_SPEED / speed)))
        as (d2 & Hd2 & H2).
      exists (fl (MAX_SPEED / speed)), d1, d2.
      split; [done |]. split; [done |]. split; [done |].
      rewrite H1, H2. split; ring.
  - rewrite bind_ok. eexists _, _. split; [reflexivity |].
    cbn [activeTouches pucks game_set_pucks game_set_touches].
    split; [apply lookup_delete_eq |].
    split; [by apply list_lookup_insert_eq |].
    cbn [puck_x puck_y puck_vx puck_vy puck_set_vel].
    split; [done |]. split; [done |]. split; [done |]. intros Hfast. done.
Qed.

Lemma round_up_error (x : R) :
  Rabs (round_up x - x) <= unit_roundoff * Rabs x.
Proof.
  unfold round_up. replace (x * (1 + unit_roundoff) - x) with (unit_roundoff * x) by ring.
  rewrite Rabs_mult, (Rabs_pos_eq unit_roundoff); [lra |].
  pose proof unit_roundoff_small. lra.
Qed.

Lemma sqrt_gt_of_square (a b : R) : 0 <= a -> a * a < b -> a < sqrt b.
Proof.
  intros Ha Hab. rewrite <- (sqrt_square a) by done.
  apply sqrt_lt_1_alt. split; [nra | done].
Qed.

Lemma handleEnd_launch_rounded_witness :
  exists g' p',
    handleEndFl round_up MouseId skew_game = Ok g' /\
    pucks g' !! 0%nat = Some p' /\
    MAX_SPEED * (1 - 4 * unit_roundoff)
      <= sqrt (puck_vx p' * puck_vx p' + puck_vy p' * puck_vy p')
      <= MAX_SPEED * (1 + 5 * unit_roundoff).
Proof.
  destruct (handleEnd_launch_rounded round_up unit_roundoff skew_game MouseId
              skew_touch 0 120 skew_puck)
    as (g' & p' & Hend & _ & Hp' & _ & _ & _ & Hfast).
  - pose proof unit_roundoff_small. lra.
  - apply round_up_error.
  - apply lookup_singleton_eq.
  - reflexivity.
  - reflexivity.
  - exists g', p'. split; [exact Hend |]. split; [exact Hp' |].
    apply Hfast. cbn [puck_x puck_y skew_puck]. unfold round_up.
    pose proof unit_roundoff_small as Hu.
    set (e := 1 + unit_roundoff). assert (He : 1 <= e) by (unfold e; lra).
    set (c := e * e * e). assert (Hc : 1 <= c * c).
    { assert (1 <= e * e) by nra. assert (1 <= c) by (unfold c; nra). nra. }
    unfold DRAG_FORCE, MAX_SPEED.
    replace ((0 - 138) * e * (0.30 * e) * e) with (- 41.4 * c) by (unfold c; lra).
    replace ((120 - 7) * e * (0.30 * e) * e) with (33.9 * c) by (unfold c; lra).
    set (X := (- 41.4 * c * (- 41.4 * c) * e + 33.9 * c * (33.9 * c) * e) * e).
    assert (HX : 50 * 50 < X).
    { unfold X. assert (2863 <= - 41.4 * c * (- 41.4 * c) + 33.9 * c * (33.9 * c)) by nra.
      assert (1 <= e * e) by nra. nra. }
    pose proof (sqrt_gt_of_square 50 X ltac:(lra) HX) as Hs.
    assert (Hm : sqrt X <= sqrt X * e) by nra. lra.
Defined.

(** C3 as it is stated fails in the arithmetic of the code.  For the
    anchor (0, 120) and the puck at (138, 7) the launch exceeds
    [MAX_SPEED] and is capped, to about
    (-38.685372052961533, 31.677152478149662).  The length of that
    vector is not [MAX_SPEED]: its square is more than 2500 as a
    rational number, and by the test of the code itself ([speed >
    MAX_SPEED], computed as 50.000000000000007) it is still too fast.
    It exceeds [MAX_SPEED] by less than 5 parts in 2 ^ 53. *)
Lemma handleEnd_launch_exact_counterexample :
  Doubles.skew_launch = Doubles.skew_velocity /\
  PrimFloat.ltb Doubles.MAX_SPEED (Doubles.speed Doubles.skew_launch) = true /\
  (50 * 50 < Doubles.exactSpeed2 Doubles.skew_launch)%Q /\
  (Doubles.exactSpeed2 Doubles.skew_launch
     <= (50 * (1 + 5 * Qpower 2 (-53))) * (50 * (1 + 5 * Qpower 2 (-53))))%Q.
Proof.
  split; [reflexivity |]. split; [reflexivity |].
  split; vm_compute; [reflexivity | discriminate].
Qed.

(** C4. In every state the game can reach by pointer events and frames,
    a session that has no anchor is released by [handleEnd] with its puck
    at velocity exactly [(0, 0)]: the press that created the session
    zeroed the velocity, moves change positions only, frames skip dragged
    pucks in the physics and in friction, no other session holds the
    same puck, and a release without anchor writes no velocity. *)
Theorem handleEnd_no_anchor (g : game) (id : touchId) (t : touch) :
  reachable g ->
  activeTouches g !! id = Some t ->
  anchor t = None ->
  exists g' p,
    handleEnd id g = Ok g' /\
    activeTouches g' !! id = None /\
    pucks g' !! puckIndex t = Some p /\
    puck_vx p = 0 /\ puck_vy p = 0.
Proof.
  intros Hreach Ht Ha.
  destruct (reachable_sessionsOk g Hreach) as [Hrange _ Hrest].
  destruct (Hrange id t Ht) as [p Hp].
  unfold handleEnd. rewrite Ht, Hp, Ha, bind_ok.
  eexists _, p. split; [reflexivity |]. cbn.
  split; [apply lookup_delete_eq |].
  split; [apply list_lookup_insert_eq; by eapply lookup_lt_Some |].
  by eapply Hrest.
Qed.

(** ** Pressing on a puck *)

(** [handleStart] while playing, for a pointer without session, in terms
    of the result of the hit test. *)
Lemma handleStart_found rnd x y id g i p :
  gameState g = Playing -> activeTouches g !! id = None ->
  findIndex (hitTest (activeTouches g) x y) (pucks g) = Some i ->
  pucks g !! i = Some p ->
  handleStart rnd x y id g =
    Ok (if decide (bool_decide (y < height g / 2)
                   = bool_decide (puck_y p < height g / 2))
        then claim g x y id i p else g).
Proof.
  intros Hst Hid Hfind Hp. unfold handleStart.
  rewrite decide_False by (rewrite Hst; auto).
  rewrite decide_False by (rewrite Hid; by intros [? ?]).
  rewrite Hfind, Hp. cbv zeta. by case_decide.
Qed.

Lemma handleStart_not_found rnd x y id g :
  gameState g = Playing ->
  findIndex (hitTest (activeTouches g) x y) (pucks g) = None ->
  handleStart rnd x y id g = Ok g.
Proof.
  intros Hst Hfind. unfold handleStart.
  rewrite decide_False by (rewrite Hst; auto).
  case_decide; [done |]. by rewrite Hfind.
Qed.

Lemma handleStart_active rnd x y id g :
  gameState g = Playing -> is_Some (activeTouches g !! id) ->
  handleStart rnd x y id g = Ok g.
Proof.
  intros Hst Hid. unfold handleStart.
  rewrite decide_False by (rewrite Hst; auto).
  by rewrite decide_True.
Qed.

Lemma handleStart_not_playing rnd x y id g :
  gameState g <> Playing -> handleStart rnd x y id g = Ok (startGame rnd g).
Proof.
  intros Hst. unfold handleStart. rewrite decide_True by done.
  rewrite decide_True; [done |]. destruct (gameState g); auto. done.
Qed.

Lemma candidate_hitTest g x y i p :
  candidate g x y i p <->
  pucks g !! i = Some p /\ hitTest (activeTouches g) x y i p = true.
Proof.
  unfold candidate. rewrite hitTest_true, isDragged_false.
  replace (3 * PUCK_RADIUS) with (PUCK_RADIUS * 3) by ring. tauto.
Qed.

Lemma firstCandidate_findIndex g x y i p :
  firstCandidate g x y i p <->
  findIndex (hitTest (activeTouches g) x y) (pucks g) = Some i /\
  pucks g !! i = Some p.
Proof.
  unfold firstCandidate. rewrite findIndex_Some, candidate_hitTest. split.
  - intros [[Hp Hhit] Hfirst]. split; [| done]. exists p.
    split; [done |]. split; [done |]. intros j q Hj Hq.
    destruct (hitTest (activeTouches g) x y j q) eqn:Hjq; [| done].
    destruct (Hfirst j q Hj). by apply candidate_hitTest.
  - intros [(p' & Hp' & Hhit & Hfirst) Hp].
    assert (p' = p) as -> by congruence.
    split; [done |]. intros j q Hj [Hq Hjq]%candidate_hitTest.
    rewrite (Hfirst j q Hj Hq) in Hjq. discriminate.
Qed.

Lemma sameSide_bool g y p :
  sameSide g y p <->
  bool_decide (y < height g / 2) = bool_decide (puck_y p < height g / 2).
Proof.
  unfold sameSide.
  destruct (decide (y < height g / 2)) as [Hy|Hy];
    destruct (decide (puck_y p < height g / 2)) as [Hp|Hp].
  - rewrite !bool_decide_eq_true_2 by done. tauto.
  - rewrite bool_decide_eq_true_2, bool_decide_eq_false_2 by done.
    split; [tauto | discriminate].
  - rewrite bool_decide_eq_false_2, bool_decide_eq_true_2 by done.
    split; [tauto | discriminate].
  - rewrite !bool_decide_eq_false_2 by done. tauto.
Qed.

Lemma grid_start :
  handleStart grid 0 0 MouseId (initial 400 800 400)
  = Ok (grid_game 110 600 150 600 ∅).
Proof.
  rewrite handleStart_not_playing by done. f_equal.
  unfold startGame, grid_game, grid_pucks, spawnPuck, grid.
  cbn [map seq app Nat.add Nat.mul nth width height initial topWins
       bottomWins clientWidth].
  f_equal. unfold grid_pucks. repeat (apply (f_equal2 cons); [f_equal; lra |]).
  done.
Qed.

Lemma fresh_game_step : step (initial 400 800 400) fresh_game.
Proof. exists (EStart grid 0 0 MouseId). apply grid_start. Qed.

Lemma fresh_game_first_candidate :
  firstCandidate fresh_game 110 200 0 (mkPuck 0 110 200 0 0 "#00ff00").
Proof.
  split; [| intros; lia].
  split; [reflexivity |].
  split; [intros id t; unfold fresh_game; cbn [activeTouches grid_game];
            by rewrite lookup_empty |].
  apply sqrt_lt_of_square; unfold PUCK_RADIUS; cbn [puck_x puck_y]; lra.
Qed.

Lemma fresh_game_sameSide :
  sameSide fresh_game 200 (mkPuck 0 110 200 0 0 "#00ff00").
Proof. unfold sameSide. cbn [height fresh_game grid_game puck_y]. lra. Qed.

Lemma pressed_game_step : step fresh_game pressed_game.
Proof.
  exists (EStart grid 110 200 MouseId). cbn [handle].
  destruct (proj1 (firstCandidate_findIndex _ _ _ _ _)
              fresh_game_first_candidate) as [Hfind Hp].
  rewrite (handleStart_found grid 110 200 MouseId fresh_game 0
             (mkPuck 0 110 200 0 0 "#00ff00")); [| done | done | done | done].
  rewrite decide_True by (apply sameSide_bool, fresh_game_sameSide).
  unfold claim, pressed_game, fresh_game, grid_game.
  cbn [activeTouches pucks height game_set_pucks game_set_touches].
  rewrite bool_decide_eq_true_2 by lra. by rewrite insert_empty.
Qed.

Lemma pressed_game_reachable : reachable pressed_game.
Proof.
  exists 400, 800, 400.
  eapply rtc_l; [apply fresh_game_step |].
  eapply rtc_l; [apply pressed_game_step |]. done.
Qed.

Lemma handleEnd_no_anchor_witness :
  exists g' p,
    handleEnd MouseId pressed_game = Ok g' /\
    activeTouches g' !! MouseId = None /\
    pucks g' !! 0%nat = Some p /\
    puck_vx p = 0 /\ puck_vy p = 0.
Proof.
  apply (handleEnd_no_anchor pressed_game MouseId
           (mkTouch 0 110 200 110 200 None SideTop)).
  - apply pressed_game_reachable.
  - apply lookup_singleton_eq.
  - reflexivity.
Defined.

(** C7, as the code has it.  While the match is playing, a press by a
    pointer that has no session looks for the first puck within the pick
    radius of [3 * PUCK_RADIUS] that no active session holds, whatever
    its side.  If that puck is on the side of the press point it is
    claimed: its velocity is zeroed and a session without anchor is
    created for the pointer.  If it is on the other side the press
    changes nothing, and no later puck is considered. *)
Theorem handleStart_first_candidate (rnd : nat -> R) (x y : R) (id : touchId)
    (g : game) (i : nat) (p : puck) :
  gameState g = Playing ->
  activeTouches g !! id = None ->
  firstCandidate g x y i p ->
  (sameSide g y p ->
   exists g',
     handleStart rnd x y id g = Ok g' /\
     activeTouches g' !! id =
       Some (mkTouch i x y x y None
               (if bool_decide (y < height g / 2) then SideTop else SideBottom)) /\
     pucks g' !! i = Some (puck_set_vel p 0 0) /\
     (forall j, j <> i -> pucks g' !! j = pucks g !! j) /\
     (forall id', id' <> id -> activeTouches g' !! id' = activeTouches g !! id')) /\
  (~ sameSide g y p -> handleStart rnd x y id g = Ok g).
Proof.
  intros Hst Hid [Hfind Hp]%firstCandidate_findIndex.
  rewrite (handleStart_found rnd x y id g i p) by done.
  split; intros Hside; rewrite sameSide_bool in Hside.
  - rewrite decide_True by done. eexists. split; [reflexivity |].
    unfold claim. cbn. split; [apply lookup_insert_eq |].
    split; [apply list_lookup_insert_eq; by eapply lookup_lt_Some |].
    split.
    + intros j Hj. by apply list_lookup_insert_ne.
    + intros id' Hid'. by apply lookup_insert_ne.
  - by rewrite decide_False.
Qed.

Lemma gap_game_first_candidate :
  firstCandidate gap_game 200 395 0 (mkPuck 0 200 410 0 0 "#00ff00").
Proof.
  split; [| intros; lia].
  split; [reflexivity |]. split; [intros id t; unfold gap_game; cbn [activeTouches];
            by rewrite lookup_empty |].
  apply sqrt_lt_of_square; cbn; unfold PUCK_RADIUS; lra.
Qed.

Lemma handleStart_first_candidate_witness :
  exists g',
    handleStart grid 110 200 MouseId fresh_game = Ok g' /\
    activeTouches g' !! MouseId =
      Some (mkTouch 0 110 200 110 200 None
              (if bool_decide (200 < height fresh_game / 2)
               then SideTop else SideBottom)) /\
    pucks g' !! 0%nat = Some (puck_set_vel (mkPuck 0 110 200 0 0 "#00ff00") 0 0) /\
    (forall j, j <> 0%nat -> pucks g' !! j = pucks fresh_game !! j) /\
    (forall id', id' <> MouseId ->
       activeTouches g' !! id' = activeTouches fresh_game !! id').
Proof.
  refine (proj1 (handleStart_first_candidate grid 110 200 MouseId fresh_game 0
                   (mkPuck 0 110 200 0 0 "#00ff00") _ _ _) _).
  - reflexivity.
  - apply lookup_empty.
  - apply fresh_game_first_candidate.
  - apply fresh_game_sameSide.
Defined.

(** C7 as it is stated fails there: puck 1 is the first unclaimed puck
    within the pick radius whose side agrees with the press, yet the
    press creates no session and puck 1 keeps its velocity. *)
Lemma handleStart_first_on_side_counterexample :
  firstCandidateOnSide gap_game 200 395 1 (mkPuck 1 200 380 3 4 "#00ff00") /\
  exists g',
    handleStart grid 200 395 (TouchId 1) gap_game = Ok g' /\
    activeTouches g' !! TouchId 1 = None /\
    pucks g' !! 1%nat = Some (mkPuck 1 200 380 3 4 "#00ff00").
Proof.
  split.
  - split.
    + split.
      * split; [reflexivity |].
        split; [intros id t; unfold gap_game; cbn [activeTouches];
            by rewrite lookup_empty |].
        apply sqrt_lt_of_square; cbn; unfold PUCK_RADIUS; lra.
      * unfold sameSide. cbn. lra.
    + intros j q Hj [[Hq _] Hside].
      assert (j = 0%nat) as -> by lia. injection Hq as <-.
      unfold sameSide in Hside. cbn in Hside. lra.
  - exists gap_game. split; [| done].
    rewrite (handleStart_found grid 200 395 (TouchId 1) gap_game 0
               (mkPuck 0 200 410 0 0 "#00ff00")); try done.
    + rewrite decide_False; [done |].
      rewrite bool_decide_eq_true_2 by (cbn; lra).
      rewrite bool_decide_eq_false_2 by (cbn; lra). done.
    + by destruct (proj1 (firstCandidate_findIndex _ _ _ _ _)
                       gap_game_first_candidate).
Qed.

(** ** One session per puck *)

Lemma pressed_game_second_candidate :
  firstCandidate pressed_game 110 200 1 (mkPuck 1 150 200 0 0 "#00ff00").
Proof.
  split.
  - split; [reflexivity |]. split.
    + intros id t. unfold pressed_game, grid_game. cbn [activeTouches].
      intros [_ <-]%lookup_singleton_Some. done.
    + apply sqrt_lt_of_square; unfold PUCK_RADIUS; cbn [puck_x puck_y]; lra.
  - intros j q Hj (_ & Hfree & _). assert (j = 0%nat) as -> by lia.
    apply (Hfree MouseId (mkTouch 0 110 200 110 200 None SideTop)); [| done].
    unfold pressed_game, grid_game. cbn [activeTouches].
    apply lookup_singleton_eq.
Qed.

Lemma grid_press_again :
  handleStart grid 110 200 (TouchId 3) pressed_game = Ok two_pressed_game.
Proof.
  destruct (proj1 (firstCandidate_findIndex _ _ _ _ _)
              pressed_game_second_candidate) as [Hfind Hp].
  rewrite (handleStart_found grid 110 200 (TouchId 3) pressed_game 1
             (mkPuck 1 150 200 0 0 "#00ff00")); [| done | | done | done].
  - rewrite decide_True.
    + unfold claim, two_pressed_game, second_touch, pressed_game, grid_game.
      cbn [activeTouches pucks height game_set_pucks game_set_touches].
      by rewrite bool_decide_eq_true_2 by lra.
    + cbn [height pressed_game grid_game puck_y].
      by rewrite !bool_decide_eq_true_2 by lra.
  - unfold pressed_game, grid_game. cbn [activeTouches].
    by apply lookup_singleton_ne.
Qed.

Lemma two_pressed_game_reachable : reachable two_pressed_game.
Proof.
  eapply (run_reachable [EStart grid 110 200 (TouchId 3)]);
    [apply pressed_game_reachable |].
  unfold run. cbn [foldM handle]. by rewrite grid_press_again.
Qed.

(** C8. In every state reached by any sequence of pointer start, move,
    end and cancel events (and frames), at most one active drag session
    references any given puck index and a pointer identifier maps to at
    most one session: a second start for an already-active identifier
    creates no session, and a press creates a session only on a puck
    that no session holds.  A press on an already-claimed puck is not
    refused: the hit test skips the claimed pucks, so the press creates
    no session when every puck within the pick radius is claimed, and
    may otherwise claim an unclaimed puck within that radius. *)
Theorem sessions_exclusive (g : game) : reachable g -> exclusiveSessions g.
Proof.
  intros Hreach. destruct (reachable_sessionsOk g Hreach) as [_ Huniq _].
  split; [exact Huniq |]. split; [congruence |].
  split; [intros; by apply handleStart_active |]. split.
  - intros rnd x y id g' t Hst Hid Hstart Ht id' t' Ht' Heq.
    unfold handleStart in Hstart.
    rewrite decide_False in Hstart by (rewrite Hst; auto).
    rewrite decide_False in Hstart by (rewrite Hid; by intros [? ?]).
    destruct (findIndex _ _) as [i|] eqn:Hfind;
      [| injection Hstart as <-; congruence].
    apply findIndex_Some in Hfind as (p & Hp & Hhit & _).
    apply hitTest_true in Hhit as [Hfree _].
    rewrite Hp in Hstart. cbv zeta in Hstart.
    destruct (decide _) in Hstart; injection Hstart as <-; [| congruence].
    cbn in Ht. rewrite lookup_insert_eq in Ht. injection Ht as <-.
    rewrite isDragged_false in Hfree. by eapply Hfree.
  - intros rnd x y id Hst Hall. apply handleStart_not_found; [done |].
    apply findIndex_None. intros j q Hq.
    destruct (hitTest (activeTouches g) x y j q) eqn:Hhit; [| done].
    apply hitTest_true in Hhit as [Hfree Hnear].
    destruct (Hall j q Hq Hnear) as (id' & t' & Ht' & Hidx).
    rewrite isDragged_false in Hfree. by destruct (Hfree id' t' Ht').
Qed.

Lemma sessions_exclusive_witness :
  exclusiveSessions two_pressed_game.
Proof.
  apply (sessions_exclusive two_pressed_game). apply two_pressed_game_reachable.
Defined.

(** C8 as it is stated fails there: the mouse holds puck 0, which lies at
    (110, 200); a press of another pointer on that very point creates a
    session all the same, on puck 1. *)
Lemma press_on_claimed_counterexample :
  reachable pressed_game /\
  activeTouches pressed_game !! MouseId
    = Some (mkTouch 0 110 200 110 200 None SideTop) /\
  pucks pressed_game !! 0%nat = Some (mkPuck 0 110 200 0 0 "#00ff00") /\
  activeTouches pressed_game !! TouchId 3 = None /\
  exists g',
    handleStart grid 110 200 (TouchId 3) pressed_game = Ok g' /\
    activeTouches g' !! TouchId 3 = Some (mkTouch 1 110 200 110 200 None SideTop).
Proof.
  split; [apply pressed_game_reachable |].
  unfold pressed_game at 1 2 3, grid_game. cbn [activeTouches pucks].
  split; [apply lookup_singleton_eq |]. split; [reflexivity |].
  split; [by apply lookup_singleton_ne |].
  exists two_pressed_game. split; [apply grid_press_again |].
  unfold two_pressed_game, grid_game. cbn [activeTouches].
  apply lookup_insert_eq.
Qed.

(** ** Frames *)

Lemma update_playing now g :
  gameState g = Playing ->
  update now g =
    (ps ← framePucks now g ;
     Ok (winCondition now (countSides (height g) ps).1
                          (countSides (height g) ps).2 (game_set_pucks g ps))).
Proof.
  intros Hst. unfold update, framePucks.
  rewrite decide_False by (rewrite Hst; auto).
  by destruct (physicsSteps now g (pucks g)).
Qed.

Lemma update_not_playing now g : gameState g <> Playing -> update now g = Ok g.
Proof. intros Hst. unfold update. by rewrite decide_True. Qed.

Lemma game_set_pucks_id g : game_set_pucks g (pucks g) = g.
Proof. by destruct g. Qed.

Lemma countSides_acc h ps a b :
  foldl (fun c p => if decide (puck_y p < h / 2)
                    then (S c.1, c.2) else (c.1, S c.2)) (a, b) ps
  = ((a + (countSides h ps).1)%nat, (b + (countSides h ps).2)%nat).
Proof.
  unfold countSides. revert a b.
  induction ps as [|p ps IH]; intros a b; cbn [foldl].
  - cbn. f_equal; lia.
  - destruct (decide (puck_y p < h / 2)); cbn [fst snd].
    + rewrite IH, (IH 1%nat 0%nat). cbn. f_equal; lia.
    + rewrite IH, (IH 0%nat 1%nat). cbn. f_equal; lia.
Qed.

Lemma countSides_cons h p ps :
  countSides h (p :: ps) =
    if decide (puck_y p < h / 2)
    then (S (countSides h ps).1, (countSides h ps).2)
    else ((countSides h ps).1, S (countSides h ps).2).
Proof.
  unfold countSides at 1. cbn [foldl].
  case_decide; cbn; rewrite countSides_acc; f_equal; lia.
Qed.

(** The two counts are the numbers of pucks above and not above the
    midline. *)
Lemma countSides_spec h ps :
  countSides h ps =
    (length (filter (fun p => puck_y p < h / 2) ps),
     length (filter (fun p => ~ puck_y p < h / 2) ps)).
Proof.
  induction ps as [|p ps IH]; [done |].
  rewrite countSides_cons, IH, !filter_cons. cbn.
  destruct (decide (puck_y p < h / 2)).
  - rewrite decide_False by tauto. done.
  - rewrite decide_True by tauto. done.
Qed.

Lemma countSides_all_bottom h ps :
  Forall (fun p => ~ puck_y p < h / 2) ps -> countSides h ps = (0%nat, length ps).
Proof.
  induction 1 as [|p ps Hp _ IH]; [done |].
  rewrite countSides_cons, IH. by rewrite decide_False.
Qed.

Lemma countSides_all_top h ps :
  Forall (fun p => puck_y p < h / 2) ps -> countSides h ps = (length ps, 0%nat).
Proof.
  induction 1 as [|p ps Hp _ IH]; [done |].
  rewrite countSides_cons, IH. by rewrite decide_True.
Qed.

(** ** Pucks at rest stay at rest *)

Lemma boundaryCollisions_inside w h p :
  PUCK_RADIUS <= puck_x p <= w - PUCK_RADIUS ->
  PUCK_RADIUS <= puck_y p <= h - PUCK_RADIUS ->
  boundaryCollisions w h p = p.
Proof.
  intros Hx Hy. unfold boundaryCollisions. cbv zeta.
  rewrite (decide_False (P := puck_x p - PUCK_RADIUS < 0)) by lra.
  rewrite (decide_False (P := puck_x p + PUCK_RADIUS > w)) by lra.
  rewrite (decide_False (P := puck_y p - PUCK_RADIUS < 0)) by lra.
  rewrite (decide_False (P := puck_y p + PUCK_RADIUS > h)) by lra.
  done.
Qed.

Lemma collidePucks_far p other :
  (PUCK_RADIUS * 2) * (PUCK_RADIUS * 2)
    <= (puck_x other - puck_x p) * (puck_x other - puck_x p)
       + (puck_y other - puck_y p) * (puck_y other - puck_y p) ->
  collidePucks p other = Ok (p, other).
Proof.
  intros Hfar. unfold collidePucks. cbv zeta.
  rewrite decide_False; [done |].
  apply Rle_not_lt, sqrt_ge_of_square; [unfold PUCK_RADIUS; lra | done].
Qed.

Lemma checkCapCollision_far_square p capX capY h :
  0 <= h + PUCK_RADIUS ->
  (h + PUCK_RADIUS) * (h + PUCK_RADIUS)
    <= (puck_x p - capX) * (puck_x p - capX)
       + (puck_y p - capY) * (puck_y p - capY) ->
  checkCapCollision p capX capY h = Ok p.
Proof.
  intros Hr Hfar. apply checkCapCollision_far. by apply sqrt_ge_of_square.
Qed.

Lemma foldM_fixed {A B : Type} (f : A -> B -> result A) (l : list B) (a : A) :
  Forall (fun b => f a b = Ok a) l -> foldM f l a = Ok a.
Proof.
  induction 1 as [|b l Hb _ IH]; [done |]. cbn. by rewrite Hb.
Qed.

Lemma ballToBall_far touches index js ps p :
  ps !! index = Some p ->
  Forall (fun j => exists q, ps !! j = Some q /\
                     (isDragged touches j = false ->
                      collidePucks p q = Ok (p, q))) js ->
  ballToBall touches index js ps = Ok ps.
Proof.
  intros Hp. induction 1 as [|j js (q & Hq & Hfar) _ IH]; [done |].
  cbn. rewrite Hp, Hq. destruct (isDragged touches j); [done |].
  rewrite Hfar by done. rewrite bind_ok. cbn.
  rewrite (list_insert_id ps index p) by done.
  by rewrite (list_insert_id ps j q).
Qed.

Lemma puck_rest_move p :
  puck_vx p = 0 -> puck_vy p = 0 ->
  puck_set_y (puck_set_x p (puck_x p + puck_vx p / steps))
    (puck_y (puck_set_x p (puck_x p + puck_vx p / steps))
     + puck_vy (puck_set_x p (puck_x p + puck_vx p / steps)) / steps) = p.
Proof.
  intros Hvx Hvy. destruct p as [i x y vx vy c]. cbn in *. subst.
  unfold puck_set_y, puck_set_x, puck_set_pos, steps. cbn.
  f_equal; lra.
Qed.

Lemma stepPuck_settled now g ps index p :
  ps !! index = Some p ->
  (isDragged (activeTouches g) index = false -> settled now g ps index p) ->
  stepPuck now g ps index = Ok ps.
Proof.
  intros Hp Hset. unfold stepPuck. rewrite Hp.
  destruct (isDragged (activeTouches g) index) eqn:Hdrag; [done |].
  destruct (Hset eq_refl)
    as ((Hvx & Hvy & Hb & (walls & Hw & Hwalls) & Hobs) & Hfar).
  cbv zeta. rewrite (puck_rest_move p Hvx Hvy), Hb, Hw, bind_ok.
  rewrite (foldM_fixed _ walls p Hwalls), bind_ok.
  rewrite (foldM_fixed _ (getObstacles g) p Hobs), bind_ok.
  rewrite (list_insert_id ps index p) by done.
  apply ballToBall_far with p; [done |].
  apply Forall_forall. intros j Hj%elem_of_seq.
  assert (Hlt : (j < length ps)%nat) by lia.
  apply lookup_lt_is_Some in Hlt as [q Hq].
  exists q. split; [done |]. intros Hjd. apply (Hfar j q); [lia | done | done].
Qed.

Lemma subStep_quiescent now g :
  quiescent now g -> subStep now g (pucks g) = Ok (pucks g).
Proof.
  intros Hq. unfold subStep. apply foldM_fixed.
  apply Forall_forall. intros index Hi%elem_of_seq.
  assert (Hlt : (index < length (pucks g))%nat) by lia.
  apply lookup_lt_is_Some in Hlt as [p Hp].
  apply stepPuck_settled with p; [done |]. by apply Hq.
Qed.

Lemma applyFriction_rest touches ps :
  (forall index p, ps !! index = Some p -> isDragged touches index = false ->
                   puck_vx p = 0 /\ puck_vy p = 0) ->
  applyFriction touches ps = ps.
Proof.
  intros Hrest. apply list_eq. intros index. unfold applyFriction.
  rewrite list_lookup_imap. destruct (ps !! index) as [p|] eqn:Hp; [| done].
  cbn. destruct (isDragged touches index) eqn:Hd; [done |].
  destruct (Hrest index p Hp Hd) as [Hvx Hvy].
  destruct p as [i x y vx vy c]. cbn in *. subst.
  unfold puck_set_vel. cbn. do 2 f_equal; lra.
Qed.

(** A frame leaves a quiescent arena as it is. *)
Lemma framePucks_quiescent now g :
  quiescent now g -> framePucks now g = Ok (pucks g).
Proof.
  intros Hq. unfold framePucks, physicsSteps.
  rewrite (foldM_fixed _ (seq 0 5) (pucks g)).
  - rewrite bind_ok. f_equal. apply applyFriction_rest.
    intros index p Hp Hd. destruct (Hq index p Hp Hd) as ((? & ? & _) & _).
    done.
  - apply Forall_forall. intros _ _. by apply subStep_quiescent.
Qed.

Lemma update_quiescent now g :
  gameState g = Playing -> quiescent now g ->
  update now g =
    Ok (winCondition now (countSides (height g) (pucks g)).1
                         (countSides (height g) (pucks g)).2 g).
Proof.
  intros Hst Hq. rewrite update_playing by done.
  rewrite framePucks_quiescent by done. rewrite bind_ok.
  by rewrite game_set_pucks_id.
Qed.

(** A puck whose centre is further from the midline than the wall and
    the puck are thick touches neither the wall nor its caps. *)
Lemma wallCollision_away w wallY hw p s :
  0 <= hw + PUCK_RADIUS ->
  (hw + PUCK_RADIUS) * (hw + PUCK_RADIUS)
    < (puck_y p - wallY) * (puck_y p - wallY) ->
  wallCollision w wallY hw p s = Ok p.
Proof.
  intros Hr Haway. unfold wallCollision, wallRectCollision. cbv zeta.
  rewrite (decide_False (P := _ /\ _)).
  2:{ intros [H1 H2].
      assert (0 <= (hw + PUCK_RADIUS - (puck_y p - wallY)) *
                   (hw + PUCK_RADIUS + (puck_y p - wallY)))
        by (apply Rmult_le_pos; lra).
      nra. }
  assert (Hcap : forall capX, checkCapCollision p capX wallY hw = Ok p).
  { intros capX. apply checkCapCollision_far_square; [done |].
    pose proof (Rle_0_sqr (puck_x p - capX)) as Hsq. unfold Rsqr in Hsq.
    set (a := (puck_x p - capX) * (puck_x p - capX)) in *.
    set (b := (puck_y p - wallY) * (puck_y p - wallY)) in *.
    set (c := (hw + PUCK_RADIUS) * (hw + PUCK_RADIUS)) in *.
    lra. }
  destruct (decide (seg_start s > 0)); rewrite ?Hcap, ?bind_ok;
    destruct (decide (seg_end s < w)); rewrite ?Hcap; done.
Qed.

(** ** An end of match: ten resting pucks, all below the midline *)

Lemma endgame_quiescent now w h ts :
  335 <= w -> 345 <= h ->
  25 * 25 < (250 - h / 2) * (250 - h / 2) ->
  25 * 25 < (330 - h / 2) * (330 - h / 2) ->
  quiescent now (endgame w h ts).
Proof.
  intros Hw Hh H250 H330 index p Hp _.
  assert (Hwall : forall q s, q ∈ endgame_pucks ->
            wallCollision w (h / 2) (WALL_THICKNESS / 2) q s = Ok q).
  { intros q s Hq. apply wallCollision_away;
      [unfold WALL_THICKNESS, PUCK_RADIUS; lra |].
    unfold WALL_THICKNESS, PUCK_RADIUS.
    apply list_elem_of_lookup in Hq as [k Hk]. unfold endgame_pucks in Hk.
    list_cases; cbn [puck_y]; lra. }
  assert (Hin : p ∈ endgame_pucks) by (apply list_elem_of_lookup; eauto).
  split; [split; [| split; [| split; [| split]]] |].
  - cbn in Hp. unfold endgame_pucks in Hp. list_cases; reflexivity.
  - cbn in Hp. unfold endgame_pucks in Hp. list_cases; reflexivity.
  - cbn [width height endgame].
    cbn in Hp. unfold endgame_pucks in Hp.
    list_cases; apply boundaryCollisions_inside;
      unfold PUCK_RADIUS; cbn [puck_x puck_y]; lra.
  - eexists. split; [reflexivity |]. cbn [width height endgame].
    repeat constructor; by apply Hwall.
  - constructor.
  - intros j q Hlt Hq _. cbn in Hp, Hq. unfold endgame_pucks in Hp, Hq.
    list_cases; try lia;
      apply collidePucks_far; unfold PUCK_RADIUS; cbn [puck_x puck_y]; lra.
Qed.

Lemma endgame_all_bottom h :
  h / 2 <= 250 ->
  countSides h endgame_pucks = (0%nat, 10%nat).
Proof.
  intros Hh. rewrite countSides_all_bottom; [done |].
  unfold endgame_pucks. repeat constructor; cbn [puck_y]; lra.
Qed.

Lemma endgame_all_top h :
  330 < h / 2 ->
  countSides h endgame_pucks = (10%nat, 0%nat).
Proof.
  intros Hh. rewrite countSides_all_top; [done |].
  unfold endgame_pucks. repeat constructor; cbn [puck_y]; lra.
Qed.

Lemma endgame_landscape_quiescent now ts : quiescent now (endgame 800 400 ts).
Proof. apply endgame_quiescent; lra. Qed.

Lemma endgame_portrait_quiescent now ts : quiescent now (endgame 400 800 ts).
Proof. apply endgame_quiescent; lra. Qed.

(** ** The win condition *)

Lemma pendingWin_elapsed now s g t :
  winTimestamp g = Some t -> t <> 0%Z -> (now > t)%Z ->
  pendingWin now s g = declareWinner s g.
Proof.
  intros Ht Hnz Hnow. unfold pendingWin. rewrite Ht. cbn.
  rewrite bool_decide_eq_false_2 by done. by rewrite decide_True.
Qed.

(** C1, as the code has it.  In a frame that is played, finds the puck
    count of a side at zero (the top side is looked at first) and finds
    the debounce timer set and passed by the clock, the match state
    becomes [Won], [winner] is the emptied side and the win counter of
    that same side is incremented; the counter of the opposing side is
    unchanged. *)
Theorem update_declares_winner (now : Z) (g : game) (ps : list puck) (t : Z) :
  gameState g = Playing ->
  framePucks now g = Ok ps ->
  winTimestamp g = Some t -> t <> 0%Z -> (now > t)%Z ->
  let counts := countSides (height g) ps in
  counts.1 = 0%nat \/ counts.2 = 0%nat ->
  let emptied := if decide (counts.1 = 0%nat) then SideTop else SideBottom in
  exists g',
    update now g = Ok g' /\
    gameState g' = Won /\
    winner g' = Some emptied /\
    topWins g' = (if emptied is SideTop then S (topWins g) else topWins g) /\
    bottomWins g' =
      (if emptied is SideBottom then S (bottomWins g) else bottomWins g) /\
    pucks g' = ps.
Proof.
  intros Hst Hps Ht Hnz Hnow counts Hzero emptied.
  rewrite update_playing, Hps, bind_ok by done. fold counts.
  eexists. split; [reflexivity |].
  unfold winCondition, emptied.
  destruct (decide (counts.1 = 0%nat)) as [Htop|Htop].
  - rewrite (pendingWin_elapsed now SideTop _ t) by done. done.
  - rewrite decide_True by tauto.
    rewrite (pendingWin_elapsed now SideBottom _ t) by done. done.
Qed.

(** The top side is empty and the timer, set for 1800, has passed. *)
Lemma update_declares_winner_witness :
  exists g',
    update 1801 (endgame 800 400 (Some 1800%Z)) = Ok g' /\
    gameState g' = Won /\
    winner g' = Some SideTop /\
    topWins g' = 1%nat /\
    bottomWins g' = 0%nat /\
    pucks g' = endgame_pucks.
Proof.
  pose proof (update_declares_winner 1801 (endgame 800 400 (Some 1800%Z))
                endgame_pucks 1800) as H.
  cbn [height endgame] in H.
  rewrite endgame_all_bottom in H by lra.
  apply H.
  - reflexivity.
  - apply (framePucks_quiescent 1801 (endgame 800 400 (Some 1800%Z))).
    apply endgame_landscape_quiescent.
  - reflexivity.
  - lia.
  - lia.
  - by left.
Defined.

(** C1 as it is stated fails there: the top side is the emptied one,
    and the counter of the opposing, bottom side is not incremented. *)
Lemma update_opposing_counter_counterexample :
  let g := endgame 800 400 (Some 1800%Z) in
  exists g',
    update 1801 g = Ok g' /\
    (countSides (height g') (pucks g')).1 = 0%nat /\
    gameState g' = Won /\
    bottomWins g' = bottomWins g /\
    topWins g' = S (topWins g).
Proof.
  intros g. exists (declareWinner SideTop g). unfold g. split.
  - rewrite update_quiescent by (done || apply endgame_landscape_quiescent).
    cbn [height pucks endgame]. rewrite endgame_all_bottom by lra.
    cbn [fst snd]. unfold winCondition. rewrite decide_True by done.
    by rewrite (pendingWin_elapsed 1801 SideTop _ 1800) by (done || lia).
  - cbn [height pucks declareWinner endgame gameState bottomWins topWins].
    rewrite endgame_all_bottom by lra. done.
Qed.

(** ** The debounce timer along an execution *)

Lemma winCondition_both now a b g :
  a <> 0%nat -> b <> 0%nat ->
  winCondition now a b g = game_set_winTimestamp g None.
Proof. intros Ha Hb. unfold winCondition. by rewrite !decide_False. Qed.

Lemma pendingWin_timer now s g :
  (winTimestamp (pendingWin now s g) = winTimestamp g \/
   winTimestamp (pendingWin now s g) = Some (now + 800)%Z) /\
  (gameState (pendingWin now s g) = gameState g \/
   gameState (pendingWin now s g) = Won /\
   exists t, winTimestamp g = Some t /\ t <> 0%Z /\ (now > t)%Z).
Proof.
  unfold pendingWin. destruct (winTimestamp g) as [t|] eqn:Ht; cbn.
  - case_bool_decide as Hz; [cbn; auto |].
    case_decide; cbn; rewrite ?Ht; [| auto].
    split; [auto |]. right. split; [done |]. by exists t.
  - cbn. auto.
Qed.

(** A frame that is played keeps the timer, starts it at [now + 800] or
    clears it; it keeps the match playing or declares a winner, which
    needs a timer that is set and passed. *)
Lemma update_timer now g g' :
  gameState g = Playing -> update now g = Ok g' ->
  (winTimestamp g' = winTimestamp g \/
   winTimestamp g' = Some (now + 800)%Z \/ winTimestamp g' = None) /\
  (gameState g' = Playing \/
   gameState g' = Won /\
   exists t, winTimestamp g = Some t /\ t <> 0%Z /\ (now > t)%Z).
Proof.
  intros Hst. rewrite update_playing by done. intros H.
  apply bind_ok_inv in H as (ps & _ & H). injection H as <-.
  unfold winCondition.
  destruct (decide _) as [_|_];
    [| destruct (decide _) as [_|_]; [| cbn; auto]].
  - destruct (pendingWin_timer now SideTop (game_set_pucks g ps))
      as [Ht Hs]. cbn in Ht, Hs. rewrite Hst in Hs. intuition.
  - destruct (pendingWin_timer now SideBottom (game_set_pucks g ps))
      as [Ht Hs]. cbn in Ht, Hs. rewrite Hst in Hs. intuition.
Qed.

Lemma handleStart_timer rnd x y id g g' :
  handleStart rnd x y id g = Ok g' ->
  winTimestamp g' = winTimestamp g \/ winTimestamp g' = None.
Proof.
  unfold handleStart.
  case_decide; [case_decide; intros [= <-]; auto |].
  case_decide; [intros [= <-]; auto |].
  destruct (findIndex _ _); [| intros [= <-]; auto].
  destruct (pucks g !! _); [| discriminate]. cbv zeta.
  case_decide; intros [= <-]; auto.
Qed.

Lemma handleMove_timer x y id g g' :
  handleMove x y id g = Ok g' -> winTimestamp g' = winTimestamp g.
Proof.
  unfold handleMove. destruct (activeTouches g !! id); [| by intros [= <-]].
  destruct (pucks g !! _); [| discriminate]. by intros [= <-].
Qed.

Lemma handleEnd_timer id g g' :
  handleEnd id g = Ok g' -> winTimestamp g' = winTimestamp g.
Proof.
  unfold handleEnd. destruct (activeTouches g !! id) as [t|]; [| by intros [= <-]].
  destruct (pucks g !! _).
  - intros H. apply bind_ok_inv in H as (p' & _ & H). by injection H as <-.
  - destruct (anchor t); [discriminate | by intros [= <-]].
Qed.

Lemma handle_timerFrom T0 e g g' :
  notBefore T0 e -> timerFrom T0 g -> handle e g = Ok g' -> timerFrom T0 g'.
Proof.
  intros Hnb Hg He t Ht Hnz. destruct e; cbn in He, Hnb.
  - apply handleStart_timer in He as [He|He]; rewrite He in Ht;
      [by apply Hg | discriminate].
  - apply handleMove_timer in He. rewrite He in Ht. by apply Hg.
  - apply handleEnd_timer in He. rewrite He in Ht. by apply Hg.
  - destruct (decide (gameState g = Playing)) as [Hst|Hst].
    + apply update_timer in He as [He _]; [| done].
      destruct He as [He|[He|He]]; rewrite He in Ht;
        [by apply Hg | injection Ht as <-; lia | discriminate].
    + rewrite update_not_playing in He by done. injection He as <-.
      by apply Hg.
  - injection He as <-. by apply Hg.
Qed.

Lemma run_timerFrom T0 evs g g' :
  Forall (notBefore T0) evs -> timerFrom T0 g -> run evs g = Ok g' ->
  timerFrom T0 g'.
Proof.
  unfold run. intros Hevs. revert g.
  induction Hevs as [|e evs He _ IH]; intros g Hg H; cbn in H.
  - by injection H as <-.
  - apply bind_ok_inv in H as (g1 & H1 & H2).
    eapply IH; [| done]. by eapply handle_timerFrom.
Qed.

Lemma falsy_timerFrom T0 g : falsy (winTimestamp g) = true -> timerFrom T0 g.
Proof.
  intros Hf t Ht Hnz. rewrite Ht in Hf. cbn in Hf.
  by apply bool_decide_eq_true in Hf.
Qed.

Lemma handleStart_playing rnd x y id g g' :
  gameState g = Playing -> handleStart rnd x y id g = Ok g' ->
  gameState g' = Playing.
Proof.
  intros Hst. unfold handleStart.
  case_decide; [case_decide; by intros [= <-] |].
  case_decide; [by intros [= <-] |].
  destruct (findIndex _ _); [| by intros [= <-]].
  destruct (pucks g !! _); [| discriminate]. cbv zeta.
  case_decide; by intros [= <-].
Qed.

Lemma handleMove_gameState x y id g g' :
  handleMove x y id g = Ok g' -> gameState g' = gameState g.
Proof.
  unfold handleMove. destruct (activeTouches g !! id); [| by intros [= <-]].
  destruct (pucks g !! _); [| discriminate]. by intros [= <-].
Qed.

Lemma handleEnd_gameState id g g' :
  handleEnd id g = Ok g' -> gameState g' = gameState g.
Proof.
  unfold handleEnd. destruct (activeTouches g !! id) as [t|]; [| by intros [= <-]].
  destruct (pucks g !! _).
  - intros H. apply bind_ok_inv in H as (p' & _ & H). by injection H as <-.
  - destruct (anchor t); [discriminate | by intros [= <-]].
Qed.

Lemma withinDelay_notBefore T0 e : withinDelay T0 e -> notBefore T0 e.
Proof. destruct e; cbn; lia || done. Qed.

(** Within the delay the match stays [Playing], whatever happens. *)
Lemma handle_withinDelay T0 e g g' :
  withinDelay T0 e -> gameState g = Playing -> timerFrom T0 g ->
  handle e g = Ok g' -> gameState g' = Playing.
Proof.
  intros Hin Hst Hg He. destruct e; cbn in He, Hin.
  - by eapply handleStart_playing.
  - apply handleMove_gameState in He. congruence.
  - apply handleEnd_gameState in He. congruence.
  - apply update_timer in He as [_ [Hp|[_ (t & Ht & Hnz & Hgt)]]];
      [done | | done].
    specialize (Hg t Ht Hnz). lia.
  - by injection He as <-.
Qed.

Lemma run_withinDelay T0 evs g g' :
  Forall (withinDelay T0) evs -> gameState g = Playing -> timerFrom T0 g ->
  run evs g = Ok g' -> gameState g' = Playing.
Proof.
  unfold run. intros Hevs. revert g.
  induction Hevs as [|e evs He _ IH]; intros g Hst Hg H; cbn in H.
  - by injection H as <-.
  - apply bind_ok_inv in H as (g1 & H1 & H2).
    eapply IH; [| | done].
    + by eapply handle_withinDelay.
    + eapply handle_timerFrom; [by apply withinDelay_notBefore | done | done].
Qed.

(** C2, as the code has it.  Take an execution that starts while the
    match is playing and no timer is pending, at clock reading [T0]: its
    first frame may find a side empty and start the timer.  Whatever
    happens then, the match is still [Playing] after any number of
    events and frames played within the 800 ms that follow, and a frame
    can turn it to [Won] only at a clock reading beyond [T0 + 800].  And
    a frame that ends with pucks on both sides clears the timer and
    leaves the match [Playing], so that a later win needs a full new
    delay.  (Nothing is said of a zero count that moves from one side
    straight to the other.) *)
Theorem win_debounce (T0 : Z) (g0 : game) (evs : list event) (g : game) :
  gameState g0 = Playing ->
  falsy (winTimestamp g0) = true ->
  run evs g0 = Ok g ->
  (Forall (withinDelay T0) evs -> gameState g = Playing) /\
  (Forall (notBefore T0) evs ->
   forall now g', (T0 <= now)%Z -> gameState g = Playing ->
                  update now g = Ok g' -> gameState g' = Won ->
                  (T0 + 800 < now)%Z) /\
  (forall now ps, gameState g = Playing ->
                  framePucks now g = Ok ps ->
                  (countSides (height g) ps).1 <> 0%nat ->
                  (countSides (height g) ps).2 <> 0%nat ->
                  exists g', update now g = Ok g' /\
                             gameState g' = Playing /\
                             winTimestamp g' = None).
Proof.
  intros Hst0 Hf Hrun. split; [| split].
  - intros Hevs.
    eapply run_withinDelay; [done | done | by apply falsy_timerFrom | done].
  - intros Hevs now g' Hnow Hst Hup Hwon.
    assert (Hg : timerFrom T0 g)
      by (eapply run_timerFrom; [done | by apply falsy_timerFrom | done]).
    apply update_timer in Hup as [_ [Hp|[_ (t & Ht & Hnz & Hgt)]]];
      [congruence | | done].
    specialize (Hg t Ht Hnz). lia.
  - intros now ps Hst Hps Htop Hbot.
    rewrite update_playing, Hps, bind_ok by done.
    rewrite winCondition_both by done.
    eexists. split; [reflexivity |]. done.
Qed.

(** The frame at 1000 finds the top side empty and starts the timer. *)
Lemma endgame_first_frame :
  run [EFrame 1000] (endgame 800 400 None) = Ok (endgame 800 400 (Some 1800%Z)).
Proof.
  unfold run. cbn [foldM handle].
  rewrite update_quiescent by (done || apply endgame_landscape_quiescent).
  cbn [height pucks endgame]. rewrite endgame_all_bottom by lra.
  reflexivity.
Qed.

Lemma win_debounce_witness :
  let g := endgame 800 400 (Some 1800%Z) in
  (Forall (withinDelay 1000) [EFrame 1000] -> gameState g = Playing) /\
  (Forall (notBefore 1000) [EFrame 1000] ->
   forall now g', (1000 <= now)%Z -> gameState g = Playing ->
                  update now g = Ok g' -> gameState g' = Won ->
                  (1000 + 800 < now)%Z) /\
  (forall now ps, gameState g = Playing ->
                  framePucks now g = Ok ps ->
                  (countSides (height g) ps).1 <> 0%nat ->
                  (countSides (height g) ps).2 <> 0%nat ->
                  exists g', update now g = Ok g' /\
                             gameState g' = Playing /\
                             winTimestamp g' = None).
Proof.
  apply (win_debounce 1000 (endgame 800 400 None) [EFrame 1000]).
  - reflexivity.
  - reflexivity.
  - apply endgame_first_frame.
Defined.

(** C2 as it is stated fails when the zero count moves from one side to
    the other.  The frame at 1000 finds the top side empty and sets the
    timer for 1800.  The device is then turned, the canvas becomes 400 by
    800 and its midline moves below all ten pucks: the frame at 1016
    finds ten pucks on the top side and none on the bottom side, and
    keeps the timer.  The frame at 1801 declares a winner, 785 ms after
    the bottom side was first found empty. *)
Lemma timer_kept_counterexample :
  let g0 := endgame 800 400 None in
  exists g1 g2 g3,
    run [EFrame 1000] g0 = Ok g1 /\
    countSides (height g1) (pucks g1) = (0%nat, 10%nat) /\
    winTimestamp g1 = Some 1800%Z /\
    run [EResize 400 800; EFrame 1016] g1 = Ok g2 /\
    countSides (height g2) (pucks g2) = (10%nat, 0%nat) /\
    gameState g2 = Playing /\
    winTimestamp g2 = Some 1800%Z /\
    run [EFrame 1801] g2 = Ok g3 /\
    gameState g3 = Won /\
    winner g3 = Some SideBottom /\
    (1801 - 1016 < 800)%Z.
Proof.
  intros g0.
  exists (endgame 800 400 (Some 1800%Z)), (endgame 400 800 (Some 1800%Z)),
         (declareWinner SideBottom (endgame 400 800 (Some 1800%Z))).
  split; [apply endgame_first_frame |].
  split; [cbn [height pucks endgame]; apply endgame_all_bottom; lra |].
  split; [reflexivity |]. split.
  { unfold run. cbn [foldM handle]. rewrite bind_ok.
    change (handleResize 400 800 (endgame 800 400 (Some 1800%Z)))
      with (endgame 400 800 (Some 1800%Z)).
    rewrite update_quiescent by (done || apply endgame_portrait_quiescent).
    cbn [height pucks endgame]. rewrite endgame_all_top by lra.
    reflexivity. }
  split; [cbn [height pucks endgame]; apply endgame_all_top; lra |].
  split; [reflexivity |]. split; [reflexivity |]. split.
  { unfold run. cbn [foldM handle].
    rewrite update_quiescent by (done || apply endgame_portrait_quiescent).
    cbn [height pucks endgame]. rewrite endgame_all_top by lra.
    reflexivity. }
  split; [reflexivity |]. split; [reflexivity | lia].
Qed.

(** ** Wall segments *)

(** At the levels with two moving gaps, [getWallSegments] returns three
    segments whatever the gaps do, and the middle one is degenerate as
    soon as the gaps overlap. *)
Lemma getWallSegments_two_moving now g o1 o2 :
  (currentLevel g + 1 = 4 \/ 6 <= currentLevel g + 1)%nat ->
  getOffset now (width g) 0.35 0.35 0 = Ok o1 ->
  getOffset now (width g) 0.65 0.35 PI = Ok o2 ->
  Rabs (o1 - o2) <= HOLE_WIDTH ->
  exists s1 s2 s3,
    getWallSegments now g = Ok [s1; s2; s3] /\ degenerate s2.
Proof.
  intros Hlevel Ho1 Ho2 Hclose. unfold getWallSegments. cbv zeta.
  rewrite decide_False by lia. rewrite decide_False by lia.
  rewrite decide_False by lia. rewrite decide_True by lia.
  rewrite Ho1, bind_ok, Ho2, bind_ok.
  do 3 eexists. split; [reflexivity |].
  unfold degenerate, sort2, HOLE_WIDTH in *. cbn [seg_start seg_end].
  unfold Rabs in Hclose. destruct (Rcase_abs (o1 - o2));
    case_decide; cbn [fst snd]; lra.
Qed.

Lemma getOffset_epoch (speedFactor rangeFactor : R) :
  getOffset 0 375 speedFactor rangeFactor 0 = Ok 0 /\
  getOffset 0 375 speedFactor rangeFactor PI = Ok 0.
Proof.
  unfold getOffset. rewrite !jsdiv_ok by lra. rewrite !bind_ok.
  split; f_equal.
  - replace (0 * (0.0015 * (375 / 375) * speedFactor) + 0) with 0 by lra.
    rewrite sin_0. ring.
  - replace (0 * (0.0015 * (375 / 375) * speedFactor) + PI) with PI by lra.
    rewrite sin_PI. ring.
Qed.

Lemma overlap_game_segments :
  getWallSegments 0 overlap_game =
    Ok [ mkSegment 0 137.5; mkSegment 237.5 137.5; mkSegment 237.5 375 ].
Proof.
  unfold getWallSegments. cbv zeta. cbn [currentLevel width overlap_game].
  rewrite decide_False by lia. rewrite decide_False by lia.
  rewrite decide_False by lia. rewrite decide_True by lia.
  destruct (getOffset_epoch 0.35 0.35) as [-> _].
  destruct (getOffset_epoch 0.65 0.35) as [_ ->].
  rewrite !bind_ok. unfold sort2. rewrite decide_False by lra.
  cbn [fst snd]. unfold HOLE_WIDTH. repeat f_equal; lra.
Qed.

(** *** The gaps overlap again and again *)

Lemma sin_after_multiple (k : Z) (d : R) :
  0 < d <= 1 -> Rabs (sin (IZR k * PI + d)) <= d.
Proof.
  intros [Hd0 Hd1].
  rewrite sin_plus, (sin_eq_0_1 (IZR k * PI)) by (exists k; reflexivity).
  rewrite Rmult_0_l, Rplus_0_l, Rabs_mult.
  assert (Hs : 0 < sin d < d).
  { split; [apply sin_gt_0; [lra |] | apply sin_lt_x; lra].
    pose proof PI2_1. unfold PI2 in *. lra. }
  rewrite (Rabs_pos_eq (sin d)) by lra.
  assert (Hc : Rabs (cos (IZR k * PI)) <= 1).
  { apply Rabs_le. pose proof (COS_bound (IZR k * PI)). lra. }
  pose proof (Rabs_pos (cos (IZR k * PI))). nra.
Qed.

(** After every date there is a clock reading [T] at which [T * c] is
    just beyond a multiple of [PI]. *)
Lemma instant_near_multiple (c : R) (T0 : Z) :
  0 < c <= 1 ->
  exists (T k : Z),
    (T0 <= T)%Z /\ exists d, 0 < d <= c /\ IZR T * c = IZR k * PI + d.
Proof.
  intros [Hc0 Hc1].
  set (k := Z.max 0 T0).
  set (x := IZR k * PI / c).
  exists (up x), k.
  destruct (archimed x) as [Hup1 Hup2].
  assert (Hk : 0 <= IZR k) by (apply IZR_le; lia).
  assert (HkT : IZR T0 <= IZR k) by (apply IZR_le; lia).
  assert (Hpi : 2 < PI) by (pose proof PI2_1; unfold PI2 in *; lra).
  assert (Hx : IZR k <= x).
  { unfold x. apply Rmult_le_reg_r with c; [lra |].
    replace (IZR k * PI / c * c) with (IZR k * PI) by (field; lra). nra. }
  split.
  - apply le_IZR. lra.
  - exists (c * (IZR (up x) - x)). split.
    + split; nra.
    + unfold x. field. lra.
Qed.

(** On a canvas 375 wide the two gaps of level 4 come within a fifth of
    a pixel of each other after every date (about every 4.2 seconds),
    and the list then holds a degenerate segment. *)
Lemma getWallSegments_overlap_recurs (T0 : Z) :
  exists (T : Z) s1 s2 s3,
    (T0 <= T)%Z /\
    getWallSegments T overlap_game = Ok [s1; s2; s3] /\ degenerate s2.
Proof.
  destruct (instant_near_multiple 0.00075 T0) as (T & k & HT & d & Hd & Heq);
    [lra |].
  exists T.
  set (t1 := IZR T * (0.0015 * (375 / 375) * 0.35)).
  set (t2 := IZR T * (0.0015 * (375 / 375) * 0.65)).
  destruct (getWallSegments_two_moving T overlap_game
              (sin (t1 + 0) * (375 * 0.35)) (sin (t2 + PI) * (375 * 0.35)))
    as (s1 & s2 & s3 & Hsegs & Hdeg).
  - cbn. lia.
  - unfold getOffset. cbn [width overlap_game].
    rewrite jsdiv_ok by lra. reflexivity.
  - unfold getOffset. cbn [width overlap_game].
    rewrite jsdiv_ok by lra. reflexivity.
  - rewrite neg_sin, Rplus_0_r.
    replace (sin t1 * (375 * 0.35) - - sin t2 * (375 * 0.35))
      with ((sin t1 + sin t2) * 131.25) by lra.
    rewrite form3.
    replace ((t1 + t2) / 2) with (IZR k * PI + d)
      by (rewrite <- Heq; unfold t1, t2; lra).
    pose proof (sin_after_multiple k d ltac:(lra)) as Hsin.
    assert (Hcos : Rabs (cos ((t1 - t2) / 2)) <= 1).
    { apply Rabs_le. pose proof (COS_bound ((t1 - t2) / 2)). lra. }
    rewrite !Rabs_mult.
    rewrite (Rabs_pos_eq 2), (Rabs_pos_eq 131.25) by lra.
    pose proof (Rabs_pos (cos ((t1 - t2) / 2))).
    pose proof (Rabs_pos (sin (IZR k * PI + d))).
    unfold HOLE_WIDTH.
    assert (Rabs (cos ((t1 - t2) / 2)) * Rabs (sin (IZR k * PI + d)) <= 1 * 0.00075)
      by (apply Rmult_le_compat; lra).
    nra.
  - exists s1, s2, s3. done.
Qed.

(** A resting puck level with a cap, on its left, and overlapping it, is
    pushed to the left until it touches the cap. *)
Lemma checkCapCollision_left p capX h :
  puck_vx p = 0 -> puck_vy p = 0 ->
  1e-6 < capX - puck_x p < h + PUCK_RADIUS ->
  checkCapCollision p capX (puck_y p) h =
    Ok (puck_set_pos p (capX - (h + PUCK_RADIUS)) (puck_y p)).
Proof.
  intros Hvx Hvy Hd.
  assert (Hdist : sqrt ((puck_x p - capX) * (puck_x p - capX) +
                        (puck_y p - puck_y p) * (puck_y p - puck_y p))
                  = capX - puck_x p).
  { replace ((puck_x p - capX) * (puck_x p - capX) +
             (puck_y p - puck_y p) * (puck_y p - puck_y p))
      with ((capX - puck_x p) * (capX - puck_x p)) by ring.
    apply sqrt_square. lra. }
  rewrite checkCapCollision_near by (rewrite Hdist; lra).
  rewrite Hdist, Hvx, Hvy. unfold safeDist. rewrite decide_True by lra.
  assert (Hpos : capX - puck_x p <> 0) by lra. clear Hd Hdist.
  destruct p as [i x y vx vy c].
  cbn [puck_id puck_x puck_y puck_vx puck_vy puck_color] in *. subst.
  unfold puck_set_pos.
  cbn [puck_id puck_x puck_y puck_vx puck_vy puck_color].
  f_equal. f_equal; field; done.
Qed.

(** C5 on [main.js].  There the list is returned unfiltered: at level 4,
    when the two gaps overlap, it contains a segment whose end is below
    its start, and the collision step still checks the two caps of that
    segment, so that a puck lying in the open gap is pushed away by a
    cap of a wall that is not there.  Such a list is returned again
    after every date. *)
Theorem getWallSegments_degenerate :
  (exists s1 s2 s3,
     getWallSegments 0 overlap_game = Ok [s1; s2; s3] /\
     seg_start s2 = 237.5 /\ seg_end s2 = 137.5 /\
     wallCollision (width overlap_game) (height overlap_game / 2)
                   (WALL_THICKNESS / 2) gap_puck s2
       = Ok (puck_set_pos gap_puck 212.5 333.5)) /\
  (forall T0 : Z,
     exists (T : Z) s1 s2 s3,
       (T0 <= T)%Z /\
       getWallSegments T overlap_game = Ok [s1; s2; s3] /\ degenerate s2).
Proof.
  split; [| exact getWallSegments_overlap_recurs].
  do 3 eexists. split; [apply overlap_game_segments |].
  cbn [seg_start seg_end width height overlap_game].
  split; [reflexivity |]. split; [reflexivity |].
  unfold wallCollision, wallRectCollision. cbv zeta.
  cbn [seg_start seg_end].
  rewrite (decide_True (P := _ /\ _))
    by (unfold PUCK_RADIUS, WALL_THICKNESS; cbn [puck_x puck_y gap_puck]; lra).
  rewrite (decide_False (P := _ /\ _)) by (cbn [puck_x puck_y gap_puck]; lra).
  rewrite decide_True by lra.
  replace (667 / 2) with (puck_y gap_puck) by (cbn [puck_x puck_y gap_puck]; lra).
  rewrite checkCapCollision_left;
    [| done | done
     | unfold PUCK_RADIUS, WALL_THICKNESS; cbn [puck_x puck_y gap_puck];
       split; lra].
  rewrite bind_ok. rewrite decide_True by lra.
  rewrite checkCapCollision_far_square;
    [| unfold PUCK_RADIUS, WALL_THICKNESS; lra
     | unfold PUCK_RADIUS, WALL_THICKNESS, puck_set_pos;
       cbn [puck_x puck_y gap_puck]; lra].
  unfold puck_set_pos, PUCK_RADIUS, WALL_THICKNESS.
  cbn [puck_id puck_x puck_y puck_vx puck_vy puck_color gap_puck].
  f_equal. f_equal; lra.
Qed.

(** ** The variant with level transitions *)

(** No segment of its list is degenerate, at any level and instant. *)
Lemma Transitions_getWallSegments_proper (w : R)
    (st : option Transitions.paramState) (s : segment) :
  s ∈ Transitions.getWallSegments w st -> ~ degenerate s.
Proof.
  unfold Transitions.getWallSegments, degenerate.
  destruct st as [st|]; [| by intros ?%elem_of_nil].
  cbv zeta. intros [? _]%list_elem_of_filter. lra.
Qed.

(** Two gaps on the same spot: the middle segment is dropped. *)
Lemma Transitions_getWallSegments_merged (w : R) :
  100 < w ->
  Transitions.getWallSegments w
    (Some (Transitions.mkParams (Transitions.mkHole 0 0, Transitions.mkHole 0 0) 0))
  = [ mkSegment 0 (w / 2 + 0 + 0 - HOLE_WIDTH / 2);
      mkSegment (w / 2 + 0 + 0 + HOLE_WIDTH / 2) w ].
Proof.
  intros Hw. unfold Transitions.getWallSegments, sort2. cbv zeta.
  cbn [Transitions.holes Transitions.baseOffset Transitions.offsetVal fst snd].
  rewrite decide_False by lra. cbn [fst snd].
  rewrite !filter_cons, filter_nil. cbn [seg_start seg_end].
  unfold HOLE_WIDTH.
  rewrite decide_True by lra. rewrite decide_False by lra.
  rewrite decide_True by lra. done.
Qed.

(** ** Two pucks on the same spot *)

Lemma foldM_err {A B : Type} (f : A -> B -> result A) (l1 l2 : list B) (b : B)
    (a : A) (e : error) :
  Forall (fun b' => f a b' = Ok a) l1 -> f a b = Err e ->
  foldM f (l1 ++ b :: l2) a = Err e.
Proof.
  intros Hl1 Hb. induction Hl1 as [|b' l1 Hb' _ IH]; cbn.
  - by rewrite Hb.
  - by rewrite Hb'.
Qed.

(** A clear puck followed in the array by a puck on the very same
    spot: the sub-step ends in a NaN. *)
Lemma stepPuck_coincident now g ps index p q :
  ps !! index = Some p -> ps !! S index = Some q ->
  isDragged (activeTouches g) index = false ->
  isDragged (activeTouches g) (S index) = false ->
  clear now g p ->
  puck_x q = puck_x p -> puck_y q = puck_y p ->
  stepPuck now g ps index = Err NonFinite.
Proof.
  intros Hp Hq Hdi Hdj (Hvx & Hvy & Hb & (walls & Hw & Hwalls) & Hobs) Hx Hy.
  unfold stepPuck. rewrite Hp, Hdi. cbv zeta.
  rewrite (puck_rest_move p Hvx Hvy), Hb, Hw, bind_ok.
  rewrite (foldM_fixed _ walls p Hwalls), bind_ok.
  rewrite (foldM_fixed _ (getObstacles g) p Hobs), bind_ok.
  rewrite (list_insert_id ps index p) by done.
  assert (Hlen : (S index < length ps)%nat) by by eapply lookup_lt_Some.
  replace (length ps - S index)%nat with (S (length ps - S (S index)))%nat by lia.
  cbn [seq ballToBall]. rewrite Hp, Hq, Hdj.
  by rewrite collidePucks_coincident.
Qed.

(** *** Handlers on simple inputs *)

(** A move of a bottom session that stays between the midline margin
    and the band line: the puck follows the pointer, no anchor. *)
Lemma handleMove_bottom_free x y id g t p :
  activeTouches g !! id = Some t ->
  pucks g !! puckIndex t = Some p ->
  side t = SideBottom ->
  height g / 2 + PUCK_RADIUS + 10 <= y <= height g * 0.85 ->
  handleMove x y id g =
    Ok (game_set_pucks
          (game_set_touches g
             (<[id := touch_set_anchor (touch_set_current t x y) None]>
                (activeTouches g)))
          (<[puckIndex t := puck_set_pos p x y]> (pucks g))).
Proof.
  intros Ht Hp Hside [Hlo Hhi]. unfold handleMove. rewrite Ht, Hp. cbv zeta.
  cbn [side touch_set_current]. rewrite Hside.
  rewrite !(decide_False (P := SideBottom = SideTop)) by done.
  cbn [puck_y puck_set_pos]. rewrite Rmax_left by lra.
  unfold puck_set_y. cbn [puck_y puck_x puck_set_pos puck_id puck_vx puck_vy
    puck_color].
  rewrite bool_decide_eq_false_2 by lra.
  unfold engage. done.
Qed.

Lemma handleEnd_released id g t p :
  activeTouches g !! id = Some t ->
  pucks g !! puckIndex t = Some p ->
  anchor t = None ->
  handleEnd id g = Ok (game_set_touches g (delete id (activeTouches g))).
Proof.
  intros Ht Hp Ha. unfold handleEnd. rewrite Ht, Hp, Ha, bind_ok.
  rewrite list_insert_id by done. by destruct g.
Qed.

Lemma grid_press_5 :
  handleStart grid 110 600 MouseId (grid_game 110 600 150 600 ∅)
  = Ok (grid_game 110 600 150 600
          {[MouseId := mkTouch 5 110 600 110 600 None SideBottom]}).
Proof.
  rewrite (handleStart_found grid 110 600 MouseId _ 5
             (mkPuck 5 110 600 0 0 "#00ff00")); [| done | done | | done].
  - cbn [height grid_game puck_y].
    rewrite !bool_decide_eq_false_2 by lra.
    rewrite decide_True by done. unfold claim.
    cbn [height grid_game]. rewrite bool_decide_eq_false_2 by lra.
    unfold grid_game. cbn [activeTouches pucks game_set_pucks game_set_touches].
    by rewrite insert_empty.
  - apply findIndex_Some. eexists. split; [reflexivity |]. split.
    + apply hitTest_true. split; [apply isDragged_empty |].
      apply sqrt_lt_of_square; unfold PUCK_RADIUS; cbn [puck_x puck_y]; lra.
    + intros j b Hj Hb. cbn in Hb. unfold grid_pucks in Hb.
      unfold hitTest. rewrite isDragged_empty. cbv zeta.
      apply bool_decide_eq_false_2, Rle_not_lt.
      list_cases; try lia;
        apply sqrt_ge_of_square; unfold PUCK_RADIUS; cbn [puck_x puck_y]; lra.
Qed.

Lemma grid_move_5 :
  handleMove 200 500 MouseId
    (grid_game 110 600 150 600
       {[MouseId := mkTouch 5 110 600 110 600 None SideBottom]})
  = Ok (grid_game 200 500 150 600
          {[MouseId := mkTouch 5 110 600 200 500 None SideBottom]}).
Proof.
  rewrite (handleMove_bottom_free 200 500 MouseId _
             (mkTouch 5 110 600 110 600 None SideBottom)
             (mkPuck 5 110 600 0 0 "#00ff00")).
  - unfold grid_game. cbn [activeTouches pucks game_set_pucks game_set_touches].
    by rewrite insert_singleton_eq.
  - apply lookup_singleton_eq.
  - reflexivity.
  - reflexivity.
  - unfold PUCK_RADIUS. cbn [height grid_game]. lra.
Qed.

Lemma grid_release_5 :
  handleEnd MouseId
    (grid_game 200 500 150 600
       {[MouseId := mkTouch 5 110 600 200 500 None SideBottom]})
  = Ok (grid_game 200 500 150 600 ∅).
Proof.
  rewrite (handleEnd_released MouseId _
             (mkTouch 5 110 600 200 500 None SideBottom)
             (mkPuck 5 200 500 0 0 "#00ff00")).
  - unfold grid_game. cbn [activeTouches game_set_touches].
    by rewrite delete_singleton_eq.
  - apply lookup_singleton_eq.
  - reflexivity.
  - reflexivity.
Qed.

Lemma grid_press_6 :
  handleStart grid 150 600 MouseId (grid_game 200 500 150 600 ∅)
  = Ok (grid_game 200 500 150 600
          {[MouseId := mkTouch 6 150 600 150 600 None SideBottom]}).
Proof.
  rewrite (handleStart_found grid 150 600 MouseId _ 6
             (mkPuck 6 150 600 0 0 "#00ff00")); [| done | done | | done].
  - cbn [height grid_game puck_y].
    rewrite !bool_decide_eq_false_2 by lra.
    rewrite decide_True by done. unfold claim.
    cbn [height grid_game]. rewrite bool_decide_eq_false_2 by lra.
    unfold grid_game. cbn [activeTouches pucks game_set_pucks game_set_touches].
    by rewrite insert_empty.
  - apply findIndex_Some. eexists. split; [reflexivity |]. split.
    + apply hitTest_true. split; [apply isDragged_empty |].
      apply sqrt_lt_of_square; unfold PUCK_RADIUS; cbn [puck_x puck_y]; lra.
    + intros j b Hj Hb. cbn in Hb. unfold grid_pucks in Hb.
      unfold hitTest. rewrite isDragged_empty. cbv zeta.
      apply bool_decide_eq_false_2, Rle_not_lt.
      list_cases; try lia;
        apply sqrt_ge_of_square; unfold PUCK_RADIUS; cbn [puck_x puck_y]; lra.
Qed.

Lemma grid_move_6 :
  handleMove 200 500 MouseId
    (grid_game 200 500 150 600
       {[MouseId := mkTouch 6 150 600 150 600 None SideBottom]})
  = Ok (grid_game 200 500 200 500
          {[MouseId := mkTouch 6 150 600 200 500 None SideBottom]}).
Proof.
  rewrite (handleMove_bottom_free 200 500 MouseId _
             (mkTouch 6 150 600 150 600 None SideBottom)
             (mkPuck 6 150 600 0 0 "#00ff00")).
  - unfold grid_game. cbn [activeTouches pucks game_set_pucks game_set_touches].
    by rewrite insert_singleton_eq.
  - apply lookup_singleton_eq.
  - reflexivity.
  - reflexivity.
  - unfold PUCK_RADIUS. cbn [height grid_game]. lra.
Qed.

Lemma grid_release_6 :
  handleEnd MouseId
    (grid_game 200 500 200 500
       {[MouseId := mkTouch 6 150 600 200 500 None SideBottom]})
  = Ok same_spot_game.
Proof.
  rewrite (handleEnd_released MouseId _
             (mkTouch 6 150 600 200 500 None SideBottom)
             (mkPuck 6 200 500 0 0 "#00ff00")).
  - unfold grid_game, same_spot_game, grid_game.
    cbn [activeTouches game_set_touches].
    by rewrite delete_singleton_eq.
  - apply lookup_singleton_eq.
  - reflexivity.
  - reflexivity.
Qed.

Lemma same_spot_run :
  run same_spot_events (initial 400 800 400) = Ok same_spot_game.
Proof.
  unfold run, same_spot_events. cbn [foldM handle].
  rewrite grid_start, bind_ok, grid_press_5, bind_ok, grid_move_5, bind_ok.
  rewrite grid_release_5, bind_ok, grid_press_6, bind_ok, grid_move_6, bind_ok.
  by rewrite grid_release_6.
Qed.

Lemma same_spot_clear now p :
  p ∈ pucks same_spot_game -> clear now same_spot_game p.
Proof.
  intros Hp. apply list_elem_of_lookup in Hp as [k Hk].
  cbn in Hk. unfold grid_pucks in Hk.
  split; [list_cases; reflexivity |].
  split; [list_cases; reflexivity |].
  split; [| split].
  - cbn [width height same_spot_game grid_game].
    list_cases; apply boundaryCollisions_inside;
      unfold PUCK_RADIUS; cbn [puck_x puck_y]; lra.
  - eexists. split; [reflexivity |].
    cbn [width height same_spot_game grid_game].
    assert (Hwall : forall s,
              wallCollision 400 (800 / 2) (WALL_THICKNESS / 2) p s = Ok p).
    { intros s. apply wallCollision_away;
        unfold WALL_THICKNESS, PUCK_RADIUS; [lra |].
      list_cases; cbn [puck_y]; lra. }
    repeat constructor; apply Hwall.
  - constructor.
Qed.

Lemma same_spot_top_settled now index p :
  (index < 5)%nat -> pucks same_spot_game !! index = Some p ->
  settled now same_spot_game (pucks same_spot_game) index p.
Proof.
  intros Hlt Hp. split.
  - apply same_spot_clear. apply list_elem_of_lookup. eauto.
  - intros j q Hj Hq _. cbn in Hp, Hq. unfold grid_pucks in Hp, Hq.
    list_cases; try lia;
      apply collidePucks_far; unfold PUCK_RADIUS; cbn [puck_x puck_y]; lra.
Qed.

Lemma same_spot_subStep now :
  subStep now same_spot_game (pucks same_spot_game) = Err NonFinite.
Proof.
  unfold subStep.
  change (seq 0 (length (pucks same_spot_game)))
    with ([0; 1; 2; 3; 4] ++ 5 :: [6; 7; 8; 9])%nat.
  apply foldM_err.
  - apply Forall_forall. intros index Hin.
    assert (Hlt : (index < 5)%nat).
    { apply list_elem_of_lookup in Hin as [k Hk]. list_cases; lia. }
    assert (Hlen : (index < length (pucks same_spot_game))%nat) by (cbn; lia).
    apply lookup_lt_is_Some in Hlen as [p Hp].
    apply stepPuck_settled with p; [done |]. intros _.
    by apply same_spot_top_settled.
  - apply (stepPuck_coincident now same_spot_game _ 5
             (mkPuck 5 200 500 0 0 "#00ff00") (mkPuck 6 200 500 0 0 "#00ff00"));
      [done | done | apply isDragged_empty | apply isDragged_empty
       | | done | done].
    apply same_spot_clear. apply list_elem_of_lookup. by exists 5%nat.
Qed.

(** C9 fails on the code for two pucks whose centres coincide.  The
    events of [same_spot_events] lead from the initial state to a state
    with the pucks 5 and 6 both at rest at (200, 500); their collision
    divides 0 by 0, and so does every frame played from there: in
    JavaScript the two velocities become NaN, and the kinetic energy
    after the collision is not below the one before (which is 0). *)
Theorem collidePucks_not_finite :
  run same_spot_events (initial 400 800 400) = Ok same_spot_game /\
  pucks same_spot_game !! 5%nat = Some (mkPuck 5 200 500 0 0 "#00ff00") /\
  pucks same_spot_game !! 6%nat = Some (mkPuck 6 200 500 0 0 "#00ff00") /\
  collidePucks (mkPuck 5 200 500 0 0 "#00ff00") (mkPuck 6 200 500 0 0 "#00ff00")
    = Err NonFinite /\
  forall now, update now same_spot_game = Err NonFinite.
Proof.
  split; [apply same_spot_run |]. split; [reflexivity |].
  split; [reflexivity |]. split; [by apply collidePucks_coincident |].
  intros now. unfold update. rewrite decide_False by (cbn; auto).
  unfold physicsSteps. cbn [seq foldM]. by rewrite same_spot_subStep.
Qed.

(** Apart from that case, no collision of a sub-step adds energy: not at
    the edges of the arena, not at a wall segment or at one of its caps,
    not at an obstacle, and not between two pucks whose centres differ. *)
Lemma collisions_energy :
  (forall w h p, speed2 (boundaryCollisions w h p) <= speed2 p) /\
  (forall w wallY hw p s p',
     wallCollision w wallY hw p s = Ok p' -> speed2 p' <= speed2 p) /\
  (forall p capX capY r p',
     checkCapCollision p capX capY r = Ok p' -> speed2 p' <= speed2 p) /\
  (forall p other,
     (puck_x other <> puck_x p \/ puck_y other <> puck_y p) ->
     exists p' other',
       collidePucks p other = Ok (p', other') /\
       speed2 p' + speed2 other' <= speed2 p + speed2 other).
Proof.
  split; [apply boundaryCollisions_energy |].
  split; [intros; by eapply wallCollision_energy |].
  split; [intros; by eapply checkCapCollision_energy |].
  intros p other Hne.
  assert (Hd : sqrt ((puck_x other - puck_x p) * (puck_x other - puck_x p) +
                     (puck_y other - puck_y p) * (puck_y other - puck_y p))
               <> 0).
  { intros H0. apply sqrt_sum_squares_zero in H0 as [Hx Hy].
    destruct Hne; lra. }
  destruct (collidePucks p other) as [[p' other']|e] eqn:Hc.
  - exists p', other'. split; [done |]. by apply collidePucks_energy.
  - exfalso. revert Hc. unfold collidePucks. cbv zeta.
    case_decide; [| discriminate].
    rewrite !jsdiv_ok by done. discriminate.
Qed.

(** * Further properties of the code *)

(** ** The scenarios of the properties below *)

Lemma tall_game_quiescent now ts : quiescent now (tall_game ts).
Proof.
  intros index p Hp _.
  assert (Hwall : forall q s, q ∈ grid_pucks 110 600 150 600 ->
            wallCollision 400 (1700 / 2) (WALL_THICKNESS / 2) q s = Ok q).
  { intros q s Hq. apply wallCollision_away;
      [unfold WALL_THICKNESS, PUCK_RADIUS; lra |].
    unfold WALL_THICKNESS, PUCK_RADIUS.
    apply list_elem_of_lookup in Hq as [k Hk]. unfold grid_pucks in Hk.
    list_cases; cbn [puck_y]; lra. }
  assert (Hin : p ∈ grid_pucks 110 600 150 600)
    by (apply list_elem_of_lookup; eauto).
  split; [split; [| split; [| split; [| split]]] |].
  - cbn in Hp. unfold grid_pucks in Hp. list_cases; reflexivity.
  - cbn in Hp. unfold grid_pucks in Hp. list_cases; reflexivity.
  - cbn [width height tall_game].
    cbn in Hp. unfold grid_pucks in Hp.
    list_cases; apply boundaryCollisions_inside;
      unfold PUCK_RADIUS; cbn [puck_x puck_y]; lra.
  - eexists. split; [reflexivity |]. cbn [width height tall_game].
    repeat constructor; by apply Hwall.
  - constructor.
  - intros j q Hlt Hq _. cbn in Hp, Hq. unfold grid_pucks in Hp, Hq.
    list_cases; try lia;
      apply collidePucks_far; unfold PUCK_RADIUS; cbn [puck_x puck_y]; lra.
Qed.

Lemma tall_game_counts :
  countSides 1700 (grid_pucks 110 600 150 600) = (10%nat, 0%nat).
Proof.
  rewrite countSides_all_top; [done |].
  unfold grid_pucks. repeat constructor; cbn [puck_y]; lra.
Qed.

Lemma tall_game_first_frame :
  update 1000 (tall_game None) = Ok (tall_game (Some 1800%Z)).
Proof.
  rewrite update_quiescent by (done || apply tall_game_quiescent).
  cbn [height pucks tall_game]. by rewrite tall_game_counts.
Qed.

Lemma tall_game_last_frame : update 1801 (tall_game (Some 1800%Z)) = Ok tall_won.
Proof.
  rewrite update_quiescent by (done || apply tall_game_quiescent).
  cbn [height pucks tall_game]. by rewrite tall_game_counts.
Qed.

Lemma tall_game_run :
  run [EStart grid 0 0 MouseId; EResize 400 1700; EFrame 1000]
      (initial 400 800 400) = Ok (tall_game (Some 1800%Z)).
Proof.
  unfold run. cbn [foldM handle]. rewrite grid_start, bind_ok, bind_ok.
  change (handleResize 400 1700 (grid_game 110 600 150 600 ∅))
    with (tall_game None).
  by rewrite tall_game_first_frame.
Qed.

Lemma tall_game_reachable : reachable (tall_game (Some 1800%Z)).
Proof.
  eapply run_reachable; [| apply tall_game_run].
  exists 400, 800, 400. done.
Qed.

Lemma tall_won_reachable : reachable tall_won.
Proof.
  eapply (run_reachable [EFrame 1801]); [apply tall_game_reachable |].
  unfold run. cbn [foldM handle]. by rewrite tall_game_last_frame.
Qed.

Lemma touched_game_sessionsOk : sessionsOk touched_game.
Proof.
  split; unfold touched_game, grid_game; cbn [activeTouches pucks].
  - intros id t [<- <-]%lookup_singleton_Some. by eexists.
  - intros id1 id2 t1 t2 [<- _]%lookup_singleton_Some
      [<- _]%lookup_singleton_Some _. done.
  - intros id t p [<- <-]%lookup_singleton_Some [= <-]. done.
Qed.

Lemma grid_press_0 :
  handleStart grid 110 200 MouseId fresh_game = Ok pressed_game.
Proof.
  destruct (proj1 (firstCandidate_findIndex _ _ _ _ _)
              fresh_game_first_candidate) as [Hfind Hp].
  rewrite (handleStart_found grid 110 200 MouseId fresh_game 0
             (mkPuck 0 110 200 0 0 "#00ff00")); [| done | done | done | done].
  rewrite decide_True by (apply sameSide_bool, fresh_game_sameSide).
  unfold claim, pressed_game, fresh_game, grid_game.
  cbn [activeTouches pucks height game_set_pucks game_set_touches].
  rewrite bool_decide_eq_true_2 by lra. by rewrite insert_empty.
Qed.

Lemma pressed_game_run :
  run [EStart grid 0 0 MouseId; EStart grid 110 200 MouseId]
      (initial 400 800 400) = Ok pressed_game.
Proof.
  unfold run. cbn [foldM handle]. rewrite grid_start, bind_ok.
  change (grid_game 110 600 150 600 ∅) with fresh_game.
  by rewrite grid_press_0, bind_ok.
Qed.

Lemma grid_unit (k : nat) : 0 <= grid k < 1.
Proof.
  unfold grid. do 20 (destruct k as [|k]; [cbn [nth]; lra |]). cbn [nth].
  destruct k; lra.
Qed.

(** ** What the game keeps of the puck array *)

Lemma foldM_preserves {A B : Type} (R : A -> A -> Prop)
    (f : A -> B -> result A) (l : list B) :
  (forall a, R a a) ->
  (forall a b c, R a b -> R b c -> R a c) ->
  (forall a b a', f a b = Ok a' -> R a a') ->
  forall a a', foldM f l a = Ok a' -> R a a'.
Proof.
  intros Hrefl Htrans Hf. induction l as [|b l IH]; intros a a' H; cbn in H.
  - injection H as <-. apply Hrefl.
  - apply bind_ok_inv in H as (a1 & H1 & H2).
    eapply Htrans; [by eapply Hf | by apply IH].
Qed.

Lemma identity_insert (ps : list puck) (i : nat) (p p' : puck) :
  ps !! i = Some p -> identity p' = identity p ->
  identity <$> <[i := p']> ps = identity <$> ps.
Proof.
  intros Hi Hid. rewrite list_fmap_insert, Hid.
  apply list_insert_id. by rewrite list_lookup_fmap, Hi.
Qed.

Lemma checkCapCollision_identity p capX capY h p' :
  checkCapCollision p capX capY h = Ok p' -> identity p' = identity p.
Proof.
  unfold checkCapCollision. cbv zeta. case_decide; [| by intros [= <-]].
  rewrite !jsdiv_ok by apply safeDist_nonzero. rewrite !bind_ok.
  by intros [= <-].
Qed.

Lemma boundaryCollisions_identity w h p :
  identity (boundaryCollisions w h p) = identity p.
Proof. unfold boundaryCollisions. cbv zeta. by repeat case_decide. Qed.

Lemma wallRectCollision_identity wallY hw p s :
  identity (wallRectCollision wallY hw p s) = identity p.
Proof. unfold wallRectCollision. cbv zeta. by repeat case_decide. Qed.

Lemma wallCollision_identity w wallY hw p s p' :
  wallCollision w wallY hw p s = Ok p' -> identity p' = identity p.
Proof.
  unfold wallCollision. cbv zeta. intros H.
  apply bind_ok_inv in H as (p1 & H1 & H2).
  assert (identity p1 = identity (wallRectCollision wallY hw p s)) as E1.
  { destruct (decide (seg_start s > 0));
      [by eapply checkCapCollision_identity | by injection H1 as <-]. }
  assert (identity p' = identity p1) as E2.
  { destruct (decide (seg_end s < w));
      [by eapply checkCapCollision_identity | by injection H2 as <-]. }
  by rewrite E2, E1, wallRectCollision_identity.
Qed.

Lemma collidePucks_identity p other p' other' :
  collidePucks p other = Ok (p', other') ->
  identity p' = identity p /\ identity other' = identity other.
Proof.
  unfold collidePucks. cbv zeta. case_decide as Hd; [| by intros [= <- <-]].
  intros H. apply bind_ok_inv in H as (nx & _ & H).
  apply bind_ok_inv in H as (ny & _ & H). by injection H as <- <-.
Qed.

Lemma ballToBall_identity touches index js ps ps' :
  ballToBall touches index js ps = Ok ps' ->
  identity <$> ps' = identity <$> ps.
Proof.
  revert ps. induction js as [|j js IH]; intros ps H; cbn in H.
  { by injection H as <-. }
  destruct (ps !! index) as [p|] eqn:Hp; [| discriminate].
  destruct (ps !! j) as [q|] eqn:Hq; [| discriminate].
  destruct (isDragged touches j); [by apply IH |].
  apply bind_ok_inv in H as ([p' q'] & Hc & H).
  apply collidePucks_identity in Hc as [Hp' Hq'].
  apply IH in H. rewrite H. cbn [fst snd].
  assert (H1 : identity <$> <[index := p']> ps = identity <$> ps)
    by by eapply identity_insert.
  destruct (decide (j = index)) as [-> | Hne].
  - rewrite list_insert_insert_eq. eapply identity_insert; [done |]. congruence.
  - etrans; [| exact H1]. eapply identity_insert; [| done].
    by rewrite list_lookup_insert_ne.
Qed.

Lemma stepPuck_identity now g ps index ps' :
  stepPuck now g ps index = Ok ps' -> identity <$> ps' = identity <$> ps.
Proof.
  unfold stepPuck. destruct (ps !! index) as [p|] eqn:Hp; [| discriminate].
  destruct (isDragged (activeTouches g) index); [by intros [= <-] |].
  cbv zeta. intros H.
  apply bind_ok_inv in H as (walls & _ & H).
  apply bind_ok_inv in H as (p1 & H1 & H).
  apply bind_ok_inv in H as (p2 & H2 & H).
  apply ballToBall_identity in H. rewrite H.
  eapply identity_insert; [done |].
  apply (foldM_preserves (fun a b => identity b = identity a)) in H2;
    [| done | congruence | intros; by eapply checkCapCollision_identity].
  apply (foldM_preserves (fun a b => identity b = identity a)) in H1;
    [| done | congruence | intros; by eapply wallCollision_identity].
  rewrite H2, H1. by rewrite boundaryCollisions_identity.
Qed.

Lemma physicsSteps_identity now g ps ps' :
  physicsSteps now g ps = Ok ps' -> identity <$> ps' = identity <$> ps.
Proof.
  apply (foldM_preserves (fun a b => identity <$> b = identity <$> a));
    [done | congruence |].
  intros ps1 _ ps2.
  apply (foldM_preserves (fun a b => identity <$> b = identity <$> a));
    [done | congruence |].
  intros ps3 index ps4. apply stepPuck_identity.
Qed.

Lemma applyFriction_identity touches ps :
  identity <$> applyFriction touches ps = identity <$> ps.
Proof.
  unfold applyFriction. apply list_eq. intros i.
  rewrite !list_lookup_fmap, list_lookup_imap.
  destruct (ps !! i) as [p|]; [| done]. cbn. by destruct (isDragged touches i).
Qed.

Lemma update_identity now g g' :
  update now g = Ok g' -> identity <$> pucks g' = identity <$> pucks g.
Proof.
  unfold update. case_decide as Hst; [by intros [= <-] |].
  intros H. apply bind_ok_inv in H as (ps & Hps & H). injection H as <-.
  destruct (winCondition_fields now
    (countSides (height g) (applyFriction (activeTouches g) ps)).1
    (countSides (height g) (applyFriction (activeTouches g) ps)).2
    (game_set_pucks g (applyFriction (activeTouches g) ps))) as (-> & _).
  cbn. rewrite applyFriction_identity. by eapply physicsSteps_identity.
Qed.

Lemma startGame_identity rnd g : identity <$> pucks (startGame rnd g) = lineUp.
Proof. reflexivity. Qed.

Lemma handleStart_identity rnd x y id g g' :
  gameState g = Playing -> handleStart rnd x y id g = Ok g' ->
  identity <$> pucks g' = identity <$> pucks g.
Proof.
  intros Hst. unfold handleStart. rewrite decide_False by (by rewrite Hst; intros []).
  case_decide; [by intros [= <-] |].
  destruct (findIndex _ _) as [i|]; [| by intros [= <-]].
  destruct (pucks g !! i) as [p|] eqn:Hp; [| discriminate].
  cbv zeta. case_decide; [| by intros [= <-]].
  intros [= <-]. cbn. by eapply identity_insert.
Qed.

Lemma handleMove_identity x y id g g' :
  handleMove x y id g = Ok g' -> identity <$> pucks g' = identity <$> pucks g.
Proof.
  unfold handleMove. destruct (activeTouches g !! id) as [t|]; [| by intros [= <-]].
  destruct (pucks g !! puckIndex t) as [p|] eqn:Hp; [| discriminate].
  cbv zeta. intros [= <-]. cbn.
  assert (Hidx : forall b bandY q t0, puckIndex (engage b bandY q t0) = puckIndex t0)
    by (intros; apply engage_puckIndex).
  case_decide; rewrite Hidx; cbn; (eapply identity_insert; [done |]); done.
Qed.

Lemma shoot_identity a p p' : shoot a p = Ok p' -> identity p' = identity p.
Proof.
  unfold shoot. cbv zeta. case_decide as Hd; [| by intros [= <-]].
  intros H. apply bind_ok_inv in H as (ratio & _ & H). by injection H as <-.
Qed.

Lemma handleEnd_identity id g g' :
  handleEnd id g = Ok g' -> identity <$> pucks g' = identity <$> pucks g.
Proof.
  unfold handleEnd. destruct (activeTouches g !! id) as [t|]; [| by intros [= <-]].
  destruct (pucks g !! puckIndex t) as [p|] eqn:Hp.
  - intros H. apply bind_ok_inv in H as (p' & Hs & H). injection H as <-. cbn.
    eapply identity_insert; [done |].
    destruct (anchor t); [by eapply shoot_identity | by injection Hs as <-].
  - destruct (anchor t); [discriminate | by intros [= <-]].
Qed.

Lemma step_identity g g' :
  step g g' ->
  identity <$> pucks g' = identity <$> pucks g /\
  (gameState g' = gameState g \/ gameState g = Playing /\ gameState g' <> Start)
  \/ gameState g' <> Start /\ identity <$> pucks g' = lineUp.
Proof.
  intros [e He]. destruct e as [rnd x y id | x y id | id | now | w h]; cbn in He.
  - destruct (decide (gameState g = Playing)) as [Hst | Hst].
    + pose proof (handleStart_playing _ _ _ _ _ _ Hst He) as Hst'.
      left. split; [by eapply handleStart_identity | left; congruence].
    + rewrite handleStart_not_playing in He by done. injection He as <-.
      right. split; [done | apply startGame_identity].
  - left. split; [by eapply handleMove_identity |].
    left. by eapply handleMove_gameState.
  - left. split; [by eapply handleEnd_identity |].
    left. by eapply handleEnd_gameState.
  - left. split; [by eapply update_identity |].
    destruct (decide (gameState g = Playing)) as [Hst | Hst].
    + right. split; [done |].
      destruct (update_timer _ _ _ Hst He) as [_ [-> | [-> _]]]; done.
    + rewrite update_not_playing in He by done. injection He as <-. by left.
  - injection He as <-. left. split; [done | by left].
Qed.

Lemma reachable_identity (g : game) :
  reachable g ->
  if decide (gameState g = Start) then pucks g = []
  else identity <$> pucks g = lineUp.
Proof.
  intros (w & h & cw & Hrtc).
  revert g Hrtc. apply rtc_ind_r; [done |].
  intros g1 g2 _ Hstep IH.
  apply step_identity in Hstep as [[Hid Hst] | [Hst Hid]].
  - destruct Hst as [Hst | [Hst1 Hst2]].
    + rewrite Hst. destruct (decide (gameState g1 = Start)).
      * rewrite IH in Hid. by apply fmap_nil_inv in Hid.
      * congruence.
    + rewrite decide_False by done.
      rewrite decide_False in IH by (by rewrite Hst1). congruence.
  - by rewrite decide_False.
Qed.

Lemma reachable_length (g : game) :
  reachable g -> gameState g <> Start -> length (pucks g) = 10%nat.
Proof.
  intros Hr Hst. apply reachable_identity in Hr.
  rewrite decide_False in Hr by done.
  apply (f_equal length) in Hr. by rewrite length_fmap in Hr.
Qed.

(** X1.  From the first press on the array holds the ten pucks of
    [startGame], in their order: no puck is ever added, removed,
    renumbered or recoloured.  Before it the array is empty. *)
Theorem reachable_line_up (g : game) :
  reachable g ->
  if decide (gameState g = Start) then pucks g = []
  else identity <$> pucks g = lineUp /\ length (pucks g) = 10%nat.
Proof.
  intros Hr. pose proof (reachable_identity g Hr) as Hinv.
  destruct (decide (gameState g = Start)); [done |]. split; [done |].
  by apply reachable_length.
Qed.

Lemma reachable_line_up_witness :
  if decide (gameState pressed_game = Start) then pucks pressed_game = []
  else identity <$> pucks pressed_game = lineUp /\
       length (pucks pressed_game) = 10%nat.
Proof. apply (reachable_line_up pressed_game). apply pressed_game_reachable. Defined.

(** ** Score and level *)

Lemma pendingWin_scoreOk now s g :
  gameState g = Playing -> scoreOk g -> scoreOk (pendingWin now s g).
Proof.
  intros Hst Hok. unfold scoreOk in Hok. rewrite Hst in Hok.
  destruct Hok as [Hw Hl].
  unfold pendingWin. destruct (falsy _).
  { unfold scoreOk. cbn. by rewrite Hst. }
  case_decide; [| unfold scoreOk; by rewrite Hst].
  unfold scoreOk. cbn. split; [done |]. destruct s; lia.
Qed.

Lemma update_scoreOk now g g' : scoreOk g -> update now g = Ok g' -> scoreOk g'.
Proof.
  intros Hok. unfold update. case_decide as Hst; [by intros [= <-] |].
  assert (Hpl : gameState g = Playing) by (by destruct (gameState g)).
  intros H. apply bind_ok_inv in H as (ps & _ & H). injection H as <-.
  set (g1 := game_set_pucks g _).
  assert (H1 : scoreOk g1) by done.
  assert (Hpl1 : gameState g1 = Playing) by done.
  unfold winCondition. repeat case_decide; try by apply pendingWin_scoreOk.
  unfold scoreOk in *. cbn. by rewrite Hpl in *.
Qed.

Lemma step_scoreOk g g' : scoreOk g -> step g g' -> scoreOk g'.
Proof.
  intros Hok [e He].
  destruct e as [rnd x y id | x y id | id | now | w h]; cbn in He.
  - revert He. unfold handleStart. case_decide as Hst.
    + rewrite decide_True by (destruct (gameState g); auto; done).
      by intros [= <-].
    + case_decide; [by intros [= <-] |].
      destruct (findIndex _ _) as [i|]; [| by intros [= <-]].
      destruct (pucks g !! i) as [p|]; [| discriminate].
      cbv zeta. case_decide; by intros [= <-].
  - revert He. unfold handleMove.
    destruct (activeTouches g !! id) as [t|]; [| by intros [= <-]].
    destruct (pucks g !! puckIndex t) as [p|]; [| discriminate].
    by intros [= <-].
  - revert He. unfold handleEnd.
    destruct (activeTouches g !! id) as [t|]; [| by intros [= <-]].
    destruct (pucks g !! puckIndex t) as [p|].
    + intros H. apply bind_ok_inv in H as (p' & _ & H). by injection H as <-.
    + destruct (anchor t); [discriminate | by intros [= <-]].
  - by eapply update_scoreOk.
  - by injection He as <-.
Qed.

(** X2.  The level under play is the number of matches won so far, and a
    winner is recorded exactly while the state is won. *)
Theorem reachable_score (g : game) :
  reachable g ->
  match gameState g with
  | Start =>
      winner g = None /\ topWins g = 0%nat /\ bottomWins g = 0%nat /\
      currentLevel g = 0%nat
  | Playing =>
      winner g = None /\ currentLevel g = (topWins g + bottomWins g)%nat
  | Won =>
      is_Some (winner g) /\ S (currentLevel g) = (topWins g + bottomWins g)%nat
  end.
Proof.
  intros (w & h & cw & Hrtc). change (scoreOk g).
  revert g Hrtc. apply rtc_ind_r; [done |].
  intros g1 g2 _ Hstep IH. by eapply step_scoreOk.
Qed.

Lemma reachable_score_witness :
  is_Some (winner tall_won) /\
  S (currentLevel tall_won) = (topWins tall_won + bottomWins tall_won)%nat.
Proof. apply (reachable_score tall_won). apply tall_won_reachable. Defined.

(** ** Failures *)

Lemma jsdiv_error x y e : jsdiv x y = Err e -> e = NonFinite.
Proof. unfold jsdiv. case_decide; [by intros [= <-] | discriminate]. Qed.

Lemma bind_err_inv {A B : Type} (r : result A) (k : A -> result B) (e : error) :
  (r ≫= k) = Err e -> r = Err e \/ exists a, r = Ok a /\ k a = Err e.
Proof.
  destruct r as [a|e']; intros H; [right; eauto | left].
  rewrite bind_err in H. by injection H as ->.
Qed.

Lemma getOffset_error now w sf rf ph e :
  getOffset now w sf rf ph = Err e -> e = NonFinite.
Proof.
  unfold getOffset. intros H.
  apply bind_err_inv in H as [H | (q & _ & H)]; [| discriminate].
  by eapply jsdiv_error.
Qed.

Lemma getWallSegments_error now g e :
  getWallSegments now g = Err e -> e = NonFinite.
Proof.
  unfold getWallSegments. cbv zeta. repeat case_decide; try discriminate.
  - intros Hb. apply bind_err_inv in Hb as [Hb | (q & _ & Hb)]; [| discriminate].
    by eapply getOffset_error.
  - intros Hb. apply bind_err_inv in Hb as [Hb | (q & _ & Hb)];
      [by eapply getOffset_error |].
    apply bind_err_inv in Hb as [Hb | (q' & _ & Hb)]; [| discriminate].
    by eapply getOffset_error.
Qed.

Lemma wallCollision_total w wallY hw p s :
  exists p', wallCollision w wallY hw p s = Ok p'.
Proof.
  unfold wallCollision. cbv zeta.
  destruct (decide (seg_start s > 0)).
  - destruct (checkCapCollision_total (wallRectCollision wallY hw p s)
                (seg_start s) wallY hw) as [p1 ->].
    rewrite bind_ok. destruct (decide (seg_end s < w)); [| by eexists].
    apply checkCapCollision_total.
  - rewrite bind_ok. destruct (decide (seg_end s < w)); [| by eexists].
    apply checkCapCollision_total.
Qed.

Lemma foldM_total {A B : Type} (f : A -> B -> result A) (l : list B) :
  (forall a b, exists a', f a b = Ok a') ->
  forall a, exists a', foldM f l a = Ok a'.
Proof.
  intros Hf. induction l as [|b l IH]; intros a; cbn; [by eexists |].
  destruct (Hf a b) as [a1 ->]. rewrite bind_ok. apply IH.
Qed.

Lemma collidePucks_error p other e :
  collidePucks p other = Err e -> e = NonFinite.
Proof.
  unfold collidePucks. cbv zeta. case_decide as Hd; [| discriminate].
  intros H0. apply bind_err_inv in H0 as [H0 | (nx & _ & H0)];
    [by eapply jsdiv_error |].
  apply bind_err_inv in H0 as [H0 | (ny & _ & H0)]; [| discriminate].
  by eapply jsdiv_error.
Qed.

Lemma ballToBall_error touches index js ps e :
  (index < length ps)%nat -> Forall (fun j => (j < length ps)%nat) js ->
  ballToBall touches index js ps = Err e -> e = NonFinite.
Proof.
  revert ps. induction js as [|j js IH]; intros ps Hi Hjs H; cbn in H;
    [discriminate |].
  apply Forall_cons in Hjs as [Hj Hjs].
  destruct (lookup_lt_is_Some_2 ps index Hi) as [p Hp].
  destruct (lookup_lt_is_Some_2 ps j Hj) as [q Hq].
  rewrite Hp, Hq in H.
  destruct (isDragged touches j); [by eapply IH |].
  destruct (collidePucks p q) as [r|e1] eqn:Hc.
  - rewrite bind_ok in H. eapply IH; [| | exact H];
      rewrite !length_insert; done.
  - rewrite bind_err in H. injection H as <-. by eapply collidePucks_error.
Qed.

Lemma stepPuck_error now g ps index e :
  (index < length ps)%nat ->
  stepPuck now g ps index = Err e -> e = NonFinite.
Proof.
  intros Hi. unfold stepPuck.
  destruct (lookup_lt_is_Some_2 ps index Hi) as [p ->].
  destruct (isDragged (activeTouches g) index); [discriminate |].
  cbv zeta.
  destruct (getWallSegments now g) as [walls|e1] eqn:Hw.
  2:{ rewrite bind_err. intros [= <-]. by eapply getWallSegments_error. }
  rewrite bind_ok.
  match goal with
  | |- context [foldM ?f walls ?p0] =>
      destruct (foldM_total f walls (fun q s => wallCollision_total _ _ _ q s) p0)
        as [p1 ->]
  end.
  rewrite bind_ok.
  match goal with
  | |- context [foldM ?f (getObstacles g) ?p0] =>
      destruct (foldM_total f (getObstacles g)
                  (fun q o => checkCapCollision_total q _ _ _) p0) as [p2 ->]
  end.
  rewrite bind_ok. apply ballToBall_error.
  - by rewrite length_insert.
  - apply Forall_forall. intros j Hj. apply elem_of_seq in Hj.
    rewrite length_insert. lia.
Qed.

Lemma subStep_error now g ps e : subStep now g ps = Err e -> e = NonFinite.
Proof.
  unfold subStep.
  assert (Hgen : forall l ps, Forall (fun j => (j < length ps)%nat) l ->
                   foldM (stepPuck now g) l ps = Err e -> e = NonFinite).
  { clear ps. induction l as [|j l IH]; intros ps Hl H; cbn in H; [discriminate |].
    apply Forall_cons in Hl as [Hj Hl].
    destruct (stepPuck now g ps j) as [ps1|e1] eqn:Hs.
    - rewrite bind_ok in H. apply stepPuck_unchanged in Hs as [Hlen _].
      eapply IH; [| exact H]. by rewrite Hlen.
    - rewrite bind_err in H. injection H as <-. by eapply stepPuck_error. }
  apply Hgen. apply Forall_forall. intros j Hj. apply elem_of_seq in Hj. lia.
Qed.

Lemma foldM_error {A B : Type} (f : A -> B -> result A) (l : list B) (e0 : error) :
  (forall a b e, f a b = Err e -> e = e0) ->
  forall a e, foldM f l a = Err e -> e = e0.
Proof.
  intros Hf. induction l as [|b l IH]; intros a e H; cbn in H; [discriminate |].
  destruct (f a b) as [a1|e1] eqn:Hfa.
  - rewrite bind_ok in H. by eapply IH.
  - rewrite bind_err in H. injection H as <-. by eapply Hf.
Qed.

Lemma update_error now g e : update now g = Err e -> e = NonFinite.
Proof.
  unfold update. case_decide as Hst; [discriminate |].
  destruct (physicsSteps now g (pucks g)) as [ps|e1] eqn:Hp; [by rewrite bind_ok |].
  rewrite bind_err. intros [= <-]. revert Hp. unfold physicsSteps.
  apply foldM_error. intros ps1 _ e2. apply subStep_error.
Qed.

Lemma shoot_total a p : exists p', shoot a p = Ok p'.
Proof. destruct (shoot_spec a p) as (p' & H & _). by exists p'. Qed.

Lemma handleStart_total rnd x y id g : exists g', handleStart rnd x y id g = Ok g'.
Proof.
  unfold handleStart. case_decide; [case_decide; by eexists |].
  case_decide; [by eexists |].
  destruct (findIndex _ _) as [i|] eqn:Hf; [| by eexists].
  apply findIndex_Some in Hf as (p & -> & _).
  cbv zeta. case_decide; by eexists.
Qed.

Lemma handleMove_total x y id g :
  sessionsOk g -> exists g', handleMove x y id g = Ok g'.
Proof.
  intros Hok. unfold handleMove.
  destruct (activeTouches g !! id) as [t|] eqn:Ht; [| by eexists].
  destruct (sess_range g Hok id t Ht) as [p ->]. by eexists.
Qed.

Lemma handleEnd_total id g :
  sessionsOk g -> exists g', handleEnd id g = Ok g'.
Proof.
  intros Hok. unfold handleEnd.
  destruct (activeTouches g !! id) as [t|] eqn:Ht; [| by eexists].
  destruct (sess_range g Hok id t Ht) as [p ->].
  destruct (anchor t) as [a|].
  - destruct (shoot_total a p) as [p' ->]. rewrite bind_ok. by eexists.
  - rewrite bind_ok. by eexists.
Qed.

(** X3.  In a reachable state no handler reads a puck that is not there:
    every pointer event and every resize goes through, and a frame goes
    through unless it produces a number that is not finite. *)
Theorem reachable_no_type_error (g : game) :
  reachable g ->
  (forall e, (forall now, e <> EFrame now) -> exists g', handle e g = Ok g') /\
  (forall now, update now g <> Err TypeError).
Proof.
  intros Hr. apply reachable_sessionsOk in Hr. split.
  - intros e Hne.
    destruct e as [rnd x y id | x y id | id | now | w h]; cbn.
    + apply handleStart_total.
    + by apply handleMove_total.
    + by apply handleEnd_total.
    + by destruct (Hne now).
    + by eexists.
  - intros now H. by apply update_error in H.
Qed.

Lemma reachable_no_type_error_witness :
  (forall e, (forall now, e <> EFrame now) ->
             exists g', handle e pressed_game = Ok g') /\
  (forall now, update now pressed_game <> Err TypeError).
Proof.
  apply (reachable_no_type_error pressed_game). apply pressed_game_reachable.
Defined.

(** ** Kinetic energy *)

Lemma speed2_nonneg p : 0 <= speed2 p.
Proof. unfold speed2. nra. Qed.

Lemma energy_cons p ps : energy (p :: ps) = speed2 p + energy ps.
Proof. reflexivity. Qed.

Lemma energy_insert ps i p p' :
  ps !! i = Some p -> energy (<[i := p']> ps) = energy ps - speed2 p + speed2 p'.
Proof.
  revert i. induction ps as [|q ps IH]; intros [|i] Hi; try done.
  - injection Hi as ->.
    change (<[0%nat := p']> (p :: ps)) with (p' :: ps).
    rewrite !energy_cons. lra.
  - cbn in Hi.
    change (<[S i := p']> (q :: ps)) with (q :: <[i := p']> ps).
    rewrite !energy_cons, (IH i Hi). lra.
Qed.

Lemma ballToBall_energy touches index js ps ps' :
  ballToBall touches index js ps = Ok ps' -> energy ps' <= energy ps.
Proof.
  revert ps. induction js as [|j js IH]; intros ps H; cbn in H.
  { injection H as <-. lra. }
  destruct (ps !! index) as [p|] eqn:Hp; [| discriminate].
  destruct (ps !! j) as [q|] eqn:Hq; [| discriminate].
  destruct (isDragged touches j); [by apply IH |].
  apply bind_ok_inv in H as ([p' q'] & Hc & H). cbn [fst snd] in H.
  apply IH in H. etrans; [exact H |].
  destruct (decide (j = index)) as [-> | Hne].
  { assert (q = p) as -> by congruence.
    by rewrite collidePucks_coincident in Hc. }
  rewrite (energy_insert _ j q q')
    by (by rewrite list_lookup_insert_ne).
  rewrite (energy_insert _ index p p') by done.
  apply collidePucks_energy in Hc. lra.
Qed.

Lemma stepPuck_energy now g ps index ps' :
  stepPuck now g ps index = Ok ps' -> energy ps' <= energy ps.
Proof.
  unfold stepPuck. destruct (ps !! index) as [p|] eqn:Hp; [| discriminate].
  destruct (isDragged (activeTouches g) index); [intros [= <-]; lra |].
  cbv zeta. intros H.
  apply bind_ok_inv in H as (walls & _ & H).
  apply bind_ok_inv in H as (p1 & H1 & H).
  apply bind_ok_inv in H as (p2 & H2 & H).
  apply ballToBall_energy in H. etrans; [exact H |].
  rewrite (energy_insert _ index p p2) by done.
  apply (foldM_preserves (fun a b => speed2 b <= speed2 a)) in H2;
    [| intros; lra | intros; lra | intros; by eapply checkCapCollision_energy].
  apply (foldM_preserves (fun a b => speed2 b <= speed2 a)) in H1;
    [| intros; lra | intros; lra | intros; by eapply wallCollision_energy].
  match type of H1 with
  | _ <= speed2 (boundaryCollisions ?w ?h ?q) =>
      pose proof (boundaryCollisions_energy w h q) as H0;
      assert (speed2 q = speed2 p) as Hq by reflexivity
  end.
  lra.
Qed.

Lemma physicsSteps_energy now g ps ps' :
  physicsSteps now g ps = Ok ps' -> energy ps' <= energy ps.
Proof.
  apply (foldM_preserves (fun a b => energy b <= energy a));
    [intros; lra | intros; lra |].
  intros ps1 _ ps2.
  apply (foldM_preserves (fun a b => energy b <= energy a));
    [intros; lra | intros; lra |].
  intros ps3 index ps4. apply stepPuck_energy.
Qed.

Lemma friction_square : 0 <= FRICTION * FRICTION <= 1.
Proof. unfold FRICTION. lra. Qed.

Lemma energy_imap (f : nat -> puck -> puck) (k : R) (ps : list puck) :
  (forall i p, ps !! i = Some p -> speed2 (f i p) <= k * speed2 p) ->
  energy (imap f ps) <= k * energy ps.
Proof.
  revert f. induction ps as [|p ps IH]; intros f Hf.
  - cbn. unfold energy. cbn. lra.
  - rewrite imap_cons, !energy_cons.
    pose proof (Hf 0%nat p eq_refl).
    pose proof (IH (f ∘ S) (fun i q Hq => Hf (S i) q Hq)). lra.
Qed.

Lemma applyFriction_energy touches ps :
  energy (applyFriction touches ps) <= energy ps.
Proof.
  rewrite <- (Rmult_1_l (energy ps)). apply energy_imap. intros i p _.
  destruct (isDragged touches i); [lra |].
  pose proof friction_square. pose proof (speed2_nonneg p).
  unfold speed2 in *. cbn. nra.
Qed.

Lemma applyFriction_energy_rest touches ps :
  (forall i p, ps !! i = Some p -> isDragged touches i = true -> speed2 p = 0) ->
  energy (applyFriction touches ps) <= FRICTION * FRICTION * energy ps.
Proof.
  intros Hrest. apply energy_imap. intros i p Hp.
  destruct (isDragged touches i) eqn:Hd.
  - rewrite (Hrest i p Hp Hd). lra.
  - unfold speed2. cbn. nra.
Qed.

Lemma update_pucks now g g' ps :
  gameState g = Playing -> physicsSteps now g (pucks g) = Ok ps ->
  update now g = Ok g' -> pucks g' = applyFriction (activeTouches g) ps.
Proof.
  intros Hst Hps. unfold update. rewrite decide_False by (by rewrite Hst; intros []).
  rewrite Hps, bind_ok. intros [= <-].
  by destruct (winCondition_fields now
    (countSides (height g) (applyFriction (activeTouches g) ps)).1
    (countSides (height g) (applyFriction (activeTouches g) ps)).2
    (game_set_pucks g (applyFriction (activeTouches g) ps))) as (-> & _).
Qed.

(** X4.  A frame never adds kinetic energy: movement keeps it, every bounce
    (edge, wall, cap, obstacle, puck against puck) and the friction take
    some away.  When the held pucks are at rest, as they are in every
    reachable state, a frame of a running match leaves at most
    FRICTION * FRICTION (0.990025) of it. *)
Theorem update_energy (now : Z) (g g' : game) :
  update now g = Ok g' ->
  energy (pucks g') <= energy (pucks g) /\
  (gameState g = Playing -> sessionsOk g ->
   energy (pucks g') <= FRICTION * FRICTION * energy (pucks g)).
Proof.
  intros H. destruct (decide (gameState g = Playing)) as [Hst | Hst].
  2:{ rewrite update_not_playing in H by done. injection H as <-.
      split; [lra | done]. }
  destruct (physicsSteps now g (pucks g)) as [ps|e] eqn:Hps.
  2:{ revert H. unfold update. rewrite decide_False by (by rewrite Hst; intros []).
      by rewrite Hps. }
  rewrite (update_pucks _ _ _ _ Hst Hps H).
  pose proof (physicsSteps_energy _ _ _ _ Hps) as He.
  split.
  - etrans; [apply applyFriction_energy | done].
  - intros _ Hok. etrans.
    + apply applyFriction_energy_rest. intros i p Hp Hd.
      apply physicsSteps_unchanged in Hps as [_ Hkeep].
      rewrite (Hkeep i Hd) in Hp.
      apply isDragged_true in Hd as (id & t & Ht & <-).
      destruct (sess_rest g Hok id t p Ht Hp) as [Hvx Hvy].
      unfold speed2. rewrite Hvx, Hvy. lra.
    + pose proof friction_square. nra.
Qed.

(** *** A frame with a puck in flight *)

Lemma isDragged_singleton (id : touchId) (t : touch) (index : nat) :
  isDragged {[id := t]} index = bool_decide (puckIndex t = index).
Proof.
  destruct (decide (puckIndex t = index)) as [Heq | Hne].
  - rewrite bool_decide_eq_true_2 by done. apply isDragged_true.
    exists id, t. split; [apply lookup_singleton_eq | done].
  - rewrite bool_decide_eq_false_2 by done. apply isDragged_false.
    intros id' t' [_ <-]%lookup_singleton_Some. done.
Qed.

(** A sub-step in which only the first puck of the array moves, and
    touches neither the wall, nor an obstacle, nor another puck. *)
Lemma subStep_mover now g m rest :
  let m' := boundaryCollisions (width g) (height g) (moved m) in
  isDragged (activeTouches g) 0 = false ->
  (exists walls,
     getWallSegments now g = Ok walls /\
     Forall (fun s => wallCollision (width g) (height g / 2)
                        (WALL_THICKNESS / 2) m' s = Ok m') walls) ->
  Forall (fun obs => checkCapCollision m' (obs_x obs) (obs_y obs)
                       (obs_radius obs) = Ok m') (getObstacles g) ->
  (forall j q, rest !! j = Some q -> isDragged (activeTouches g) (S j) = false ->
               collidePucks m' q = Ok (m', q)) ->
  (forall j q, rest !! j = Some q -> isDragged (activeTouches g) (S j) = false ->
               settled now g (m' :: rest) (S j) q) ->
  subStep now g (m :: rest) = Ok (m' :: rest).
Proof.
  intros m' Hfree (walls & Hw & Hwalls) Hobs Hfar Hrest.
  unfold subStep. cbn [length seq foldM].
  assert (H0 : stepPuck now g (m :: rest) 0 = Ok (m' :: rest)).
  { unfold stepPuck. cbn [lookup list_lookup]. rewrite Hfree. cbv zeta.
    change (puck_set_y (puck_set_x m (puck_x m + puck_vx m / steps))
              (puck_y (puck_set_x m (puck_x m + puck_vx m / steps))
               + puck_vy (puck_set_x m (puck_x m + puck_vx m / steps)) / steps))
      with (moved m).
    fold m'. rewrite Hw, bind_ok, (foldM_fixed _ walls m' Hwalls), bind_ok.
    rewrite (foldM_fixed _ (getObstacles g) m' Hobs), bind_ok.
    cbn [insert list_insert length Nat.sub].
    apply ballToBall_far with m'; [done |].
    apply Forall_forall. intros j Hj%elem_of_seq.
    destruct j as [|j]; [lia |].
    assert (Hlt : (j < length rest)%nat) by lia.
    apply lookup_lt_is_Some in Hlt as [q Hq].
    exists q. split; [done |]. intros Hd. by apply (Hfar j q). }
  rewrite H0, bind_ok. apply foldM_fixed.
  apply Forall_forall. intros index Hi%elem_of_seq.
  destruct index as [|j]; [lia |].
  assert (Hlt : (j < length rest)%nat) by lia.
  apply lookup_lt_is_Some in Hlt as [q Hq].
  apply stepPuck_settled with q; [done |]. intros Hd. by apply Hrest.
Qed.

Lemma flight_rest_y (j : nat) (q : puck) :
  flight_rest !! j = Some q ->
  puck_vx q = 0 /\ puck_vy q = 0 /\ 110 <= puck_x q <= 270 /\
  (puck_y q = 200 \/ puck_y q = 600).
Proof.
  unfold flight_rest, grid_pucks. cbn [tail]. intros H.
  list_cases; cbn [puck_vx puck_vy puck_x puck_y]; repeat split; lra || auto.
Qed.

(** One sub-step of the flight: the first puck moves along the height
    100 and the other pucks stay where they are. *)
Lemma flight_subStep (m : puck) :
  puck_y m = 100 -> puck_vy m = 0 ->
  let m' := boundaryCollisions 400 800 (moved m) in
  subStep 1000 flight_game (m :: flight_rest) = Ok (m' :: flight_rest) /\
  puck_y m' = 100 /\ puck_vy m' = 0.
Proof.
  intros Hy Hvy m'.
  assert (Hm' : puck_y m' = 100 /\ puck_vy m' = 0).
  { unfold m', boundaryCollisions, moved. cbv zeta.
    repeat case_decide;
      cbn [puck_x puck_y puck_vx puck_vy puck_set_x puck_set_y puck_set_vx
           puck_set_vy puck_set_pos puck_set_vel] in *;
      unfold steps, PUCK_RADIUS in *; rewrite ?Hy, ?Hvy in *; lra. }
  split; [| exact Hm']. destruct Hm' as [Hy' Hvy'].
  apply (subStep_mover 1000 flight_game m flight_rest).
  - unfold flight_game. cbn [activeTouches].
    rewrite isDragged_singleton. by apply bool_decide_eq_false_2.
  - eexists. split; [reflexivity |]. cbn [width height flight_game]. fold m'.
    repeat constructor; apply wallCollision_away;
      unfold WALL_THICKNESS, PUCK_RADIUS; rewrite ?Hy'; lra.
  - constructor.
  - intros j q Hq _. cbn [width height flight_game]. fold m'.
    apply flight_rest_y in Hq as (_ & _ & _ & Hqy).
    apply collidePucks_far. unfold PUCK_RADIUS. rewrite Hy'.
    pose proof (Rle_0_sqr (puck_x q - puck_x m')) as Hsq. unfold Rsqr in Hsq.
    destruct Hqy as [Hqy | Hqy]; rewrite ?Hqy; lra.
  - intros j q Hq _. cbn [width height flight_game]. fold m'.
    pose proof (flight_rest_y j q Hq) as (Hqvx & Hqvy & Hqx & Hqy).
    split; [split; [| split; [| split; [| split]]] |].
    + done.
    + done.
    + cbn [width height flight_game]. apply boundaryCollisions_inside;
        unfold PUCK_RADIUS; destruct Hqy as [Hqy | Hqy]; rewrite ?Hqy; lra.
    + eexists. split; [reflexivity |]. cbn [width height flight_game].
      repeat constructor; apply wallCollision_away;
        unfold WALL_THICKNESS, PUCK_RADIUS; destruct Hqy as [Hqy | Hqy]; rewrite ?Hqy; lra.
    + constructor.
    + intros k r Hlt Hr _. destruct k as [|k]; [lia |].
      cbn [lookup list_lookup] in Hr. apply collidePucks_far.
      unfold flight_rest, grid_pucks in Hq, Hr. cbn [tail] in Hq, Hr.
      unfold PUCK_RADIUS.
      list_cases; try lia; cbn [puck_x puck_y]; lra.
Qed.

Lemma flight_bounce :
  boundaryCollisions 400 800 (moved (mkPuck 0 380 100 50 0 "#00ff00"))
  = mkPuck 0 385 100 (-45) 0 "#00ff00".
Proof.
  unfold boundaryCollisions, moved. cbv zeta.
  cbn [puck_x puck_y puck_vx puck_vy puck_set_x puck_set_y puck_set_pos].
  unfold steps, PUCK_RADIUS, BOUNCE_DAMPING.
  rewrite (decide_False (P := 380 + 50 / 5 - 15 < 0)) by lra.
  rewrite (decide_True (P := 380 + 50 / 5 + 15 > 400)) by lra.
  cbn [puck_x puck_y puck_vx puck_vy puck_set_x puck_set_y puck_set_vx
       puck_set_pos puck_set_vel].
  rewrite (decide_False (P := 100 + 0 / 5 - 15 < 0)) by lra.
  rewrite (decide_False (P := 100 + 0 / 5 + 15 > 800)) by lra.
  unfold puck_set_vx, puck_set_vel. cbn. f_equal; lra.
Qed.

Lemma flight_back (x x' : R) :
  15 <= x' <= 385 -> x' = x - 9 ->
  boundaryCollisions 400 800 (moved (mkPuck 0 x 100 (-45) 0 "#00ff00"))
  = mkPuck 0 x' 100 (-45) 0 "#00ff00".
Proof.
  intros Hx ->. rewrite boundaryCollisions_inside.
  - unfold moved, puck_set_x, puck_set_y, puck_set_pos, steps. cbn. f_equal; lra.
  - unfold moved, steps, PUCK_RADIUS. cbn. lra.
  - unfold moved, steps, PUCK_RADIUS. cbn. lra.
Qed.

Lemma flight_physics :
  physicsSteps 1000 flight_game (pucks flight_game)
  = Ok (mkPuck 0 349 100 (-45) 0 "#00ff00" :: flight_rest).
Proof.
  unfold physicsSteps. cbn [seq foldM pucks flight_game].
  destruct (flight_subStep (mkPuck 0 380 100 50 0 "#00ff00")) as (-> & _);
    [done | done |]. rewrite bind_ok, flight_bounce.
  destruct (flight_subStep (mkPuck 0 385 100 (-45) 0 "#00ff00")) as (-> & _);
    [done | done |]. rewrite bind_ok, (flight_back 385 376) by lra.
  destruct (flight_subStep (mkPuck 0 376 100 (-45) 0 "#00ff00")) as (-> & _);
    [done | done |]. rewrite bind_ok, (flight_back 376 367) by lra.
  destruct (flight_subStep (mkPuck 0 367 100 (-45) 0 "#00ff00")) as (-> & _);
    [done | done |]. rewrite bind_ok, (flight_back 367 358) by lra.
  destruct (flight_subStep (mkPuck 0 358 100 (-45) 0 "#00ff00")) as (-> & _);
    [done | done |]. rewrite bind_ok, (flight_back 358 349) by lra.
  done.
Qed.

Lemma flight_friction :
  applyFriction (activeTouches flight_game)
    (mkPuck 0 349 100 (-45) 0 "#00ff00" :: flight_rest) = flight_landed.
Proof.
  unfold applyFriction, flight_game, flight_landed, flight_rest, grid_pucks.
  cbn [activeTouches tail imap compose]. rewrite !isDragged_singleton.
  cbn [puckIndex]. unfold puck_set_vel, FRICTION.
  cbn [puck_id puck_x puck_y puck_vx puck_vy puck_color].
  repeat (apply (f_equal2 cons);
          [case_bool_decide; [done || lia | try lia; f_equal; lra] |]).
  done.
Qed.

Lemma countSides_top h p ps a b :
  puck_y p < h / 2 -> countSides h ps = (a, b) ->
  countSides h (p :: ps) = (S a, b).
Proof. intros Hp Hps. by rewrite countSides_cons, Hps, decide_True. Qed.

Lemma countSides_bottom h p ps a b :
  ~ puck_y p < h / 2 -> countSides h ps = (a, b) ->
  countSides h (p :: ps) = (a, S b).
Proof. intros Hp Hps. by rewrite countSides_cons, Hps, decide_False. Qed.

Lemma flight_counts : countSides 800 flight_landed = (5%nat, 5%nat).
Proof.
  unfold flight_landed, flight_rest, grid_pucks. cbn [tail].
  repeat (apply countSides_top; [cbn [puck_y]; lra |]).
  repeat (apply countSides_bottom; [cbn [puck_y]; lra |]).
  reflexivity.
Qed.

(** The frame of the flight. *)
Lemma flight_frame : update 1000 flight_game = Ok flight_after.
Proof.
  rewrite update_playing by done. unfold framePucks.
  rewrite flight_physics, !bind_ok, flight_friction.
  cbn [height flight_game]. rewrite flight_counts. cbn [fst snd].
  by rewrite winCondition_both.
Qed.

Lemma flight_energy :
  energy (pucks flight_game) = 2500 /\
  energy (pucks flight_after) = 44.775 * 44.775.
Proof.
  unfold energy, flight_game, flight_after, flight_landed, flight_rest,
    grid_pucks, speed2.
  cbn [pucks tail fmap list_fmap foldr puck_vx puck_vy]. split; lra.
Qed.

Lemma flight_game_sessionsOk : sessionsOk flight_game.
Proof.
  split; unfold flight_game, flight_rest, grid_pucks;
    cbn [activeTouches pucks tail].
  - intros id t [<- <-]%lookup_singleton_Some. by eexists.
  - intros id1 id2 t1 t2 [<- _]%lookup_singleton_Some
      [<- _]%lookup_singleton_Some _. done.
  - intros id t p [<- <-]%lookup_singleton_Some [= <-]. done.
Qed.

Lemma update_energy_witness :
  update 1000 flight_game = Ok flight_after /\
  energy (pucks flight_after) <= energy (pucks flight_game) /\
  energy (pucks flight_after)
    <= FRICTION * FRICTION * energy (pucks flight_game).
Proof.
  split; [apply flight_frame |].
  destruct (update_energy 1000 flight_game flight_after flight_frame)
    as [Hall Hplaying].
  split; [exact Hall |].
  apply Hplaying; [reflexivity | apply flight_game_sessionsOk].
Defined.

(** ** What a frame leaves alone *)

(** X5.  A frame changes no puck held by a session, nor the session map, the
    size of the canvas, the level or the array's length; it changes the
    state and the score only by declaring a winner. *)
Theorem update_keeps_held (now : Z) (g g' : game) :
  update now g = Ok g' ->
  activeTouches g' = activeTouches g /\
  length (pucks g') = length (pucks g) /\
  (forall id t, activeTouches g !! id = Some t ->
                pucks g' !! puckIndex t = pucks g !! puckIndex t) /\
  width g' = width g /\ height g' = height g /\
  currentLevel g' = currentLevel g /\ clientWidth g' = clientWidth g /\
  (gameState g' = gameState g /\ winner g' = winner g /\
   topWins g' = topWins g /\ bottomWins g' = bottomWins g
   \/ gameState g = Playing /\ gameState g' = Won /\
      (winner g' = Some SideTop /\ topWins g' = S (topWins g) /\
       bottomWins g' = bottomWins g
       \/ winner g' = Some SideBottom /\ topWins g' = topWins g /\
          bottomWins g' = S (bottomWins g))).
Proof.
  intros H. pose proof (update_unchanged _ _ _ H) as (Ht & Hlen & Hkeep).
  split; [done |]. split; [done |].
  split; [intros id t Hid; apply Hkeep, isDragged_true; eauto |].
  revert H. unfold update. case_decide as Hst.
  { intros [= <-]. repeat split; try done. by left. }
  assert (Hpl : gameState g = Playing) by (by destruct (gameState g)).
  intros H. apply bind_ok_inv in H as (ps & _ & H). injection H as <-.
  set (g1 := game_set_pucks g _).
  assert (Hpend : forall s,
    let g2 := pendingWin now s g1 in
    width g2 = width g /\ height g2 = height g /\
    currentLevel g2 = currentLevel g /\ clientWidth g2 = clientWidth g /\
    (gameState g2 = gameState g /\ winner g2 = winner g /\
     topWins g2 = topWins g /\ bottomWins g2 = bottomWins g
     \/ gameState g = Playing /\ gameState g2 = Won /\
        (winner g2 = Some SideTop /\ topWins g2 = S (topWins g) /\
         bottomWins g2 = bottomWins g
         \/ winner g2 = Some SideBottom /\ topWins g2 = topWins g /\
            bottomWins g2 = S (bottomWins g)))).
  { intros s. cbv zeta. unfold pendingWin.
    destruct (falsy _); [repeat split; try done; by left |].
    case_decide; [| repeat split; try done; by left].
    repeat split; try done. right. split; [done |]. split; [done |].
    destruct s; [left | right]; done. }
  unfold winCondition. repeat case_decide; try apply Hpend.
  repeat split; try done. by left.
Qed.

Lemma update_keeps_held_witness :
  activeTouches tall_won = activeTouches (tall_game (Some 1800%Z)) /\
  length (pucks tall_won) = length (pucks (tall_game (Some 1800%Z))).
Proof.
  destruct (update_keeps_held 1801 (tall_game (Some 1800%Z)) tall_won
              tall_game_last_frame) as (Ht & Hl & _).
  by split.
Defined.

(** ** The side of the winner *)

Lemma countSides_total h ps :
  ((countSides h ps).1 + (countSides h ps).2)%nat = length ps.
Proof.
  induction ps as [|p ps IH]; [done |].
  rewrite countSides_cons. case_decide; cbn [fst snd length]; lia.
Qed.

Lemma framePucks_length now g ps :
  framePucks now g = Ok ps -> length ps = length (pucks g).
Proof.
  unfold framePucks. intros H. apply bind_ok_inv in H as (ps1 & H1 & H2).
  injection H2 as <-. apply physicsSteps_unchanged in H1 as [Hlen _].
  unfold applyFriction. by rewrite length_imap.
Qed.

Lemma pendingWin_won now s g :
  gameState g = Playing -> gameState (pendingWin now s g) = Won ->
  pendingWin now s g = declareWinner s g.
Proof.
  intros Hst. unfold pendingWin. destruct (falsy _); [cbn; congruence |].
  case_decide; [done | congruence].
Qed.

(** X6.  A match is won with all ten pucks on one side: when a frame of a
    reachable state declares a winner, the side named as winner is
    empty and the ten pucks are on the other side of the midline. *)
Theorem update_winner_side (now : Z) (g g' : game) :
  reachable g -> gameState g = Playing ->
  update now g = Ok g' -> gameState g' = Won ->
  winner g' = Some SideTop /\
    countSides (height g') (pucks g') = (0%nat, 10%nat)
  \/ winner g' = Some SideBottom /\
     countSides (height g') (pucks g') = (10%nat, 0%nat).
Proof.
  intros Hr Hst Hup Hwon.
  assert (Hlen : length (pucks g) = 10%nat)
    by (apply reachable_length; [done | by rewrite Hst]).
  rewrite update_playing in Hup by done.
  apply bind_ok_inv in Hup as (ps & Hps & Hup). injection Hup as <-.
  apply framePucks_length in Hps. rewrite Hlen in Hps.
  pose proof (countSides_total (height g) ps) as Htot. rewrite Hps in Htot.
  set (g1 := game_set_pucks g ps) in *.
  assert (Hst1 : gameState g1 = Playing) by done.
  revert Hwon. unfold winCondition.
  destruct (decide ((countSides (height g) ps).1 = 0%nat)) as [H0 | H0];
    [| destruct (decide ((countSides (height g) ps).2 = 0%nat)) as [H2 | H2]].
  - intros Hwon. rewrite (pendingWin_won _ _ _ Hst1 Hwon). left.
    split; [done |]. subst g1.
    cbn [height pucks declareWinner game_set_pucks].
    destruct (countSides (height g) ps) as [a b].
    cbn [fst snd] in *. f_equal; lia.
  - intros Hwon. rewrite (pendingWin_won _ _ _ Hst1 Hwon). right.
    split; [done |]. subst g1.
    cbn [height pucks declareWinner game_set_pucks].
    destruct (countSides (height g) ps) as [a b].
    cbn [fst snd] in *. f_equal; lia.
  - cbn. congruence.
Qed.

Lemma update_winner_side_witness :
  winner tall_won = Some SideBottom /\
  countSides (height tall_won) (pucks tall_won) = (10%nat, 0%nat).
Proof.
  destruct (update_winner_side 1801 (tall_game (Some 1800%Z)) tall_won
              tall_game_reachable eq_refl tall_game_last_frame eq_refl)
    as [[Hw _] | H]; [discriminate Hw | exact H].
Defined.

(** ** The start of a match *)

Lemma startGame_pucks rnd g :
  pucks (startGame rnd g) =
    (spawnPuck g rnd 0.25 0 <$> seq 0 5) ++ (spawnPuck g rnd 0.75 5 <$> seq 0 5).
Proof. reflexivity. Qed.

Lemma spawnPuck_place g rnd yFactor base i :
  (forall k, 0 <= rnd k < 1) ->
  let p := spawnPuck g rnd yFactor base i in
  puck_vx p = 0 /\ puck_vy p = 0 /\
  width g / 2 - 100 <= puck_x p < width g / 2 + 100 /\
  height g * yFactor - 50 <= puck_y p < height g * yFactor + 50.
Proof.
  intros Hrnd. cbv zeta. unfold spawnPuck.
  cbn [puck_vx puck_vy puck_x puck_y].
  pose proof (Hrnd (2 * (i + base))%nat).
  pose proof (Hrnd (2 * (i + base) + 1)%nat).
  repeat split; lra.
Qed.

Lemma startGame_lookup rnd g i p :
  pucks (startGame rnd g) !! i = Some p ->
  (i < 5)%nat /\ p = spawnPuck g rnd 0.25 0 i \/
  (5 <= i < 10)%nat /\ p = spawnPuck g rnd 0.75 5 (i - 5).
Proof.
  rewrite startGame_pucks. intros H.
  apply lookup_app_Some in H as [H | [Hlen H]].
  - left. apply list_lookup_fmap_Some in H as (k & -> & Hk).
    apply lookup_seq in Hk as [-> Hk]. done.
  - right. rewrite length_fmap, length_seq in Hlen, H.
    apply list_lookup_fmap_Some in H as (k & -> & Hk).
    apply lookup_seq in Hk as [-> Hk]. split; [lia | done].
Qed.

Lemma countSides_app h ps qs :
  countSides h (ps ++ qs) =
    (((countSides h ps).1 + (countSides h qs).1)%nat,
     ((countSides h ps).2 + (countSides h qs).2)%nat).
Proof.
  unfold countSides at 1. rewrite foldl_app.
  change (foldl _ (0%nat, 0%nat) ps) with (countSides h ps).
  destruct (countSides h ps) as [a b]. apply countSides_acc.
Qed.

(** X7.  [startGame] with draws in [0, 1): ten pucks at rest, within 100
    pixels of the vertical centre line, no session left.  On a canvas at
    least 200 high the pucks 0 to 4 are above the midline and the pucks
    5 to 9 below it; on one at least 230 wide and 260 high every puck
    is inside the arena. *)
Theorem startGame_layout (rnd : nat -> R) (g : game) :
  (forall k, 0 <= rnd k < 1) ->
  let g' := startGame rnd g in
  length (pucks g') = 10%nat /\
  activeTouches g' = ∅ /\
  (forall i p, pucks g' !! i = Some p ->
     puck_vx p = 0 /\ puck_vy p = 0 /\
     width g / 2 - 100 <= puck_x p < width g / 2 + 100) /\
  (200 <= height g ->
   (forall i p, pucks g' !! i = Some p ->
      (puck_y p < height g / 2 <-> (i < 5)%nat)) /\
   countSides (height g') (pucks g') = (5%nat, 5%nat)) /\
  (230 <= width g -> 260 <= height g ->
   forall i p, pucks g' !! i = Some p ->
     PUCK_RADIUS <= puck_x p <= width g - PUCK_RADIUS /\
     PUCK_RADIUS <= puck_y p <= height g - PUCK_RADIUS).
Proof.
  intros Hrnd g'. subst g'. split; [done |]. split; [done |].
  assert (Hside : 200 <= height g ->
    forall i p, pucks (startGame rnd g) !! i = Some p ->
      (puck_y p < height g / 2 <-> (i < 5)%nat)).
  { intros Hh i p Hp.
    apply startGame_lookup in Hp as [[Hi ->] | [Hi ->]].
    - destruct (spawnPuck_place g rnd 0.25 0 i Hrnd) as (_ & _ & _ & Hy).
      split; [done |]. intros _. lra.
    - destruct (spawnPuck_place g rnd 0.75 5 (i - 5) Hrnd) as (_ & _ & _ & Hy).
      split; [intros; lra | lia]. }
  split; [| split].
  - intros i p Hp.
    apply startGame_lookup in Hp as [[Hi ->] | [Hi ->]];
      [destruct (spawnPuck_place g rnd 0.25 0 i Hrnd) as (? & ? & ? & _)
      |destruct (spawnPuck_place g rnd 0.75 5 (i - 5) Hrnd) as (? & ? & ? & _)];
      done.
  - intros Hh. split; [by apply Hside |].
    change (height (startGame rnd g)) with (height g).
    rewrite startGame_pucks.
    assert (Htop : Forall (fun p => puck_y p < height g / 2)
                     (spawnPuck g rnd 0.25 0 <$> seq 0 5)).
    { apply Forall_fmap, Forall_forall. intros i _.
      destruct (spawnPuck_place g rnd 0.25 0 i Hrnd) as (_ & _ & _ & Hy).
      cbn in *. lra. }
    assert (Hbot : Forall (fun p => ~ puck_y p < height g / 2)
                     (spawnPuck g rnd 0.75 5 <$> seq 0 5)).
    { apply Forall_fmap, Forall_forall. intros i _.
      destruct (spawnPuck_place g rnd 0.75 5 i Hrnd) as (_ & _ & _ & Hy).
      cbn in *. lra. }
    rewrite countSides_app, (countSides_all_top _ _ Htop),
      (countSides_all_bottom _ _ Hbot).
    by rewrite !length_fmap, !length_seq.
  - intros Hw Hh i p Hp. unfold PUCK_RADIUS.
    apply startGame_lookup in Hp as [[Hi ->] | [Hi ->]];
      [destruct (spawnPuck_place g rnd 0.25 0 i Hrnd) as (_ & _ & Hx & Hy)
      |destruct (spawnPuck_place g rnd 0.75 5 (i - 5) Hrnd) as (_ & _ & Hx & Hy)];
      lra.
Qed.

Lemma startGame_layout_witness :
  (forall k, 0 <= grid k < 1) /\
  countSides 800 (pucks (startGame grid (initial 400 800 400)))
    = (5%nat, 5%nat).
Proof.
  split; [exact grid_unit |].
  destruct (startGame_layout grid (initial 400 800 400) grid_unit)
    as (_ & _ & _ & H & _).
  apply H. cbn [height initial]. lra.
Defined.

(** ** The edges of the arena *)

(** X8.  On an arena that has room for a puck, the edge checks leave the
    puck inside it, whatever its position was. *)
Theorem boundaryCollisions_arena (w h : R) (p : puck) :
  2 * PUCK_RADIUS <= w -> 2 * PUCK_RADIUS <= h ->
  let p' := boundaryCollisions w h p in
  PUCK_RADIUS <= puck_x p' <= w - PUCK_RADIUS /\
  PUCK_RADIUS <= puck_y p' <= h - PUCK_RADIUS.
Proof.
  intros Hw Hh. unfold boundaryCollisions. cbv zeta.
  remember (if decide (puck_x p - PUCK_RADIUS < 0) then _ else _) as p1 eqn:E1.
  remember (if decide (puck_x p1 + PUCK_RADIUS > w) then _ else _) as p2 eqn:E2.
  remember (if decide (puck_y p2 - PUCK_RADIUS < 0) then _ else _) as p3 eqn:E3.
  remember (if decide (puck_y p3 + PUCK_RADIUS > h) then _ else _) as p4 eqn:E4.
  unfold PUCK_RADIUS in *.
  assert (H1 : 15 <= puck_x p1).
  { rewrite E1. clear. case_decide; cbn [puck_x puck_set_vx puck_set_x puck_set_vel puck_set_pos]; lra. }
  assert (H2 : 15 <= puck_x p2 <= w - 15).
  { rewrite E2. clear -H1 Hw.
    case_decide; cbn [puck_x puck_set_vx puck_set_x puck_set_vel puck_set_pos];
      split; lra. }
  assert (H3 : 15 <= puck_x p3 <= w - 15 /\ 15 <= puck_y p3).
  { rewrite E3. clear -H2.
    case_decide;
      cbn [puck_x puck_y puck_set_vy puck_set_y puck_set_vel puck_set_pos];
      repeat split; lra. }
  rewrite E4. clear -H3 Hh.
  case_decide;
    cbn [puck_x puck_y puck_set_vy puck_set_y puck_set_vel puck_set_pos];
    repeat split; lra.
Qed.

Lemma boundaryCollisions_arena_witness :
  let p' := boundaryCollisions 400 800 (mkPuck 0 (-7) 900 (-3) 4 "#00ff00") in
  PUCK_RADIUS <= puck_x p' <= 400 - PUCK_RADIUS /\
  PUCK_RADIUS <= puck_y p' <= 800 - PUCK_RADIUS.
Proof.
  apply (boundaryCollisions_arena 400 800); unfold PUCK_RADIUS; lra.
Defined.

(** ** The rectangular part of a wall *)

(** X9.  No tunnelling.  Take a puck that is clear of the wall on one side
    and whose vertical speed takes it no further in a sub-step than half
    the thickness of the wall plus its radius.  After the movement, the
    edge checks (the puck being inside the arena) and the check of a
    segment it is over, it is clear of the wall on the same side; when
    it had reached the wall its vertical velocity has been reversed and
    damped. *)
Theorem wall_no_tunnel (w h : R) (p : puck) (s : segment) :
  let wallY := h / 2 in
  let halfWallThick := WALL_THICKNESS / 2 in
  PUCK_RADIUS <= puck_x (moved p) <= w - PUCK_RADIUS ->
  PUCK_RADIUS <= puck_y (moved p) <= h - PUCK_RADIUS ->
  seg_start s <= puck_x (moved p) <= seg_end s ->
  let p' := wallRectCollision wallY halfWallThick
              (boundaryCollisions w h (moved p)) s in
  (puck_y p + PUCK_RADIUS < wallY - halfWallThick ->
   puck_vy p / steps <= halfWallThick + PUCK_RADIUS ->
   puck_y p' + PUCK_RADIUS < wallY - halfWallThick /\
   (wallY - halfWallThick <= puck_y (moved p) + PUCK_RADIUS ->
    puck_vy p' = puck_vy p * - BOUNCE_DAMPING)) /\
  (wallY + halfWallThick < puck_y p - PUCK_RADIUS ->
   - (halfWallThick + PUCK_RADIUS) <= puck_vy p / steps ->
   wallY + halfWallThick < puck_y p' - PUCK_RADIUS /\
   (puck_y (moved p) - PUCK_RADIUS <= wallY + halfWallThick ->
    puck_vy p' = puck_vy p * - BOUNCE_DAMPING)).
Proof.
  intros wallY hw Hinx Hiny Hx. rewrite boundaryCollisions_inside by done.
  subst wallY hw. cbv zeta. clear Hinx Hiny.
  unfold wallRectCollision, moved in *. cbv zeta in *.
  destruct p as [i x y vx vy c].
  unfold puck_set_vy, puck_set_x, puck_set_y, puck_set_vel, puck_set_pos,
    PUCK_RADIUS, WALL_THICKNESS, steps in *.
  cbn [puck_id puck_x puck_y puck_vx puck_vy puck_color] in *.
  split; intros Hclear Hslow.
  - repeat (case_decide;
            cbn [puck_id puck_x puck_y puck_vx puck_vy puck_color] in * );
      (split; [lra | intros; lra || reflexivity]).
  - repeat (case_decide;
            cbn [puck_id puck_x puck_y puck_vx puck_vy puck_color] in * );
      (split; [lra | intros; lra || reflexivity]).
Qed.

Lemma wall_no_tunnel_witness :
  let p := mkPuck 0 100 370 0 50 "#00ff00" in
  let p' := wallRectCollision (800 / 2) (WALL_THICKNESS / 2)
              (boundaryCollisions 400 800 (moved p)) (mkSegment 0 150) in
  puck_y p' + PUCK_RADIUS < 800 / 2 - WALL_THICKNESS / 2 /\
  puck_vy p' = 50 * - BOUNCE_DAMPING.
Proof.
  intros p p'.
  assert (Hy : puck_y (moved p) = 380) by (cbn; unfold steps; lra).
  assert (Hx : puck_x (moved p) = 100) by (cbn; unfold steps; lra).
  destruct (wall_no_tunnel 400 800 p (mkSegment 0 150)) as [Htop _];
    [rewrite Hx; unfold PUCK_RADIUS; lra
    |rewrite Hy; unfold PUCK_RADIUS; lra
    |rewrite Hx; cbn [seg_start seg_end]; lra |].
  destruct Htop as [Hclear Hrev];
    [cbn [puck_y p]; unfold PUCK_RADIUS, WALL_THICKNESS; lra
    |cbn [puck_vy p]; unfold PUCK_RADIUS, WALL_THICKNESS, steps; lra |].
  split; [exact Hclear |]. apply Hrev.
  rewrite Hy. unfold PUCK_RADIUS, WALL_THICKNESS. lra.
Defined.

(** ** The geometry of a collision *)

Lemma sqrt_one_plus_ratio (x y : R) :
  x <> 0 -> sqrt (1 + (y / x)²) = sqrt (x * x + y * y) / Rabs x.
Proof.
  intros Hx. assert (Ha : 0 < Rabs x) by (by apply Rabs_pos_lt).
  replace (1 + (y / x)²) with ((x * x + y * y) / (Rabs x * Rabs x)).
  - rewrite sqrt_div_alt by nra. by rewrite sqrt_square by lra.
  - unfold Rsqr. replace (Rabs x * Rabs x) with (x * x).
    + field. done.
    + unfold Rabs. destruct (Rcase_abs x); ring.
Qed.

(** [Math.atan2(dy, dx)] is the angle of the vector [(dx, dy)]. *)
Lemma atan2_polar (dx dy : R) :
  let d := sqrt (dx * dx + dy * dy) in
  d <> 0 -> cos (atan2 dy dx) * d = dx /\ sin (atan2 dy dx) * d = dy.
Proof.
  intros d Hd. unfold atan2.
  assert (Hd0 : 0 < d).
  { destruct (sqrt_sum_squares dx dy) as [H0 _]. fold d in H0. lra. }
  destruct (decide (dx > 0)) as [Hpos | Hnpos];
    [| destruct (decide (dx < 0)) as [Hneg | Hnneg]].
  - rewrite cos_atan, sin_atan, sqrt_one_plus_ratio by lra. fold d.
    rewrite Rabs_pos_eq by lra. split; field; lra.
  - assert (Hr : sqrt (1 + (dy / dx)²) = d / - dx).
    { rewrite sqrt_one_plus_ratio by lra. fold d. by rewrite Rabs_left by lra. }
    destruct (decide (dy >= 0)).
    + rewrite neg_cos, neg_sin, cos_atan, sin_atan, Hr. split; field; lra.
    + replace (atan (dy / dx) - PI) with (- (- atan (dy / dx) + PI)) by ring.
      rewrite cos_neg, sin_neg, neg_cos, neg_sin, cos_neg, sin_neg.
      rewrite cos_atan, sin_atan, Hr. split; field; lra.
  - assert (dx = 0) as Hx by lra.
    assert (Hdy : d = Rabs dy).
    { unfold d. rewrite Hx.
      replace (0 * 0 + dy * dy) with (dy * dy) by ring.
      rewrite <- (Rabs_pos_eq (sqrt (dy * dy))) by apply sqrt_pos.
      change (dy * dy) with (Rsqr dy). by rewrite sqrt_Rsqr_abs, Rabs_Rabsolu. }
    destruct (decide (dy > 0)); [| destruct (decide (dy < 0))].
    + rewrite cos_PI2, sin_PI2, Hdy, Rabs_pos_eq by lra. lra.
    + rewrite cos_neg, sin_neg, cos_PI2, sin_PI2, Hdy, Rabs_left by lra. lra.
    + assert (dy = 0) by lra. subst. rewrite Rabs_R0 in Hdy. lra.
Qed.

Lemma collidePucks_apart (p other : puck) :
  puck_x other <> puck_x p \/ puck_y other <> puck_y p ->
  exists p' other', collidePucks p other = Ok (p', other').
Proof.
  intros Hne.
  destruct (proj2 (proj2 (proj2 collisions_energy)) p other Hne)
    as (p' & other' & H & _).
  eauto.
Qed.

(** X10.  Two overlapping pucks whose centres differ are pushed apart
    along the line of their centres, each by half the overlap and away
    from the other: the angle that the code takes ([Math.atan2], then
    [Math.cos] and [Math.sin]) gives the direction of the unit normal
    [(dx / dist, dy / dist)] that it uses for the velocities.  The middle
    of the two centres does not move. *)
Theorem collidePucks_separates (p other p' other' : puck) :
  collidePucks p other = Ok (p', other') ->
  let dx := puck_x other - puck_x p in
  let dy := puck_y other - puck_y p in
  let dist := sqrt (dx * dx + dy * dy) in
  dist < PUCK_RADIUS * 2 ->
  let half := (PUCK_RADIUS * 2 - dist) / 2 in
  puck_x p' = puck_x p - dx / dist * half /\
  puck_y p' = puck_y p - dy / dist * half /\
  puck_x other' = puck_x other + dx / dist * half /\
  puck_y other' = puck_y other + dy / dist * half /\
  puck_x p' + puck_x other' = puck_x p + puck_x other /\
  puck_y p' + puck_y other' = puck_y p + puck_y other.
Proof.
  unfold collidePucks. cbv zeta.
  set (dx := puck_x other - puck_x p). set (dy := puck_y other - puck_y p).
  set (dist := sqrt (dx * dx + dy * dy)).
  intros H Hnear. rewrite decide_True in H by done.
  destruct (decide (dist = 0)) as [H0 | H0].
  { rewrite H0, !jsdiv_zero, bind_err in H. discriminate. }
  rewrite !jsdiv_ok in H by done. rewrite !bind_ok in H.
  injection H as <- <-.
  cbn [puck_x puck_y puck_set_vel puck_set_pos].
  destruct (atan2_polar dx dy H0) as [Hc Hs]. fold dist in Hc, Hs.
  set (c := cos (atan2 dy dx)) in *. set (s := sin (atan2 dy dx)) in *.
  assert (Hcd : c = dx / dist) by (rewrite <- Hc; field; done).
  assert (Hsd : s = dy / dist) by (rewrite <- Hs; field; done).
  rewrite Hcd, Hsd. repeat split; lra.
Qed.

Lemma collidePucks_separates_witness :
  exists p' other',
    collidePucks (mkPuck 0 0 0 3 4 "#00ff00") (mkPuck 1 9 12 0 0 "#00ff00")
      = Ok (p', other') /\
    puck_x p' = -4.5 /\ puck_y p' = -6 /\
    puck_x other' = 13.5 /\ puck_y other' = 18.
Proof.
  destruct (collidePucks_apart (mkPuck 0 0 0 3 4 "#00ff00")
              (mkPuck 1 9 12 0 0 "#00ff00")) as (p' & other' & Hc).
  { left. cbn [puck_x]. lra. }
  exists p', other'. split; [exact Hc |].
  pose proof (collidePucks_separates _ _ _ _ Hc) as Hm. cbv zeta in Hm.
  cbn [puck_x puck_y] in Hm.
  assert (Hd : sqrt ((9 - 0) * (9 - 0) + (12 - 0) * (12 - 0)) = 15).
  { replace ((9 - 0) * (9 - 0) + (12 - 0) * (12 - 0)) with (15 * 15) by lra.
    apply sqrt_square. lra. }
  rewrite Hd in Hm. unfold PUCK_RADIUS in Hm.
  destruct Hm as (H1 & H2 & H3 & H4 & _); [lra |].
  repeat split; lra.
Defined.

(** X11.  The total momentum of two pucks keeps its direction through a
    collision and loses one tenth: it is multiplied by
    [BOUNCE_DAMPING].  Pucks that do not overlap keep their velocities. *)
Theorem collidePucks_momentum (p other p' other' : puck) :
  collidePucks p other = Ok (p', other') ->
  let k := if decide (sqrt ((puck_x other - puck_x p) * (puck_x other - puck_x p)
                            + (puck_y other - puck_y p) * (puck_y other - puck_y p))
                      < PUCK_RADIUS * 2)
           then BOUNCE_DAMPING else 1 in
  puck_vx p' + puck_vx other' = k * (puck_vx p + puck_vx other) /\
  puck_vy p' + puck_vy other' = k * (puck_vy p + puck_vy other).
Proof.
  unfold collidePucks. cbv zeta.
  set (dx := puck_x other - puck_x p). set (dy := puck_y other - puck_y p).
  set (dist := sqrt (dx * dx + dy * dy)).
  case_decide as Hnear; [| intros [= <- <-]; lra].
  destruct (decide (dist = 0)) as [H0 | H0].
  { rewrite H0, !jsdiv_zero, bind_err. discriminate. }
  rewrite !jsdiv_ok by done. rewrite !bind_ok. intros [= <- <-].
  cbn [puck_vx puck_vy puck_set_vel puck_set_pos].
  assert (Hn : dx / dist * (dx / dist) + dy / dist * (dy / dist) = 1).
  { destruct (sqrt_sum_squares dx dy) as [_ Hsq]. fold dist in Hsq.
    replace (dx / dist * (dx / dist) + dy / dist * (dy / dist))
      with ((dx * dx + dy * dy) / (dist * dist)) by (field; done).
    rewrite <- Hsq. field. done. }
  set (nx := dx / dist) in *. set (ny := dy / dist) in *.
  set (vx1 := puck_vx p). set (vy1 := puck_vy p).
  set (vx2 := puck_vx other). set (vy2 := puck_vy other).
  split.
  - match goal with
    | |- ?L = _ =>
        assert (L = BOUNCE_DAMPING * ((nx * nx + ny * ny) * (vx1 + vx2))) as ->
          by field
    end.
    rewrite Hn. unfold BOUNCE_DAMPING. lra.
  - match goal with
    | |- ?L = _ =>
        assert (L = BOUNCE_DAMPING * ((nx * nx + ny * ny) * (vy1 + vy2))) as ->
          by field
    end.
    rewrite Hn. unfold BOUNCE_DAMPING. lra.
Qed.

Lemma collidePucks_momentum_witness :
  exists p' other',
    collidePucks (mkPuck 0 0 0 3 4 "#00ff00") (mkPuck 1 9 12 0 0 "#00ff00")
      = Ok (p', other') /\
    puck_vx p' + puck_vx other' = BOUNCE_DAMPING * (3 + 0) /\
    puck_vy p' + puck_vy other' = BOUNCE_DAMPING * (4 + 0).
Proof.
  destruct (collidePucks_apart (mkPuck 0 0 0 3 4 "#00ff00")
              (mkPuck 1 9 12 0 0 "#00ff00")) as (p' & other' & Hc).
  { left. cbn [puck_x]. lra. }
  exists p', other'. split; [exact Hc |].
  pose proof (collidePucks_momentum _ _ _ _ Hc) as Hm. cbv zeta in Hm.
  rewrite decide_True in Hm; [exact Hm |].
  cbn [puck_x puck_y]. apply sqrt_lt_of_square; unfold PUCK_RADIUS; lra.
Defined.

(** X12.  A puck that overlaps a cap or an obstacle, its centre more than a
    millionth of a pixel from the centre of the disc, is pushed outwards
    by the overlap along the ray from the centre of the disc through its
    own centre, and its velocity is reflected on the disc: the component
    along that ray is reversed and the component across it kept, both
    multiplied by [BOUNCE_DAMPING]. *)
Theorem checkCapCollision_reflects (p : puck) (capX capY halfWallThick : R) :
  let dx := puck_x p - capX in
  let dy := puck_y p - capY in
  let dist := sqrt (dx * dx + dy * dy) in
  let radiusSum := halfWallThick + PUCK_RADIUS in
  1e-6 < dist -> dist < radiusSum ->
  exists p',
    checkCapCollision p capX capY halfWallThick = Ok p' /\
    puck_x p' = puck_x p + dx / dist * (radiusSum - dist) /\
    puck_y p' = puck_y p + dy / dist * (radiusSum - dist) /\
    puck_vx p' * dx + puck_vy p' * dy
      = - BOUNCE_DAMPING * (puck_vx p * dx + puck_vy p * dy) /\
    puck_vx p' * dy - puck_vy p' * dx
      = BOUNCE_DAMPING * (puck_vx p * dy - puck_vy p * dx).
Proof.
  intros dx dy dist radiusSum Hfar Hnear.
  rewrite checkCapCollision_near by exact Hnear.
  fold dx dy dist radiusSum. unfold safeDist. rewrite decide_True by lra.
  eexists. split; [reflexivity |].
  cbn [puck_x puck_y puck_vx puck_vy].
  assert (Hd : dist <> 0) by lra.
  assert (Hsq : dist * dist = dx * dx + dy * dy).
  { destruct (sqrt_sum_squares dx dy) as [_ Hsq]. by fold dist in Hsq. }
  split; [done |]. split; [done |].
  set (vx := puck_vx p). set (vy := puck_vy p). split.
  - match goal with
    | |- ?L = _ =>
        assert (L = BOUNCE_DAMPING * ((vx * dx + vy * dy)
                      * (1 - 2 * ((dx * dx + dy * dy) / (dist * dist))))) as ->
          by (field; done)
    end.
    rewrite <- Hsq. field. done.
  - field. done.
Qed.

Lemma checkCapCollision_reflects_witness :
  exists p',
    checkCapCollision (mkPuck 0 110 0 (-3) 4 "#00ff00") 100 0 10 = Ok p' /\
    puck_x p' = 125 /\ puck_y p' = 0 /\ puck_vx p' = 2.7 /\ puck_vy p' = 3.6.
Proof.
  assert (Hd : sqrt ((110 - 100) * (110 - 100) + (0 - 0) * (0 - 0)) = 10).
  { replace ((110 - 100) * (110 - 100) + (0 - 0) * (0 - 0)) with (10 * 10) by lra.
    apply sqrt_square. lra. }
  destruct (checkCapCollision_reflects (mkPuck 0 110 0 (-3) 4 "#00ff00") 100 0 10)
    as (p' & Hc & Hx & Hy & Hr & Ht).
  - cbn [puck_x puck_y]. rewrite Hd. lra.
  - cbn [puck_x puck_y]. rewrite Hd. unfold PUCK_RADIUS. lra.
  - exists p'. split; [exact Hc |].
    cbn [puck_x puck_y puck_vx puck_vy] in Hx, Hy, Hr, Ht.
    rewrite Hd in Hx, Hy. unfold PUCK_RADIUS, BOUNCE_DAMPING in *.
    repeat split; lra.
Defined.

(** ** Dragging *)

Lemma handleMove_result x y id g t p :
  activeTouches g !! id = Some t -> pucks g !! puckIndex t = Some p ->
  let p' := puck_set_pos p x (dragLimit (height g) (side t) y) in
  let band := bandY (height g) (side t) in
  exists a',
    handleMove x y id g =
      Ok (game_set_pucks
            (game_set_touches g
               (<[id := mkTouch (puckIndex t) (startX t) (startY t) x y a' (side t)]>
                  (activeTouches g)))
            (<[puckIndex t := p']> (pucks g))) /\
    (beyondBand (height g) (side t) (puck_y p') ->
     a' = Some (default (mkPoint x band) (anchor t))) /\
    (~ beyondBand (height g) (side t) (puck_y p') -> a' = None).
Proof.
  intros Ht Hp. cbv zeta. unfold handleMove. rewrite Ht, Hp. cbv zeta.
  unfold touch_set_current.
  cbn [side puckIndex startX startY currentX currentY anchor].
  destruct (side t) eqn:Hs.
  - rewrite !decide_True by done.
    unfold engage, touch_set_anchor, puck_set_y, puck_set_pos, dragLimit,
      beyondBand, bandY.
    cbn [side puckIndex startX startY currentX currentY anchor
         puck_id puck_x puck_y puck_vx puck_vy puck_color].
    case_bool_decide as Hb.
    + destruct (anchor t) as [a|] eqn:Ha;
        cbn [side puckIndex startX startY currentX currentY anchor];
        eexists; (split; [reflexivity |]); split; done.
    + cbn [side puckIndex startX startY currentX currentY anchor].
      eexists; (split; [reflexivity |]); split; done.
  - rewrite !decide_False by done.
    unfold engage, touch_set_anchor, puck_set_y, puck_set_pos, dragLimit,
      beyondBand, bandY.
    cbn [side puckIndex startX startY currentX currentY anchor
         puck_id puck_x puck_y puck_vx puck_vy puck_color].
    case_bool_decide as Hb.
    + destruct (anchor t) as [a|] eqn:Ha;
        cbn [side puckIndex startX startY currentX currentY anchor];
        eexists; (split; [reflexivity |]); split; done.
    + cbn [side puckIndex startX startY currentX currentY anchor].
      eexists; (split; [reflexivity |]); split; done.
Qed.

Lemma dragLimit_side h s y :
  match s with
  | SideTop => dragLimit h s y + PUCK_RADIUS + 10 <= h / 2
  | SideBottom => h / 2 + PUCK_RADIUS + 10 <= dragLimit h s y
  end.
Proof.
  destruct s; unfold dragLimit.
  - pose proof (Rmin_r y (h / 2 - PUCK_RADIUS - 10)). lra.
  - pose proof (Rmax_r y (h / 2 + PUCK_RADIUS + 10)). lra.
Qed.

(** X13.  A move of a pointer that holds a puck takes the puck to the pointer,
    but never nearer to the midline than the radius of a puck plus 10
    pixels, on the side of the session; its velocity, the other pucks
    and the other sessions stay as they were.  The session is anchored
    exactly when the puck is beyond the band line of its side: a first
    anchor is put on the band line at the pointer's abscissa, and an
    anchor is kept for as long as the puck stays beyond the line. *)
Theorem handleMove_constrained (x y : R) (id : touchId) (g : game) (t : touch)
    (p : puck) :
  activeTouches g !! id = Some t -> pucks g !! puckIndex t = Some p ->
  exists g' t' p',
    handleMove x y id g = Ok g' /\
    activeTouches g' !! id = Some t' /\ pucks g' !! puckIndex t = Some p' /\
    puckIndex t' = puckIndex t /\ side t' = side t /\
    puck_x p' = x /\ puck_y p' = dragLimit (height g) (side t) y /\
    puck_vx p' = puck_vx p /\ puck_vy p' = puck_vy p /\
    (side t = SideTop -> puck_y p' + PUCK_RADIUS + 10 <= height g / 2) /\
    (side t = SideBottom -> height g / 2 + PUCK_RADIUS + 10 <= puck_y p') /\
    (beyondBand (height g) (side t) (puck_y p') ->
     anchor t' =
       Some (default (mkPoint x (bandY (height g) (side t))) (anchor t))) /\
    (~ beyondBand (height g) (side t) (puck_y p') -> anchor t' = None) /\
    (forall j, j <> puckIndex t -> pucks g' !! j = pucks g !! j) /\
    (forall id', id' <> id -> activeTouches g' !! id' = activeTouches g !! id').
Proof.
  intros Ht Hp.
  destruct (handleMove_result x y id g t p Ht Hp) as (a' & Hm & Hon & Hoff).
  eexists _, _, _. split; [exact Hm |]. cbn [activeTouches pucks game_set_pucks game_set_touches].
  split; [by rewrite lookup_insert_eq |].
  split.
  { apply list_lookup_insert_eq. by eapply lookup_lt_Some. }
  cbn [puckIndex side anchor puck_x puck_y puck_vx puck_vy puck_set_pos].
  pose proof (dragLimit_side (height g) (side t) y) as Hlim.
  repeat split; try done.
  - intros Hs. by rewrite Hs in Hlim |- *.
  - intros Hs. by rewrite Hs in Hlim |- *.
  - intros j Hj. by rewrite list_lookup_insert_ne.
  - intros id' Hid. by rewrite lookup_insert_ne.
Qed.

Lemma handleMove_constrained_witness :
  exists g' p',
    handleMove 110 450 MouseId pressed_game = Ok g' /\
    pucks g' !! 0%nat = Some p' /\
    puck_x p' = 110 /\ puck_y p' + PUCK_RADIUS + 10 <= 800 / 2.
Proof.
  destruct (handleMove_constrained 110 450 MouseId pressed_game
              (mkTouch 0 110 200 110 200 None SideTop)
              (mkPuck 0 110 200 0 0 "#00ff00")
              (lookup_singleton_eq _ _) eq_refl)
    as (g' & t' & p' & Hm & _ & Hp & _ & _ & Hx & _ & _ & _ & Htop & _).
  exists g', p'. split; [exact Hm |]. split; [exact Hp |].
  split; [exact Hx |]. exact (Htop eq_refl).
Defined.

(** ** The direction of a launch *)

Lemma handle_height e g g' :
  keepsHeight (height g) e -> handle e g = Ok g' -> height g' = height g.
Proof.
  intros Hk He. destruct e as [rnd x y id | x y id | id | now | w h]; cbn in He.
  - revert He. unfold handleStart.
    repeat case_decide; try by intros [= <-].
    destruct (findIndex _ _) as [i|]; [| by intros [= <-]].
    destruct (pucks g !! i) as [p|]; [| discriminate].
    cbv zeta. case_decide; by intros [= <-].
  - revert He. unfold handleMove.
    destruct (activeTouches g !! id) as [t|]; [| by intros [= <-]].
    destruct (pucks g !! puckIndex t) as [p|]; [| discriminate].
    by intros [= <-].
  - revert He. unfold handleEnd.
    destruct (activeTouches g !! id) as [t|]; [| by intros [= <-]].
    destruct (pucks g !! puckIndex t) as [p|].
    + intros H. apply bind_ok_inv in H as (p' & _ & H). by injection H as <-.
    + destruct (anchor t); [discriminate | by intros [= <-]].
  - revert He. unfold update. case_decide as Hst; [by intros [= <-] |].
    intros H. apply bind_ok_inv in H as (ps & _ & H). injection H as <-.
    by destruct (winCondition_fields now
      (countSides (height g) (applyFriction (activeTouches g) ps)).1
      (countSides (height g) (applyFriction (activeTouches g) ps)).2
      (game_set_pucks g (applyFriction (activeTouches g) ps)))
      as (_ & _ & _ & ->).
  - injection He as <-. exact Hk.
Qed.

Lemma handleStart_anchorsOk rnd x y id g g' :
  anchorsOk g -> handleStart rnd x y id g = Ok g' -> anchorsOk g'.
Proof.
  intros Hok. destruct (decide (gameState g = Playing)) as [Hst | Hst].
  2:{ rewrite handleStart_not_playing by done. intros [= <-].
      intros id' t a p Ht. cbn in Ht. by rewrite lookup_empty in Ht. }
  destruct (activeTouches g !! id) as [t0|] eqn:Hid.
  { rewrite handleStart_active by done. by intros [= <-]. }
  destruct (findIndex (hitTest (activeTouches g) x y) (pucks g)) as [i|] eqn:Hf.
  2:{ rewrite handleStart_not_found by done. by intros [= <-]. }
  pose proof Hf as Hf'. apply findIndex_Some in Hf' as (p & Hp & _).
  rewrite (handleStart_found rnd x y id g i p) by done.
  case_decide; [| by intros [= <-]]. intros [= <-].
  intros id' t a q. unfold claim. cbn.
  destruct (decide (id' = id)) as [-> | Hne].
  - rewrite lookup_insert_eq. by intros [= <-].
  - rewrite lookup_insert_ne by done. intros Ht Ha.
    destruct (decide (puckIndex t = i)) as [Hi | Hi].
    + rewrite Hi, list_lookup_insert_eq by (by eapply lookup_lt_Some).
      intros [= <-]. rewrite <- Hi in Hp. exact (Hok id' t a p Ht Ha Hp).
    + rewrite list_lookup_insert_ne by done. intros Hq.
      exact (Hok id' t a q Ht Ha Hq).
Qed.

Lemma handleMove_anchorsOk x y id g g' :
  sessionsOk g -> anchorsOk g -> handleMove x y id g = Ok g' -> anchorsOk g'.
Proof.
  intros Hs Hok. destruct (activeTouches g !! id) as [t|] eqn:Ht.
  2:{ unfold handleMove. rewrite Ht. by intros [= <-]. }
  destruct (sess_range g Hs id t Ht) as [p Hp].
  destruct (handleMove_result x y id g t p Ht Hp) as (a' & -> & Hon & Hoff).
  intros [= <-]. intros id' t' a q. cbn.
  destruct (decide (id' = id)) as [-> | Hne].
  - rewrite lookup_insert_eq. intros [= <-]. cbn.
    rewrite list_lookup_insert_eq by (by eapply lookup_lt_Some).
    intros Ha [= <-].
    destruct (decide (beyondBand (height g) (side t)
                (puck_y (puck_set_pos p x (dragLimit (height g) (side t) y)))))
      as [Hb | Hb].
    + split; [| exact Hb]. rewrite (Hon Hb) in Ha. injection Ha as <-.
      destruct (anchor t) as [a0|] eqn:Ha0; [| done]. cbn.
      by destruct (Hok id t a0 p Ht Ha0 Hp).
    + rewrite (Hoff Hb) in Ha. discriminate.
  - rewrite lookup_insert_ne by done. intros Ht' Ha.
    rewrite list_lookup_insert_ne.
    + intros Hq. exact (Hok id' t' a q Ht' Ha Hq).
    + intros Heq. apply Hne. symmetry. by eapply (sess_unique g Hs).
Qed.

Lemma handleEnd_anchorsOk id g g' :
  sessionsOk g -> anchorsOk g -> handleEnd id g = Ok g' -> anchorsOk g'.
Proof.
  intros Hs Hok. unfold handleEnd.
  destruct (activeTouches g !! id) as [t|] eqn:Ht; [| by intros [= <-]].
  destruct (sess_range g Hs id t Ht) as [p Hp]. rewrite Hp.
  intros H. apply bind_ok_inv in H as (p' & _ & H). injection H as <-.
  intros id' t' a q. cbn.
  destruct (decide (id' = id)) as [-> | Hne].
  - by rewrite lookup_delete_eq.
  - rewrite lookup_delete_ne by done. intros Ht' Ha.
    rewrite list_lookup_insert_ne.
    + intros Hq. exact (Hok id' t' a q Ht' Ha Hq).
    + intros Heq. apply Hne. symmetry. by eapply (sess_unique g Hs).
Qed.

Lemma update_anchorsOk now g g' :
  anchorsOk g -> update now g = Ok g' -> anchorsOk g'.
Proof.
  intros Hok H.
  pose proof (handle_height (EFrame now) g g' I H) as Hh.
  apply update_unchanged in H as [Ht [_ Hkeep]].
  intros id t a p. rewrite Ht, Hh. intros Hid Ha.
  rewrite Hkeep by (apply isDragged_true; eauto). intros Hp.
  exact (Hok id t a p Hid Ha Hp).
Qed.

Lemma run_anchorsOk h evs g g' :
  Forall (keepsHeight h) evs -> height g = h ->
  sessionsOk g -> anchorsOk g -> run evs g = Ok g' ->
  height g' = h /\ sessionsOk g' /\ anchorsOk g'.
Proof.
  unfold run. revert g. induction evs as [|e evs IH]; intros g Hk Hh Hs Hok H;
    cbn in H.
  { by injection H as <-. }
  apply Forall_cons in Hk as [Hke Hk].
  apply bind_ok_inv in H as (g1 & H1 & H2).
  rewrite <- Hh in Hke.
  apply (IH g1); [done | | | | done].
  - rewrite <- Hh. by eapply handle_height.
  - eapply step_sessionsOk; [done | by exists e].
  - destruct e as [rnd x y id | x y id | id | now | w0 h0]; cbn in H1.
    + by eapply handleStart_anchorsOk.
    + by eapply handleMove_anchorsOk.
    + by eapply handleEnd_anchorsOk.
    + by eapply update_anchorsOk.
    + injection H1 as <-. cbn in Hke. intros id t a p. cbn. rewrite Hke.
      intros Hid Ha Hp. exact (Hok id t a p Hid Ha Hp).
Qed.

(** X14.  In a match played on a canvas whose height does not change, the
    release of an anchored session sends the puck towards the wall:
    downwards from the top side, upwards from the bottom side. *)
Theorem launch_toward_wall (w h cw : R) (evs : list event) (g : game)
    (id : touchId) (t : touch) (a : point) :
  Forall (keepsHeight h) evs ->
  run evs (initial w h cw) = Ok g ->
  activeTouches g !! id = Some t -> anchor t = Some a ->
  exists g' p',
    handleEnd id g = Ok g' /\ pucks g' !! puckIndex t = Some p' /\
    match side t with
    | SideTop => puck_vy p' > 0
    | SideBottom => puck_vy p' < 0
    end.
Proof.
  intros Hk Hrun Ht Ha.
  destruct (run_anchorsOk h evs (initial w h cw) g Hk eq_refl) as (Hh & Hs & Hok);
    [by apply sessionsOk_no_touches | | done |].
  { intros id' t' a' p'. cbn. by rewrite lookup_empty. }
  destruct (sess_range g Hs id t Ht) as [p Hp].
  destruct (Hok id t a p Ht Ha Hp) as [Hay Hb].
  destruct (shoot_spec a p) as (p' & Hshoot & _ & _ & Hslow & Hfast).
  exists (game_set_pucks (game_set_touches g (delete id (activeTouches g)))
            (<[puckIndex t := p']> (pucks g))), p'.
  split; [| split].
  - unfold handleEnd. rewrite Ht, Hp, Ha, Hshoot. done.
  - cbn. apply list_lookup_insert_eq. by eapply lookup_lt_Some.
  - assert (Hv : exists k, 0 < k /\
                   puck_vy p' = k * ((pt_y a - puck_y p) * DRAG_FORCE)).
    { destruct (Rle_or_lt
        (sqrt (((pt_x a - puck_x p) * DRAG_FORCE) * ((pt_x a - puck_x p) * DRAG_FORCE)
               + ((pt_y a - puck_y p) * DRAG_FORCE) * ((pt_y a - puck_y p) * DRAG_FORCE)))
        MAX_SPEED) as [Hle | Hgt].
      - destruct (Hslow Hle) as [_ ->]. exists 1. lra.
      - destruct (Hfast Hgt) as (_ & k & Hk0 & _ & ->). by exists k. }
    destruct Hv as (k & Hk0 & ->). unfold DRAG_FORCE.
    unfold bandY, beyondBand in *. destruct (side t); nra.
Qed.

Lemma launch_toward_wall_witness :
  exists g g' p',
    run [EStart grid 0 0 MouseId; EStart grid 110 200 MouseId;
         EMove 110 100 MouseId] (initial 400 800 400) = Ok g /\
    handleEnd MouseId g = Ok g' /\ pucks g' !! 0%nat = Some p' /\
    puck_vy p' > 0.
Proof.
  destruct (handleMove_result 110 100 MouseId pressed_game
              (mkTouch 0 110 200 110 200 None SideTop)
              (mkPuck 0 110 200 0 0 "#00ff00")
              (lookup_singleton_eq _ _) eq_refl) as (a' & Hm & Hon & _).
  cbv zeta in Hm.
  match type of Hm with _ = Ok ?g0 => set (g := g0) in * end.
  assert (Ha : a' = Some (mkPoint 110 (bandY 800 SideTop))).
  { apply Hon. cbn [side height pressed_game grid_game puck_y puck_set_pos].
    unfold beyondBand, dragLimit, PUCK_RADIUS. rewrite Rmin_left; lra. }
  assert (Hrun : run [EStart grid 0 0 MouseId; EStart grid 110 200 MouseId;
                      EMove 110 100 MouseId] (initial 400 800 400) = Ok g).
  { change [EStart grid 0 0 MouseId; EStart grid 110 200 MouseId;
            EMove 110 100 MouseId]
      with ([EStart grid 0 0 MouseId; EStart grid 110 200 MouseId]
              ++ [EMove 110 100 MouseId]).
    rewrite run_app, pressed_game_run, bind_ok. unfold run. cbn [foldM handle].
    by rewrite Hm, bind_ok. }
  destruct (launch_toward_wall 400 800 400
              [EStart grid 0 0 MouseId; EStart grid 110 200 MouseId;
               EMove 110 100 MouseId] g MouseId
              (mkTouch 0 110 200 110 100 a' SideTop)
              (mkPoint 110 (bandY 800 SideTop)))
    as (g' & p' & He & Hp & Hv);
    [by repeat constructor | exact Hrun | apply lookup_insert_eq | exact Ha |].
  by exists g, g', p'.
Defined.

(** ** Cancelled and lifted touches *)

Lemma handleEnd_effect id g :
  sessionsOk g ->
  exists g',
    handleEnd id g = Ok g' /\
    activeTouches g' = delete id (activeTouches g) /\
    (forall i p, pucks g !! i = Some p ->
       exists p', pucks g' !! i = Some p' /\
                  puck_x p' = puck_x p /\ puck_y p' = puck_y p /\
                  ((forall t, activeTouches g !! id = Some t -> puckIndex t <> i) ->
                   p' = p)).
Proof.
  intros Hok. unfold handleEnd.
  destruct (activeTouches g !! id) as [t|] eqn:Ht.
  2:{ eexists. split; [done |]. split; [by rewrite delete_id |].
      intros i p Hp. by exists p. }
  destruct (sess_range g Hok id t Ht) as [p0 Hp0]. rewrite Hp0.
  assert (Hs : exists p1, (match anchor t with
                          | Some a => shoot a p0
                          | None => Ok p0
                          end) = Ok p1 /\
                         puck_x p1 = puck_x p0 /\ puck_y p1 = puck_y p0).
  { destruct (anchor t) as [a|]; [| by exists p0].
    destruct (shoot_spec a p0) as (p1 & H1 & Hx & Hy & _). by exists p1. }
  destruct Hs as (p1 & -> & Hx & Hy). rewrite bind_ok.
  eexists. split; [done |]. split; [done |].
  intros i p Hp. cbn. destruct (decide (i = puckIndex t)) as [-> | Hne].
  - rewrite list_lookup_insert_eq by (by eapply lookup_lt_Some).
    exists p1. assert (p = p0) as -> by congruence.
    repeat split; try done. intros Hfree. by destruct (Hfree t eq_refl).
  - rewrite list_lookup_insert_ne by done. by exists p.
Qed.

(** X15.  A [touchcancel] (or a [touchend]) ends the session of every touch
    it lists and no other, whatever the state of the match: no puck
    stays held by a touch that is gone.  The pucks stay where they are,
    and those that were not held by a listed touch are not changed. *)
Theorem onTouchCancel_releases (changedTouches : list touchPoint) (g : game) :
  sessionsOk g ->
  exists g',
    onTouchCancel changedTouches g = Ok g' /\
    onTouchEnd changedTouches g = Ok g' /\
    (forall id,
       activeTouches g' !! id =
         if decide (id ∈ (fun t => TouchId (identifier t)) <$> changedTouches)
         then None else activeTouches g !! id) /\
    (forall i p, pucks g !! i = Some p ->
       exists p', pucks g' !! i = Some p' /\
                  puck_x p' = puck_x p /\ puck_y p' = puck_y p /\
                  ((forall id t,
                      id ∈ (fun t => TouchId (identifier t)) <$> changedTouches ->
                      activeTouches g !! id = Some t -> puckIndex t <> i) ->
                   p' = p)) /\
    sessionsOk g'.
Proof.
  unfold onTouchEnd, onTouchCancel. revert g.
  induction changedTouches as [|t ts IH]; intros g Hok.
  { exists g. split; [done |]. split; [done |]. split; [| split; [| done]].
    - intros id. rewrite fmap_nil.
      rewrite decide_False; [done | by intros ?%elem_of_nil].
    - intros i p Hp. by exists p. }
  destruct (handleEnd_effect (TouchId (identifier t)) g Hok)
    as (g1 & H1 & Ht1 & Hp1).
  pose proof (handleEnd_sessionsOk _ _ _ Hok H1) as Hok1.
  destruct (IH g1 Hok1) as (g' & Hrun & _ & Ht' & Hp' & Hok').
  exists g'. cbn [foldM]. rewrite H1, bind_ok.
  split; [done |]. split; [done |]. split; [| split; [| done]].
  - intros id. rewrite Ht', Ht1, fmap_cons.
    destruct (decide (id = TouchId (identifier t))) as [-> | Hne].
    + rewrite (decide_True (P := _ ∈ _ :: _)) by apply list_elem_of_here.
      rewrite lookup_delete_eq. by case_decide.
    + rewrite lookup_delete_ne by done.
      destruct (decide (id ∈ (fun t0 => TouchId (identifier t0)) <$> ts)).
      * by rewrite decide_True by (by apply list_elem_of_further).
      * rewrite decide_False; [done |].
        by intros [? | ?]%elem_of_cons.
  - intros i p Hp. destruct (Hp1 i p Hp) as (p1 & Hq1 & Hx1 & Hy1 & Hsame1).
    destruct (Hp' i p1 Hq1) as (p' & Hq' & Hx' & Hy' & Hsame').
    exists p'. split; [done |]. split; [congruence |]. split; [congruence |].
    intros Hfree. rewrite Hsame', Hsame1; [done | |].
    + intros t0 Ht0. eapply Hfree; [| done]. rewrite fmap_cons.
      apply list_elem_of_here.
    + intros id t0 Hid Ht0. rewrite Ht1 in Ht0.
      apply lookup_delete_Some in Ht0 as [_ Ht0].
      eapply Hfree; [| done]. rewrite fmap_cons. by apply list_elem_of_further.
Qed.

Lemma onTouchCancel_releases_witness :
  exists g',
    onTouchCancel [mkTouchPoint 110 200 7] touched_game = Ok g' /\
    activeTouches g' !! TouchId 7 = None.
Proof.
  destruct (onTouchCancel_releases [mkTouchPoint 110 200 7] touched_game
              touched_game_sessionsOk) as (g' & Hc & _ & Ht & _).
  exists g'. split; [exact Hc |]. rewrite Ht.
  apply decide_True. rewrite fmap_cons. apply list_elem_of_here.
Defined.

(** ** The segments of the wall *)

Lemma sort2_spec h1 h2 :
  (sort2 h1 h2).1 = Rmin h1 h2 /\ (sort2 h1 h2).2 = Rmax h1 h2.
Proof.
  unfold sort2, Rmin, Rmax. case_decide; destruct (Rle_dec h1 h2); cbn; split; lra.
Qed.

(** X16.  [getWallSegments] fails in one case only: a moving level on a
    canvas of width 0, where [375 / width] is not finite. *)
Theorem getWallSegments_fails_iff (now : Z) (g : game) (e : error) :
  getWallSegments now g = Err e <->
  e = NonFinite /\ width g = 0 /\ currentLevel g <> 0%nat /\
  currentLevel g <> 2%nat.
Proof.
  split.
  - intros H. split; [by eapply getWallSegments_error |].
    revert H. unfold getWallSegments. cbv zeta.
    destruct (decide (width g = 0)) as [Hw | Hw].
    + repeat case_decide; try discriminate; intros _; (split; [done |]); lia.
    + unfold getOffset. rewrite !jsdiv_ok by done.
      repeat case_decide; discriminate.
  - intros (-> & Hw & H1 & H3). unfold getWallSegments. cbv zeta.
    rewrite decide_False by lia. unfold getOffset. rewrite Hw, !jsdiv_zero.
    case_decide; [done |]. rewrite decide_False by lia.
    case_decide; [done | lia].
Qed.

Lemma sin_scaled_bound (a r : R) : 0 <= r -> - r <= sin a * r <= r.
Proof. intros Hr. pose proof (SIN_bound a). split; nra. Qed.

(** The list by level, for a canvas whose width is not 0. *)
Lemma getWallSegments_cases now g :
  width g <> 0 ->
  let c := width g / 2 in
  (currentLevel g = 0%nat /\
   getWallSegments now g =
     Ok [mkSegment 0 (c - HOLE_WIDTH / 2); mkSegment (c + HOLE_WIDTH / 2) (width g)])
  \/ ((currentLevel g = 1%nat \/ currentLevel g = 4%nat) /\
      exists o, (0 <= width g -> - (width g * 0.22) <= o <= width g * 0.22) /\
        getWallSegments now g =
          Ok [mkSegment 0 (c + o - HOLE_WIDTH / 2);
              mkSegment (c + o + HOLE_WIDTH / 2) (width g)])
  \/ (currentLevel g = 2%nat /\
      getWallSegments now g =
        Ok [mkSegment 0 (c - GAP_OFFSET (clientWidth g) - HOLE_WIDTH / 2);
            mkSegment (c - GAP_OFFSET (clientWidth g) + HOLE_WIDTH / 2)
                      (c + GAP_OFFSET (clientWidth g) - HOLE_WIDTH / 2);
            mkSegment (c + GAP_OFFSET (clientWidth g) + HOLE_WIDTH / 2) (width g)])
  \/ ((currentLevel g = 3%nat \/ (5 <= currentLevel g)%nat) /\
      exists l r, l <= r /\
        (0 <= width g -> c - width g * 0.35 <= l /\ r <= c + width g * 0.35) /\
        getWallSegments now g =
          Ok [mkSegment 0 (l - HOLE_WIDTH / 2);
              mkSegment (l + HOLE_WIDTH / 2) (r - HOLE_WIDTH / 2);
              mkSegment (r + HOLE_WIDTH / 2) (width g)]).
Proof.
  intros Hw c. unfold getWallSegments. cbv zeta. fold c.
  case_decide as H1; [left; split; [lia | done] |].
  case_decide as H2.
  { right; left. split; [lia |]. unfold getOffset.
    rewrite jsdiv_ok by done. rewrite bind_ok.
    eexists. split; [| reflexivity].
    intros Hw0. apply sin_scaled_bound. lra. }
  case_decide as H3; [right; right; left; split; [lia | done] |].
  case_decide as H4; [| lia].
  right; right; right. split; [lia |].
  unfold getOffset. rewrite !jsdiv_ok by done. rewrite !bind_ok.
  match goal with
  | |- context [sort2 ?a ?b] =>
      destruct (sort2_spec a b) as [Hl Hr]; exists (Rmin a b), (Rmax a b);
      rewrite Hl, Hr
  end.
  split; [| split; [| done]].
  - unfold Rmin, Rmax. case_match; lra.
  - intros Hw0.
    match goal with
    | |- context [Rmin (c + sin ?a * ?r) (c + sin ?b * ?r)] =>
        pose proof (sin_scaled_bound a r ltac:(lra));
        pose proof (sin_scaled_bound b r ltac:(lra))
    end.
    unfold Rmin, Rmax. case_match; lra.
Qed.

(** X17.  On a canvas whose width is not 0 the list describes the whole width
    of the arena with one opening (levels 1, 2 and 5) or two (the other
    levels): it starts at 0, ends at [width], and from the end of a
    segment to the start of the next there are [HOLE_WIDTH] pixels,
    at every instant. *)
Theorem getWallSegments_openings (now : Z) (g : game) :
  width g <> 0 ->
  exists segs first last,
    getWallSegments now g = Ok segs /\
    length segs =
      (if decide (currentLevel g = 0 \/ currentLevel g = 1 \/ currentLevel g = 4)%nat
       then 2%nat else 3%nat) /\
    head segs = Some first /\ seg_start first = 0 /\
    list.last segs = Some last /\ seg_end last = width g /\
    forall i s s', segs !! i = Some s -> segs !! S i = Some s' ->
                   seg_start s' - seg_end s = HOLE_WIDTH.
Proof.
  intros Hw.
  destruct (getWallSegments_cases now g Hw)
    as [[Hl ->] | [[Hl (o & _ & ->)] | [[Hl ->] | [Hl (l & r & _ & _ & ->)]]]];
    eexists _, _, _; (split; [reflexivity |]);
    (split; [case_decide; [done || lia | done || lia] |]);
    (split; [reflexivity |]); (split; [reflexivity |]);
    (split; [reflexivity |]); (split; [reflexivity |]);
    intros i s s' Hs Hs';
    repeat (destruct i as [|i]; [injection Hs as <-; injection Hs' as <-;
                                 cbn [seg_start seg_end]; lra |]);
    done.
Qed.

Lemma getWallSegments_openings_witness :
  exists segs first last,
    getWallSegments 0 overlap_game = Ok segs /\
    length segs = 3%nat /\
    head segs = Some first /\ seg_start first = 0 /\
    list.last segs = Some last /\ seg_end last = 375 /\
    forall i s s', segs !! i = Some s -> segs !! S i = Some s' ->
                   seg_start s' - seg_end s = HOLE_WIDTH.
Proof.
  apply (getWallSegments_openings 0 overlap_game).
  cbn [width overlap_game]. lra.
Defined.

(** X18.  On a canvas wide enough for the swing of the gaps (15 percent of
    the width is at least half of [HOLE_WIDTH]: 334 pixels or more), the
    oscillating gaps of the moving levels never leave the arena: every
    segment lies between 0 and [width], and the first and the last one
    are never degenerate. *)
Theorem getWallSegments_gaps_inside (now : Z) (g : game) :
  currentLevel g <> 0%nat -> currentLevel g <> 2%nat ->
  HOLE_WIDTH / 2 <= 0.15 * width g ->
  exists segs first last,
    getWallSegments now g = Ok segs /\
    Forall (fun s => 0 <= seg_start s <= width g /\ 0 <= seg_end s <= width g)
           segs /\
    head segs = Some first /\ seg_start first <= seg_end first /\
    list.last segs = Some last /\ seg_start last <= seg_end last.
Proof.
  unfold HOLE_WIDTH. intros H1 H3 Hwide.
  assert (Hw : width g <> 0) by lra.
  assert (Hw0 : 0 <= width g) by lra.
  destruct (getWallSegments_cases now g Hw)
    as [[Hl _] | [[Hl (o & Ho & ->)] | [[Hl _] | [Hl (l & r & Hlr & Hb & ->)]]]];
    [done | | done |].
  - specialize (Ho Hw0). eexists _, _, _. split; [reflexivity |].
    split; [| split; [reflexivity |]; split; [| split; [reflexivity |]]];
      unfold HOLE_WIDTH; cbn [seg_start seg_end]; [| lra | lra].
    repeat (apply Forall_cons; split;
            [cbn [seg_start seg_end]; repeat split; lra |]).
    constructor.
  - specialize (Hb Hw0). eexists _, _, _. split; [reflexivity |].
    split; [| split; [reflexivity |]; split; [| split; [reflexivity |]]];
      unfold HOLE_WIDTH; cbn [seg_start seg_end]; [| lra | lra].
    repeat (apply Forall_cons; split;
            [cbn [seg_start seg_end]; repeat split; lra |]).
    constructor.
Qed.

Lemma getWallSegments_gaps_inside_witness :
  exists segs first last,
    getWallSegments 1000 overlap_game = Ok segs /\
    Forall (fun s => 0 <= seg_start s <= 375 /\ 0 <= seg_end s <= 375) segs /\
    head segs = Some first /\ seg_start first <= seg_end first /\
    list.last segs = Some last /\ seg_start last <= seg_end last.
Proof.
  apply (getWallSegments_gaps_inside 1000 overlap_game);
    [done | done | unfold HOLE_WIDTH; cbn [width overlap_game]; lra].
Defined.

(** ** Obstacles *)

(** X19.  There are obstacles from level 5 on, and then two of them: discs of
    radius 13 on the vertical centre line, mirror images of each other
    in the midline, each halfway between the midline and the band line
    of its side.  On a canvas at least 132 high they touch neither the
    wall nor a band line. *)
Theorem getObstacles_placement (g : game) :
  ((currentLevel g < 4)%nat -> getObstacles g = []) /\
  ((4 <= currentLevel g)%nat ->
   exists top bottom,
     getObstacles g = [top; bottom] /\
     obs_x top = width g / 2 /\ obs_x bottom = width g / 2 /\
     obs_radius top = 13 /\ obs_radius bottom = 13 /\
     obs_y top = (height g / 2 + bandY (height g) SideTop) / 2 /\
     obs_y bottom = (height g / 2 + bandY (height g) SideBottom) / 2 /\
     obs_y top + obs_y bottom = height g /\
     (132 <= height g ->
      bandY (height g) SideTop < obs_y top - obs_radius top /\
      obs_y top + obs_radius top < height g / 2 - WALL_THICKNESS / 2 /\
      height g / 2 + WALL_THICKNESS / 2 < obs_y bottom - obs_radius bottom /\
      obs_y bottom + obs_radius bottom < bandY (height g) SideBottom)).
Proof.
  unfold getObstacles. cbv zeta. split; intros Hl.
  - rewrite decide_False by lia. done.
  - rewrite decide_True by lia. eexists _, _. split; [reflexivity |].
    unfold bandY, WALL_THICKNESS. cbn [obs_x obs_y obs_radius].
    repeat split; lra.
Qed.

(** ** The score display *)

Lemma append_assoc (a b c : string) : (a +:+ b) +:+ c = a +:+ (b +:+ c).
Proof.
  induction a as [|x a IH]; [reflexivity |].
  change (String x ((a +:+ b) +:+ c) = String x (a +:+ (b +:+ c))).
  by rewrite IH.
Qed.

Lemma append_empty_r (a : string) : a +:+ EmptyString = a.
Proof.
  induction a as [|x a IH]; [reflexivity |].
  change (String x (a +:+ EmptyString) = String x a). by rewrite IH.
Qed.

Lemma appendTimes_times n piece html :
  appendTimes n piece html = html +:+ times n piece.
Proof.
  revert html. induction n as [|n IH]; intros html.
  - change (html = html +:+ EmptyString). by rewrite append_empty_r.
  - change (appendTimes n piece (html +:+ piece)
            = html +:+ (piece +:+ times n piece)).
    by rewrite IH, append_assoc.
Qed.

(** The markup as one concatenation. *)
Lemma renderTallyHTML_pieces count :
  renderTallyHTML count =
    times (count / 5)%nat blockHTML +:+
    (if decide (0 < count mod 5)%nat
     then divOpen "tally-block" +:+ (times (count mod 5)%nat markHTML +:+ divClose)
     else EmptyString).
Proof.
  unfold renderTallyHTML. cbv zeta. rewrite !appendTimes_times.
  change (EmptyString +:+ times (count / 5)%nat blockHTML)
    with (times (count / 5)%nat blockHTML).
  case_decide as Hr; [| by rewrite append_empty_r].
  by rewrite !append_assoc.
Qed.

Lemma occurrences_times pat piece k n s :
  (forall s', occurrences pat (piece +:+ s') = (k + occurrences pat s')%nat) ->
  occurrences pat (times n piece +:+ s) = (n * k + occurrences pat s)%nat.
Proof.
  intros Hp. induction n as [|n IH]; [reflexivity |].
  change (times (S n) piece) with (piece +:+ times n piece).
  rewrite append_assoc, Hp, IH. lia.
Qed.

(** What each piece adds to a count, whatever follows it. *)
Lemma pieces_count (s : string) :
  (occurrences markHTML (blockHTML +:+ s) = (4 + occurrences markHTML s)%nat /\
   occurrences markHTML (divOpen "tally-block" +:+ s) = (0 + occurrences markHTML s)%nat /\
   occurrences markHTML (markHTML +:+ s) = (1 + occurrences markHTML s)%nat /\
   occurrences markHTML (divClose +:+ s) = (0 + occurrences markHTML s)%nat) /\
  (occurrences slashHTML (blockHTML +:+ s) = (1 + occurrences slashHTML s)%nat /\
   occurrences slashHTML (divOpen "tally-block" +:+ s) = (0 + occurrences slashHTML s)%nat /\
   occurrences slashHTML (markHTML +:+ s) = (0 + occurrences slashHTML s)%nat /\
   occurrences slashHTML (divClose +:+ s) = (0 + occurrences slashHTML s)%nat) /\
  (occurrences (divOpen "tally-block") (blockHTML +:+ s)
     = (1 + occurrences (divOpen "tally-block") s)%nat /\
   occurrences (divOpen "tally-block") (divOpen "tally-block" +:+ s)
     = (1 + occurrences (divOpen "tally-block") s)%nat /\
   occurrences (divOpen "tally-block") (markHTML +:+ s)
     = (0 + occurrences (divOpen "tally-block") s)%nat /\
   occurrences (divOpen "tally-block") (divClose +:+ s)
     = (0 + occurrences (divOpen "tally-block") s)%nat) /\
  (occurrences "<div " (blockHTML +:+ s) = (6 + occurrences "<div " s)%nat /\
   occurrences "<div " (divOpen "tally-block" +:+ s) = (1 + occurrences "<div " s)%nat /\
   occurrences "<div " (markHTML +:+ s) = (1 + occurrences "<div " s)%nat /\
   occurrences "<div " (divClose +:+ s) = (0 + occurrences "<div " s)%nat) /\
  (occurrences divClose (blockHTML +:+ s) = (6 + occurrences divClose s)%nat /\
   occurrences divClose (divOpen "tally-block" +:+ s) = (0 + occurrences divClose s)%nat /\
   occurrences divClose (markHTML +:+ s) = (1 + occurrences divClose s)%nat /\
   occurrences divClose (divClose +:+ s) = (1 + occurrences divClose s)%nat).
Proof. repeat split; reflexivity. Qed.

Lemma occurrences_tally pat kb ko km kc count :
  (forall s, occurrences pat (blockHTML +:+ s) = (kb + occurrences pat s)%nat) ->
  (forall s, occurrences pat (divOpen "tally-block" +:+ s)
             = (ko + occurrences pat s)%nat) ->
  (forall s, occurrences pat (markHTML +:+ s) = (km + occurrences pat s)%nat) ->
  (forall s, occurrences pat (divClose +:+ s) = (kc + occurrences pat s)%nat) ->
  occurrences pat (renderTallyHTML count) =
    (count / 5 * kb +
     (if decide (0 < count mod 5) then ko + count mod 5 * km + kc else 0))%nat.
Proof.
  intros Hb Ho Hm Hc. rewrite renderTallyHTML_pieces.
  rewrite (occurrences_times pat blockHTML kb) by done.
  case_decide; [| done].
  rewrite Ho, (occurrences_times pat markHTML km) by done.
  rewrite <- (append_empty_r divClose), Hc. cbn [occurrences]. lia.
Qed.

Lemma renderTallyHTML_readTally count : readTally (renderTallyHTML count) = count.
Proof.
  unfold readTally.
  rewrite (occurrences_tally markHTML 4 0 1 0), (occurrences_tally slashHTML 1 0 0 0)
    by (intros s; apply (pieces_count s)).
  pose proof (Nat.div_mod_eq count 5). case_decide; lia.
Qed.

(** X20.  The score can be read back from the page: the markup written for a
    player holds as many strokes, slashes included, as the player has
    wins. *)
Theorem updateScoreUI_round_trip (g : game) :
  readTally (updateScoreUI g).1 = topWins g /\
  readTally (updateScoreUI g).2 = bottomWins g.
Proof. split; apply renderTallyHTML_readTally. Qed.

(** X21.  The tally of [count] wins is made of blocks of five, the last one
    possibly short: one block for every five wins begun, a slash for
    every five wins completed, a stroke for each other win, and as many
    closing tags as opening ones.  No win gives the empty markup. *)
Theorem renderTallyHTML_blocks (count : nat) :
  occurrences (divOpen "tally-block") (renderTallyHTML count)
    = ((count + 4) / 5)%nat /\
  occurrences slashHTML (renderTallyHTML count) = (count / 5)%nat /\
  occurrences markHTML (renderTallyHTML count) = (count - count / 5)%nat /\
  occurrences "<div " (renderTallyHTML count)
    = occurrences divClose (renderTallyHTML count) /\
  (renderTallyHTML count = EmptyString <-> count = 0%nat).
Proof.
  rewrite (occurrences_tally (divOpen "tally-block") 1 1 0 0),
    (occurrences_tally slashHTML 1 0 0 0),
    (occurrences_tally markHTML 4 0 1 0),
    (occurrences_tally "<div " 6 1 1 0),
    (occurrences_tally divClose 6 0 1 1)
    by (intros s; apply (pieces_count s)).
  pose proof (Nat.div_mod_eq count 5) as Hdm.
  pose proof (Nat.mod_upper_bound count 5 ltac:(lia)) as Hm.
  split; [| split; [| split; [| split]]].
  - assert (Hq : ((count + 4) / 5 =
                  count / 5 + (if decide (0 < count mod 5) then 1 else 0))%nat).
    { case_decide.
      - symmetry. apply (Nat.div_unique _ 5 _ (count mod 5 - 1)%nat); lia.
      - symmetry. apply (Nat.div_unique _ 5 _ 4%nat); lia. }
    rewrite Hq. case_decide; lia.
  - case_decide; lia.
  - case_decide; lia.
  - case_decide; lia.
  - split.
    + intros Hnil. apply (f_equal readTally) in Hnil.
      by rewrite renderTallyHTML_readTally in Hnil.
    + by intros ->.
Qed.

(** ** Level transitions *)

Lemma easeOutQuad_unit (t : R) :
  0 <= t <= 1 -> 0 <= Transitions.easeOutQuad t <= 1.
Proof. unfold Transitions.easeOutQuad. intros [H0 H1]. split; nra. Qed.

Lemma lerpHole_0 h1 h2 : Transitions.lerpHole h1 h2 0 = h1.
Proof.
  destruct h1. unfold Transitions.lerpHole, Transitions.lerp.
  cbn [Transitions.hp_baseOffset Transitions.speedFactor Transitions.rangeFactor Transitions.phase].
  f_equal; lra.
Qed.

Lemma lerpHole_1 h1 h2 : Transitions.lerpHole h1 h2 1 = h2.
Proof.
  destruct h2. unfold Transitions.lerpHole, Transitions.lerp.
  cbn [Transitions.hp_baseOffset Transitions.speedFactor Transitions.rangeFactor Transitions.phase].
  f_equal; lra.
Qed.

Lemma lerpHole_same h t : Transitions.lerpHole h h t = h.
Proof.
  destruct h. unfold Transitions.lerpHole, Transitions.lerp.
  cbn [Transitions.hp_baseOffset Transitions.speedFactor Transitions.rangeFactor Transitions.phase].
  f_equal; lra.
Qed.

Lemma progress_unit time start : 0 <= progress time start <= 1.
Proof.
  unfold progress. cbv zeta. apply easeOutQuad_unit.
  destruct (decide (_ > 1)); destruct (decide (_ < 0)); lra.
Qed.

Lemma progress_before time start : (time <= start)%Z -> progress time start = 0.
Proof.
  intros H%IZR_le. unfold progress, Transitions.transitionDuration. cbv zeta.
  destruct (decide (_ > 1)) as [H1 | H1]; [lra |].
  destruct (decide (_ < 0)) as [H0 | H0]; unfold Transitions.easeOutQuad; [lra |].
  assert (IZR time = IZR start) as -> by lra. lra.
Qed.

Lemma progress_after time start :
  (start + 2000 <= time)%Z -> progress time start = 1.
Proof.
  intros H%IZR_le. rewrite plus_IZR in H.
  unfold progress, Transitions.transitionDuration. cbv zeta.
  destruct (decide (_ > 1)) as [H1 | H1];
    destruct (decide (_ < 0)) as [H0 | H0]; unfold Transitions.easeOutQuad; try lra.
  assert ((IZR time - IZR start) / 2000 = 1) as -> by lra. lra.
Qed.

Lemma getInterpolatedParams_progress time start G prev cur :
  Transitions.getInterpolatedParams time start G prev cur =
    let t := progress time start in
    let startConfig := Transitions.getLevelConfig G prev in
    let endConfig := Transitions.getLevelConfig G cur in
    Transitions.mkInterpolated
      (Transitions.lerpHole (Transitions.lc_holes startConfig).1 (Transitions.lc_holes endConfig).1 t,
       Transitions.lerpHole (Transitions.lc_holes startConfig).2 (Transitions.lc_holes endConfig).2 t)
      (Transitions.lerp (if Transitions.hasObstacles startConfig then 1.0 else 0.0)
               (if Transitions.hasObstacles endConfig then 1.0 else 0.0) t).
Proof. reflexivity. Qed.

Lemma getInterpolatedParams_after time start G prev cur :
  (start + 2000 <= time)%Z ->
  Transitions.getInterpolatedParams time start G prev cur
    = Transitions.settledParams (Transitions.getLevelConfig G cur).
Proof.
  intros H. rewrite getInterpolatedParams_progress. cbv zeta.
  rewrite (progress_after _ _ H), !lerpHole_1.
  unfold Transitions.settledParams. destruct (Transitions.getLevelConfig G cur)
    as [[h1 h2] o]. cbn [Transitions.lc_holes Transitions.hasObstacles fst snd].
  f_equal. unfold Transitions.lerp.
  destruct (Transitions.hasObstacles _), o; lra.
Qed.

(** X22.  The interpolated parameters are those of the previous level until
    the transition starts and those of the current level from 2000
    milliseconds later on; a restart on the same level has them all the
    way through.  In between the scale of the obstacles stays between 0
    and 1. *)
Theorem getInterpolatedParams_ends (time transitionStartTime : Z)
    (GAP_OFFSET : R) (previousLevel currentLevel : nat) :
  let params :=
    Transitions.getInterpolatedParams time transitionStartTime GAP_OFFSET
                             previousLevel currentLevel in
  ((time <= transitionStartTime)%Z ->
   params = Transitions.settledParams (Transitions.getLevelConfig GAP_OFFSET previousLevel)) /\
  ((transitionStartTime + 2000 <= time)%Z ->
   params = Transitions.settledParams (Transitions.getLevelConfig GAP_OFFSET currentLevel)) /\
  (previousLevel = currentLevel ->
   params = Transitions.settledParams (Transitions.getLevelConfig GAP_OFFSET currentLevel)) /\
  0 <= Transitions.ip_obsScale params <= 1.
Proof.
  cbv zeta. split; [| split; [apply getInterpolatedParams_after |]];
    rewrite getInterpolatedParams_progress; cbv zeta; [| split].
  - intros H. rewrite (progress_before _ _ H), !lerpHole_0.
    unfold Transitions.settledParams. destruct (Transitions.getLevelConfig GAP_OFFSET previousLevel)
      as [[h1 h2] o]. cbn [Transitions.lc_holes Transitions.hasObstacles fst snd].
    f_equal. unfold Transitions.lerp. destruct o; lra.
  - intros ->. rewrite !lerpHole_same.
    unfold Transitions.settledParams. destruct (Transitions.getLevelConfig GAP_OFFSET currentLevel)
      as [[h1 h2] o]. cbn [Transitions.lc_holes Transitions.hasObstacles fst snd].
    f_equal. unfold Transitions.lerp. destruct o; lra.
  - cbn [Transitions.ip_obsScale]. pose proof (progress_unit time transitionStartTime).
    unfold Transitions.lerp.
    destruct (Transitions.hasObstacles _), (Transitions.hasObstacles _); split; nra.
Qed.

Lemma loop_settled now time start w G prev cur ps :
  w <> 0 ->
  Transitions.getInterpolatedParams time start G prev cur
    = Transitions.settledParams (Transitions.getLevelConfig G cur) ->
  let c := Transitions.getLevelConfig G cur in
  exists ps' off1 off2,
    Transitions.loop now time start w G prev cur ps =
      Ok (ps',
          Transitions.mkParams
            (Transitions.mkHole (Transitions.hp_baseOffset (Transitions.lc_holes c).1) off1,
             Transitions.mkHole (Transitions.hp_baseOffset (Transitions.lc_holes c).2) off2)
            (if Transitions.hasObstacles c then 1 else 0)) /\
    (Transitions.rangeFactor (Transitions.lc_holes c).1 = 0 -> off1 = 0) /\
    (Transitions.rangeFactor (Transitions.lc_holes c).2 = 0 -> off2 = 0).
Proof.
  intros Hw Hp c. unfold Transitions.loop. cbv zeta. rewrite jsdiv_ok by done.
  rewrite bind_ok, Hp. unfold Transitions.settledParams. fold c.
  cbn [Transitions.ip_holes Transitions.ip_obsScale].
  eexists _, _, _. split; [reflexivity |].
  split; intros ->; lra.
Qed.

Lemma loop_static_result (now : R) (time start : Z) (w G : R) (prev cur : nat)
    (ps : Transitions.phaseState) :
  w <> 0 -> (start + 2000 <= time)%Z ->
  exists ps' st, Transitions.loop now time start w G prev cur ps = Ok (ps', st).
Proof.
  intros Hw Htime.
  pose proof (getInterpolatedParams_after time start G prev cur) as Hend.
  destruct (loop_settled now time start w G prev cur ps Hw (Hend Htime))
    as (ps' & off1 & off2 & Hl & _).
  eauto.
Qed.

(** X23.  Once a transition is over, the obstacles of the variant are the
    obstacles of [main.js] at the same level. *)
Theorem transition_obstacles_settled (now : R) (time transitionStartTime : Z)
    (GAP_OFFSET : R) (previousLevel : nat) (ps ps' : Transitions.phaseState)
    (st : Transitions.paramState) (g : game) :
  (transitionStartTime + 2000 <= time)%Z ->
  Transitions.loop now time transitionStartTime (width g) GAP_OFFSET previousLevel
          (currentLevel g) ps = Ok (ps', st) ->
  Transitions.getObstacles (width g) (height g) (Some st) = getObstacles g.
Proof.
  intros Htime Hloop.
  assert (Hw : width g <> 0).
  { intros Hw. revert Hloop. unfold Transitions.loop. cbv zeta.
    by rewrite Hw, jsdiv_zero. }
  pose proof (getInterpolatedParams_after time transitionStartTime GAP_OFFSET
                previousLevel (currentLevel g)) as Hend.
  destruct (loop_settled now time transitionStartTime (width g) GAP_OFFSET
              previousLevel (currentLevel g) ps Hw (Hend Htime))
    as (ps1 & off1 & off2 & Hl & _).
  rewrite Hl in Hloop. injection Hloop as _ <-.
  unfold Transitions.getObstacles, getObstacles, Transitions.getLevelConfig. cbv zeta.
  cbn [Transitions.obsScale].
  repeat case_decide; cbn [Transitions.hasObstacles] in *; try lia; try lra;
    try done.
  all: unfold WALL_THICKNESS; repeat (f_equal; try lra).
Qed.

Lemma transition_obstacles_settled_witness :
  exists ps' st,
    Transitions.loop 16 5000 0 400 100 3 4 (Transitions.mkPhaseState 0 (0, 0)) = Ok (ps', st) /\
    Transitions.getObstacles 400 800 (Some st) = getObstacles level5_game.
Proof.
  destruct (loop_static_result 16 5000 0 400 100 3 4 (Transitions.mkPhaseState 0 (0, 0)))
    as (ps' & st & Hl); [lra | lia |].
  exists ps', st. split; [exact Hl |].
  apply (transition_obstacles_settled 16 5000 0 100 3 (Transitions.mkPhaseState 0 (0, 0))
           ps' st level5_game); [lia | exact Hl].
Defined.

(** X24.  On a static level (1 or 3), once the transition is over, the wall of
    the variant is the wall of [main.js]: the same segments, at every
    instant. *)
Theorem transition_walls_settled (now : R) (time transitionStartTime : Z)
    (previousLevel : nat) (ps ps' : Transitions.phaseState)
    (st : Transitions.paramState) (g : game) (instant : Z) :
  (transitionStartTime + 2000 <= time)%Z ->
  currentLevel g = 0%nat \/
    currentLevel g = 2%nat /\
    HOLE_WIDTH / 2 < GAP_OFFSET (clientWidth g) /\
    GAP_OFFSET (clientWidth g) + HOLE_WIDTH / 2 < width g / 2 ->
  HOLE_WIDTH < width g ->
  Transitions.loop now time transitionStartTime (width g) (GAP_OFFSET (clientWidth g))
          previousLevel (currentLevel g) ps = Ok (ps', st) ->
  getWallSegments instant g = Ok (Transitions.getWallSegments (width g) (Some st)).
Proof.
  unfold HOLE_WIDTH. intros Htime Hlevel Hw Hloop.
  assert (Hw0 : width g <> 0) by lra.
  pose proof (getInterpolatedParams_after time transitionStartTime
                (GAP_OFFSET (clientWidth g)) previousLevel (currentLevel g))
    as Hend.
  destruct (loop_settled now time transitionStartTime (width g)
              (GAP_OFFSET (clientWidth g)) previousLevel (currentLevel g) ps
              Hw0 (Hend Htime))
    as (ps1 & off1 & off2 & Hl & Ho1 & Ho2).
  rewrite Hl in Hloop. injection Hloop as _ <-.
  unfold getWallSegments, Transitions.getWallSegments, sort2. cbv zeta.
  cbn [Transitions.holes Transitions.baseOffset Transitions.offsetVal fst snd].
  revert Ho1 Ho2. unfold Transitions.getLevelConfig. cbv zeta.
  destruct Hlevel as [Hl0 | (Hl2 & HG1 & HG2)].
  - rewrite Hl0. rewrite !(decide_True (P := (0 + 1)%nat = 1%nat)) by done.
    cbn [Transitions.lc_holes Transitions.hp_baseOffset Transitions.rangeFactor fst snd].
    intros -> ->; [| done | done].
    rewrite decide_False by lra. cbn [fst snd].
    rewrite !filter_cons, filter_nil. cbn [seg_start seg_end]. unfold HOLE_WIDTH.
    rewrite decide_True by lra. rewrite decide_False by lra.
    rewrite decide_True by lra. do 2 f_equal; [f_equal; lra |].
    do 2 f_equal. lra.
  - rewrite Hl2.
    rewrite !(decide_False (P := (2 + 1)%nat = 1%nat)) by done.
    rewrite !(decide_False (P := (2 + 1)%nat = 2%nat)) by done.
    rewrite !(decide_False (P := (2 + 1)%nat = 2%nat \/ _)) by lia.
    rewrite !(decide_True (P := (2 + 1)%nat = 3%nat)) by done.
    cbn [Transitions.lc_holes Transitions.hp_baseOffset Transitions.rangeFactor fst snd].
    intros -> ->; [| done | done].
    rewrite decide_False by lra. cbn [fst snd].
    rewrite !filter_cons, filter_nil. cbn [seg_start seg_end]. unfold HOLE_WIDTH.
    rewrite !decide_True by lra.
    do 2 f_equal; [f_equal; lra |].
    f_equal; [f_equal; lra |]. do 2 f_equal. lra.
Qed.

Lemma transition_walls_settled_witness :
  exists ps' st,
    Transitions.loop 16 5000 0 400 (GAP_OFFSET 400) 0 0 (Transitions.mkPhaseState 0 (0, 0))
      = Ok (ps', st) /\
    getWallSegments 0 (initial 400 800 400)
      = Ok (Transitions.getWallSegments 400 (Some st)).
Proof.
  destruct (loop_static_result 16 5000 0 400 (GAP_OFFSET 400) 0 0
              (Transitions.mkPhaseState 0 (0, 0)))
    as (ps' & st & Hl); [lra | lia |].
  exists ps', st. split; [exact Hl |].
  apply (transition_walls_settled 16 5000 0 0 (Transitions.mkPhaseState 0 (0, 0))
           ps' st (initial 400 800 400) 0);
    [lia | by left | unfold HOLE_WIDTH; cbn [width initial]; lra | exact Hl].
Defined.

(** X25.  The list of the variant holds at most three segments, none of them
    degenerate, from left to right, with at least [HOLE_WIDTH] pixels
    from the end of one to the start of any later one. *)
Theorem Transitions_getWallSegments_ordered (w : R)
    (st : option Transitions.paramState) :
  let segs := Transitions.getWallSegments w st in
  (length segs <= 3)%nat /\
  (forall s, s ∈ segs -> seg_start s < seg_end s) /\
  (forall i j s s', (i < j)%nat -> segs !! i = Some s -> segs !! j = Some s' ->
                    seg_end s + HOLE_WIDTH <= seg_start s').
Proof.
  cbv zeta. unfold Transitions.getWallSegments.
  destruct st as [st|].
  2:{ split; [cbn; lia |]. split; [by intros s ?%elem_of_nil |].
      intros i j s s' _ Hs. by rewrite lookup_nil in Hs. }
  cbv zeta.
  match goal with
  | |- context [sort2 ?a ?b] =>
      destruct (sort2_spec a b) as [Hl Hr]; rewrite Hl, Hr;
      assert (Hlr : Rmin a b <= Rmax a b)
        by (unfold Rmin, Rmax; case_match; lra);
      set (l := Rmin a b) in *; set (r := Rmax a b) in *
  end.
  unfold HOLE_WIDTH. rewrite !filter_cons, filter_nil.
  cbn [seg_start seg_end].
  split; [| split].
  - repeat case_decide; cbn [length]; lia.
  - intros s Hs.
    repeat case_decide;
      repeat (apply elem_of_cons in Hs as [-> | Hs]; [cbn [seg_start seg_end]; lra |]);
      by apply elem_of_nil in Hs.
  - intros i j s s' Hij Hs Hs'.
    repeat case_decide; list_cases; try lia; cbn [seg_start seg_end]; lra.
Qed.
